(** * STEM experiments: the simulation kernels of the demos

    A shallow embedding of the arithmetic and of the event handlers of the
    demo scripts (pendulum, magnets, beam balance, electrostatics,
    chemistry lab, ripple tank), with the properties the specification
    states about them and further properties of the pages around them.

    Conventions.
    - A JavaScript number is a real number ([R]): the finite doubles,
      idealised to exact arithmetic.  [Math.sqrt], [Math.sin], [Math.cos],
      [Math.abs], [Math.min], [Math.max] and [Math.floor] are [sqrt], [sin],
      [cos], [Rabs], [Rmin], [Rmax] and [Int_part]; [Math.round] is
      [js_round].
    - A comparison in an [if] is [decide] of the same proposition on [R].
    - Where a property is about a quotient being a number at all, the
      function lives in the [option] monad: [a /? b] is [None] when the
      divisor is zero (JavaScript then yields [NaN] or an infinity, which
      every later operation of these functions keeps non-finite).  Where
      the code goes on computing with such a quotient, the number is a
      [Num.num]: [NaN], an infinity or a real.
    - Rounding matters to what the beam balance does with equal products
      and with huge values: [BeamDouble] has its two functions on IEEE 754
      binary64, the kernel's [float], next to the ones on [R]. *)

From Stdlib Require Import Reals Lra Lia ZArith QArith Qround Qreals Machin.
From Stdlib Require Floats.
From stdpp Require Import base decidable option numbers list.

#[local] Open Scope R_scope.

(** ** Numbers *)

#[global] Instance Rlt_decision (x y : R) : Decision (x < y) := Rlt_dec x y.
#[global] Instance Rle_decision (x y : R) : Decision (x <= y) := Rle_dec x y.
#[global] Instance Rgt_decision (x y : R) : Decision (x > y) := Rgt_dec x y.
#[global] Instance Rge_decision (x y : R) : Decision (x >= y) := Rge_dec x y.
#[global] Instance Req_decision : EqDecision R := Req_dec_T.

(** Checked division: [None] stands for a non-finite quotient. *)
Definition checked_div (a b : R) : option R :=
  if decide (b = 0) then None else Some (a / b).

Notation "a /? b" := (checked_div a b) (at level 40, left associativity).

(** ** Simple pendulum (experiments/physics/simple-pendulum/script.js) *)

Module Pendulum.

Definition G : R := 981 / 100.

Record DataPoint := mkDataPoint {
  dp_length : R;
  dp_period : R;
  dp_periodSquared : R
}.

Record State := mkState {
  length_cm : R;              (* state.length, in cm *)
  initialAngle : R;           (* degrees *)
  angle : R;                  (* radians *)
  angularVelocity : R;
  angularAcceleration : R;
  isRunning : bool;
  startTime : R;
  lastCrossTime : R;
  oscillations : nat;
  elapsedTime : R;
  lastAngle : R;
  dataPoints : list DataPoint
}.

Definition initial_state : State :=
  {| length_cm := 50; initialAngle := 5; angle := 0;
     angularVelocity := 0; angularAcceleration := 0; isRunning := false;
     startTime := 0; lastCrossTime := 0; oscillations := 0;
     elapsedTime := 0; lastAngle := 0; dataPoints := [] |}.

Definition damping : R := 1 / 1000.

(** The zero-crossing counter at the end of [updatePendulumPhysics]:
    the first upward crossing records its time, the later ones count. *)
Definition count_crossing (newAngle newElapsed : R) (s : State)
  : R * nat :=
  if decide (newAngle >= 0 /\ lastAngle s < 0) then
    if decide (lastCrossTime s = 0) then (newElapsed, oscillations s)
    else (lastCrossTime s, S (oscillations s))
  else (lastCrossTime s, oscillations s).

Definition updatePendulumPhysics (deltaTime : R) (s : State) : State :=
  if negb (isRunning s) then s else
  let L := length_cm s / 100 in
  let g := G in
  let acc := - (g / L) * sin (angle s) - damping * angularVelocity s in
  let vel := angularVelocity s + acc * deltaTime in
  let ang := angle s + vel * deltaTime in
  let elapsed := elapsedTime s + deltaTime in
  let '(cross, osc) := count_crossing ang elapsed s in
  {| length_cm := length_cm s; initialAngle := initialAngle s;
     angle := ang; angularVelocity := vel; angularAcceleration := acc;
     isRunning := isRunning s; startTime := startTime s;
     lastCrossTime := cross; oscillations := osc;
     elapsedTime := elapsed; lastAngle := ang;
     dataPoints := dataPoints s |}.

(** The animation loop keeps [lastTime] next to the state; [animate] is
    one frame, [currentTime] being [performance.now() / 1000]. *)
Record Loop := mkLoop { st : State; lastTime : R }.

Definition frame_delta (currentTime last : R) : R :=
  Rmin (currentTime - last) (2 / 100).

Definition animate (currentTime : R) (l : Loop) : Loop :=
  let deltaTime := frame_delta currentTime (lastTime l) in
  {| st := updatePendulumPhysics deltaTime (st l);
     lastTime := currentTime |}.

(** The period shown by [updateUI] ([None] is the dash). *)
Definition displayed_period (s : State) : option R :=
  if decide (1 <= oscillations s)%nat
  then Some (elapsedTime s / INR (oscillations s))
  else None.

Definition to_radians (deg : R) : R := deg * PI / 180.

(** The click handler of the start button; [now] is
    [performance.now() / 1000]. *)
Definition start_click (now : R) (s : State) : State :=
  if negb (isRunning s) then
    let a := to_radians (initialAngle s) in
    {| length_cm := length_cm s; initialAngle := initialAngle s;
       angle := a; angularVelocity := 0;
       angularAcceleration := angularAcceleration s;
       isRunning := true; startTime := now;
       lastCrossTime := 0; oscillations := 0;
       elapsedTime := 0; lastAngle := a;
       dataPoints := dataPoints s |}
  else s.

Definition stop_click (s : State) : State :=
  {| length_cm := length_cm s; initialAngle := initialAngle s;
     angle := angle s; angularVelocity := angularVelocity s;
     angularAcceleration := angularAcceleration s;
     isRunning := false; startTime := startTime s;
     lastCrossTime := lastCrossTime s; oscillations := oscillations s;
     elapsedTime := elapsedTime s; lastAngle := lastAngle s;
     dataPoints := dataPoints s |}.

(** The loop right after a click on start at time 0. *)
Definition running_loop : Loop :=
  {| st := start_click 0 initial_state; lastTime := 0 |}.

(** A run of the loop: one [animate] per time stamp. *)
Definition run_frames (times : list R) (l : Loop) : Loop :=
  foldl (fun l t => animate t l) l times.

(** The time stamps of [n] frames of a 50 Hz display, from [k / 50]
    on. *)
Definition ticks_50Hz (k n : nat) : list R :=
  map (fun j => INR j / 50) (seq k n).

(** Every frame of the run comes the capped 20 ms after the one
    before. *)
Fixpoint steady (last : R) (times : list R) : Prop :=
  match times with
  | [] => True
  | t :: times' => frame_delta t last = 2 / 100 /\ steady t times'
  end.

(** The small-angle period [2 pi sqrt (L / g)], [L] in metres. *)
Definition small_angle_period (s : State) : R :=
  2 * PI * sqrt (length_cm s / 100 / G).

(** *** Least-squares fit of the length against period-squared plot *)

Record Fit := mkFit { slope : R; intercept : R }.

(** [l.reduce((acc, v, i) => f(acc, v, i), init)], the index starting
    at [i]. *)
Fixpoint reduce_i {A B : Type} (f : A -> B -> nat -> A) (acc : A)
    (i : nat) (l : list B) : A :=
  match l with
  | [] => acc
  | v :: l' => reduce_i f (f acc v i) (S i) l'
  end.

(** [sum + xi * y[i]]: reading [y] past its end gives [undefined], and
    the sum is not a number from there on. *)
Definition add_product (y : list R) (acc : option R) (xi : R) (i : nat)
  : option R :=
  sum ← acc; yi ← y !! i; Some (sum + xi * yi).

Definition calculateLinearRegression (x y : list R) : option Fit :=
  let n := INR (length x) in
  let sumX := foldl (fun a b => a + b) 0 x in
  let sumY := foldl (fun a b => a + b) 0 y in
  sumXY ← reduce_i (add_product y) (Some 0) 0%nat x;
  let sumXX := foldl (fun sum xi => sum + xi * xi) 0 x in
  slope ← (n * sumXY - sumX * sumY) /? (n * sumXX - sumX * sumX);
  intercept ← (sumY - slope * sumX) /? n;
  Some {| slope := slope; intercept := intercept |}.

End Pendulum.

(** ** Rational enclosures of a pendulum run

    A run of the pendulum from the page's default settings (50 cm, 5
    degrees) cannot be evaluated in [R]; it is followed here by intervals
    with rational end points that contain the angle and the angular
    velocity, rounded outwards after each frame. *)

Module Enclosure.
#[local] Open Scope Q_scope.

Record t := mk {
  a_lo : Q; a_hi : Q;     (* bounds of [angle] *)
  w_lo : Q; w_hi : Q;     (* bounds of [angularVelocity] *)
  cross : Q;              (* [lastCrossTime] *)
  count : nat;            (* [oscillations] *)
  elapsed : Q             (* [elapsedTime] *)
}.

Definition grain : positive := 10000000000.

Definition round_down (q : Q) : Q := Qfloor (q * (Zpos grain # 1)) # grain.
Definition round_up (q : Q) : Q := Qceiling (q * (Zpos grain # 1)) # grain.

(** Partial sums of the sine series: on [[0, 1]] the one up to the
    seventh power is below the sine and the one up to the fifth power
    above it; on [[-1, 0]] it is the other way round. *)
Definition sin_poly5 (x : Q) : Q :=
  let x2 := x * x in
  x * (1 - x2 * ((1 # 6) - x2 * (1 # 120))).

Definition sin_poly7 (x : Q) : Q :=
  let x2 := x * x in
  x * (1 - x2 * ((1 # 6) - x2 * ((1 # 120) - x2 * (1 # 5040)))).

Definition sin_below (x : Q) : Q :=
  if Qle_bool 0 x then sin_poly7 x else sin_poly5 x.

Definition sin_above (x : Q) : Q :=
  if Qle_bool 0 x then sin_poly5 x else sin_poly7 x.

(** [Some true]: every number of the interval is [>= 0]; [Some false]:
    every one is [< 0]. *)
Definition sign (lo hi : Q) : option bool :=
  if Qle_bool 0 lo then Some true
  else if Qle_bool 0 hi then None
  else Some false.

Definition dt : Q := 2 # 100.

(** The update of the velocity for [length = 50] and [deltaTime = dt]
    is [keep * omega - pull * sin angle]. *)
Definition keep : Q := 1 - (1 # 1000) * dt.
Definition pull : Q := (981 # 100) / (50 # 100) * dt.

(** One frame of [updatePendulumPhysics] on enclosures; [None] when the
    bounds are too wide to decide a comparison of the code. *)
Definition step (e : t) : option t :=
  if negb (Qle_bool (-1) (a_lo e) && Qle_bool (a_hi e) 1) then None
  else
    let w_lo' := round_down (keep * w_lo e - pull * sin_above (a_hi e)) in
    let w_hi' := round_up (keep * w_hi e - pull * sin_below (a_lo e)) in
    let a_lo' := round_down (a_lo e + dt * w_lo') in
    let a_hi' := round_up (a_hi e + dt * w_hi') in
    match sign a_lo' a_hi', sign (a_lo e) (a_hi e) with
    | Some now_nonneg, Some last_nonneg =>
        let elapsed' := Qred (elapsed e + dt) in
        let crossing := now_nonneg && negb last_nonneg in
        let first := Qeq_bool (cross e) 0 in
        Some {| a_lo := a_lo'; a_hi := a_hi'; w_lo := w_lo'; w_hi := w_hi';
                cross := if crossing && first then elapsed' else cross e;
                count := if crossing && negb first then S (count e)
                         else count e;
                elapsed := elapsed' |}
    | _, _ => None
    end.

Fixpoint steps (n : nat) (e : t) : option t :=
  match n with
  | O => Some e
  | S n' => match step e with Some e' => steps n' e' | None => None end
  end.

(** The state after a click on start with the default settings: the
    angle is 5 degrees in radians, between bounds taken from
    [3.1415926 < PI < 3.1415927]. *)
Definition start : t :=
  {| a_lo := round_down (5 * (31415926 # 10000000) / 180);
     a_hi := round_up (5 * (31415927 # 10000000) / 180);
     w_lo := 0; w_hi := 0; cross := 0; count := 0; elapsed := 0 |}.

(** What [steps] is asked to establish about a run of [n] frames. *)
Definition reaches (n : nat) (oscillations : nat) (lastCross elapsedTime : Q)
  : bool :=
  match steps n start with
  | Some e =>
      Nat.eqb (count e) oscillations
      && Qeq_bool (cross e) lastCross
      && Qeq_bool (elapsed e) elapsedTime
  | None => false
  end.

End Enclosure.

(** The enclosure [e] contains the running pendulum state [s]. *)
Definition encloses (e : Enclosure.t) (s : Pendulum.State) : Prop :=
  Q2R (Enclosure.a_lo e) <= Pendulum.angle s <= Q2R (Enclosure.a_hi e) /\
  Q2R (Enclosure.w_lo e) <= Pendulum.angularVelocity s
    <= Q2R (Enclosure.w_hi e) /\
  Pendulum.lastAngle s = Pendulum.angle s /\
  Pendulum.lastCrossTime s = Q2R (Enclosure.cross e) /\
  Pendulum.oscillations s = Enclosure.count e /\
  Pendulum.elapsedTime s = Q2R (Enclosure.elapsed e) /\
  Pendulum.isRunning s = true /\
  Pendulum.length_cm s = 50.

(** ** Bar magnets: the field sampled by filings, needles and field lines *)

Record Position := mkPosition { pos_x : R; pos_z : R }.

Record Field := mkField { bx : R; bz : R; strength : R }.

(** Distance of the sample point from the magnet, as both demos compute
    it. *)
Definition distance_from (magnetPos : Position) (x z : R) : R :=
  let dx := x - pos_x magnetPos in
  let dz := z - pos_z magnetPos in
  sqrt (dx * dx + dz * dz).

(** The sample point moved away from the magnet along the same ray: its
    displacement [(dx, dz)] multiplied by [lam]. *)
Definition scale_from (magnetPos : Position) (lam x z : R) : R * R :=
  (pos_x magnetPos + lam * (x - pos_x magnetPos),
   pos_z magnetPos + lam * (z - pos_z magnetPos)).

(** Moving the sample point from [(x, z)] out by [lam] divides the field
    strength by [factor]. *)
Definition strength_divided_by (fieldAt : R -> R -> option Field)
    (magnetPos : Position) (lam x z factor : R) : Prop :=
  let '(x', z') := scale_from magnetPos lam x z in
  strength <$> fieldAt x' z' =
  (fun s => s / factor) <$> (strength <$> fieldAt x z).

Definition origin : Position := {| pos_x := 0; pos_z := 0 |}.

(** The demo with the strength slider and the test materials;
    [sliderStrength] is the parsed value of the [magnetStrength] input. *)
Module MagnetSlider.

Definition calculateFieldAt (magnetPos : Position) (sliderStrength : R)
    (x z : R) : option Field :=
  let dx := x - pos_x magnetPos in
  let dz := z - pos_z magnetPos in
  let dist := sqrt (dx * dx + dz * dz) in
  if decide (dist < 1 / 10) then Some {| bx := 0; bz := 0; strength := 0 |}
  else
    let magStrength := sliderStrength * (5 / 10) in
    let r3 := dist * dist * dist in
    qx ← (3 * dx * dz) /? r3;
    let bx := qx * magStrength in
    qz ← (2 * dz * dz - dx * dx) /? r3;
    let bz := qz * magStrength in
    Some {| bx := bx; bz := bz; strength := sqrt (bx * bx + bz * bz) |}.

End MagnetSlider.

(** The demo with the magnet that can be turned; [magnetRot] is
    [magnetGroup.rotation.y]. *)
Module MagnetRotating.

Definition calculateFieldAt (magnetPos : Position) (magnetRot : R)
    (x z : R) : option Field :=
  let dx := x - pos_x magnetPos in
  let dz := z - pos_z magnetPos in
  let cosRot := cos (- magnetRot) in
  let sinRot := sin (- magnetRot) in
  let dxRot := dx * cosRot - dz * sinRot in
  let dzRot := dx * sinRot + dz * cosRot in
  let dist := sqrt (dx * dx + dz * dz) in
  if decide (dist < 1 / 10) then Some {| bx := 0; bz := 0; strength := 0 |}
  else
    let magStrength := 5 / 10 in
    let r3 := dist * dist * dist in
    qx ← (3 * dxRot * dzRot) /? r3;
    let bxRot := qx * magStrength in
    qz ← (2 * dzRot * dzRot - dxRot * dxRot) /? r3;
    let bzRot := qz * magStrength in
    let bx := bxRot * cosRot - bzRot * sinRot in
    let bz := bxRot * sinRot + bzRot * cosRot in
    Some {| bx := bx; bz := bz; strength := sqrt (bx * bx + bz * bz) |}.

End MagnetRotating.

(** ** Beam balance *)

Module Beam.

Definition GRAVITY : R := 981 / 100.
Definition MAX_TILT_ANGLE : R := PI / 6.

Record State := mkState {
  mass1 : R;   (* grams *)
  dist1 : R;   (* cm from the pivot *)
  mass2 : R;
  dist2 : R;
  currentAngle : R;
  targetAngle : R
}.

Record Moments := mkMoments { moment1 : R; moment2 : R; F1 : R; F2 : R }.

Definition calculateMoments (s : State) : Moments :=
  let m1 := mass1 s / 1000 in
  let m2 := mass2 s / 1000 in
  let d1 := dist1 s / 100 in
  let d2 := dist2 s / 100 in
  let F1 := m1 * GRAVITY in
  let F2 := m2 * GRAVITY in
  let moment1 := F1 * d1 in
  let moment2 := F2 * d2 in
  {| moment1 := moment1; moment2 := moment2; F1 := F1; F2 := F2 |}.

Definition calculateTiltAngle (s : State) : R :=
  let ms := calculateMoments s in
  let netMoment := moment2 ms - moment1 ms in
  let momentMagnitude := Rabs netMoment in
  let maxMoment := 5 / 10 in
  let angle := (netMoment / maxMoment) * MAX_TILT_ANGLE in
  Rmax (- MAX_TILT_ANGLE) (Rmin MAX_TILT_ANGLE angle).

Definition updateBeamRotation (s : State) : State :=
  let target := calculateTiltAngle s in
  let diff := target - currentAngle s in
  {| mass1 := mass1 s; dist1 := dist1 s; mass2 := mass2 s;
     dist2 := dist2 s;
     currentAngle := currentAngle s + diff * (1 / 10);
     targetAngle := target |}.

Definition to_degrees (rad : R) : R := rad * 180 / PI.

(** The state the page starts in (200 g at 30 cm against 300 g at
    20 cm). *)
Definition initial_state : State :=
  {| mass1 := 200; dist1 := 30; mass2 := 300; dist2 := 20;
     currentAngle := 0; targetAngle := 0 |}.

End Beam.

(** ** Chemistry lab: preparing hydrogen and reducing copper oxide *)

Module Chem.

Record State := mkState {
  zincAdded : bool;
  hclAdded : bool;
  gasCollected : bool;
  popTested : bool;
  cuoAdded : bool;
  heated : bool;
  hydrogenPassed : bool;
  waterTested : bool
}.

Definition initial_state : State :=
  mkState false false false false false false false false.

(** The [disabled] attribute of the seven buttons the script switches.
    The zinc button and the reset button are never disabled by it. *)
Record Buttons := mkButtons {
  addHClBtn : bool;
  collectGasBtn : bool;
  popTestBtn : bool;
  addCuOBtn : bool;
  heatBtn : bool;
  passHydrogenBtn : bool;
  waterTestBtn : bool
}.

(** The page: the state object, the buttons, and the number of pending
    two-second timers set by the heat button. *)
Record Page := mkPage {
  state : State;
  disabled : Buttons;
  heatTimers : nat
}.

Inductive Button :=
| AddZinc | AddHCl | CollectGas | PopTest | AddCuO | Heat
| PassHydrogen | WaterTest | Reset.

Inductive Event :=
| Click (b : Button)
| HeatTimeout.

Definition is_disabled (b : Button) (d : Buttons) : bool :=
  match b with
  | AddZinc | Reset => false
  | AddHCl => addHClBtn d
  | CollectGas => collectGasBtn d
  | PopTest => popTestBtn d
  | AddCuO => addCuOBtn d
  | Heat => heatBtn d
  | PassHydrogen => passHydrogenBtn d
  | WaterTest => waterTestBtn d
  end.

(** The click listeners, one case per button. *)
Definition handler (b : Button) (p : Page) : Page :=
  let s := state p in
  let d := disabled p in
  match b with
  | AddZinc =>
      if negb (zincAdded s) then
        mkPage
          (mkState true (hclAdded s) (gasCollected s) (popTested s)
             (cuoAdded s) (heated s) (hydrogenPassed s) (waterTested s))
          (mkButtons false (collectGasBtn d) (popTestBtn d) (addCuOBtn d)
             (heatBtn d) (passHydrogenBtn d) (waterTestBtn d))
          (heatTimers p)
      else p
  | AddHCl =>
      if zincAdded s && negb (hclAdded s) then
        mkPage
          (mkState (zincAdded s) true (gasCollected s) (popTested s)
             (cuoAdded s) (heated s) (hydrogenPassed s) (waterTested s))
          (mkButtons (addHClBtn d) false (popTestBtn d) (addCuOBtn d)
             (heatBtn d) (passHydrogenBtn d) (waterTestBtn d))
          (heatTimers p)
      else p
  | CollectGas =>
      if hclAdded s && negb (gasCollected s) then
        mkPage
          (mkState (zincAdded s) (hclAdded s) true (popTested s)
             (cuoAdded s) (heated s) (hydrogenPassed s) (waterTested s))
          (mkButtons (addHClBtn d) (collectGasBtn d) false (addCuOBtn d)
             (heatBtn d) (passHydrogenBtn d) (waterTestBtn d))
          (heatTimers p)
      else p
  | PopTest =>
      if gasCollected s && negb (popTested s) then
        mkPage
          (mkState (zincAdded s) (hclAdded s) (gasCollected s) true
             (cuoAdded s) (heated s) (hydrogenPassed s) (waterTested s))
          (mkButtons (addHClBtn d) (collectGasBtn d) (popTestBtn d) false
             (heatBtn d) (passHydrogenBtn d) (waterTestBtn d))
          (heatTimers p)
      else p
  | AddCuO =>
      if negb (cuoAdded s) then
        mkPage
          (mkState (zincAdded s) (hclAdded s) (gasCollected s)
             (popTested s) true (heated s) (hydrogenPassed s)
             (waterTested s))
          (mkButtons (addHClBtn d) (collectGasBtn d) (popTestBtn d)
             (addCuOBtn d) false (passHydrogenBtn d) (waterTestBtn d))
          (heatTimers p)
      else p
  | Heat =>
      if cuoAdded s && negb (heated s) then
        mkPage
          (mkState (zincAdded s) (hclAdded s) (gasCollected s)
             (popTested s) (cuoAdded s) true (hydrogenPassed s)
             (waterTested s))
          d
          (S (heatTimers p))
      else p
  | PassHydrogen =>
      if heated s && gasCollected s && negb (hydrogenPassed s) then
        mkPage
          (mkState (zincAdded s) (hclAdded s) (gasCollected s)
             (popTested s) (cuoAdded s) (heated s) true (waterTested s))
          (mkButtons (addHClBtn d) (collectGasBtn d) (popTestBtn d)
             (addCuOBtn d) (heatBtn d) (passHydrogenBtn d) false)
          (heatTimers p)
      else p
  | WaterTest =>
      if hydrogenPassed s && negb (waterTested s) then
        mkPage
          (mkState (zincAdded s) (hclAdded s) (gasCollected s)
             (popTested s) (cuoAdded s) (heated s) (hydrogenPassed s) true)
          d
          (heatTimers p)
      else p
  | Reset =>
      mkPage
        (mkState false false false false false false false false)
        (mkButtons true true true true true true true)
        (heatTimers p)
  end.

(** One event of the page: a click reaches its listener only when the
    button is enabled; a pending heat timer enables the hydrogen
    button when it fires. *)
Definition step (p : Page) (e : Event) : Page :=
  match e with
  | Click b => if is_disabled b (disabled p) then p else handler b p
  | HeatTimeout =>
      match heatTimers p with
      | O => p
      | S k =>
          let d := disabled p in
          mkPage (state p)
            (mkButtons (addHClBtn d) (collectGasBtn d) (popTestBtn d)
               (addCuOBtn d) (heatBtn d) false (waterTestBtn d))
            k
      end
  end.

Definition run (p : Page) (events : list Event) : Page :=
  foldl step p events.

(** The page as loaded: all flags false, no timer; the initial
    [disabled] attributes come from the markup and are left open. *)
Definition loaded (d : Buttons) : Page := mkPage initial_state d 0.

Definition all_disabled : Buttons :=
  mkButtons true true true true true true true.

Definition reachable (p : Page) : Prop :=
  exists d events, p = run (loaded d) events.

(** The order of the experiment's steps, as implications between
    flags. *)
Definition ordered (s : State) : Prop :=
  (hclAdded s = true -> zincAdded s = true) /\
  (gasCollected s = true -> hclAdded s = true) /\
  (popTested s = true -> gasCollected s = true) /\
  (heated s = true -> cuoAdded s = true) /\
  (hydrogenPassed s = true ->
     heated s = true /\ gasCollected s = true) /\
  (waterTested s = true -> hydrogenPassed s = true).

(** The same as a test. *)
Definition orderedb (s : State) : bool :=
  implb (hclAdded s) (zincAdded s)
  && implb (gasCollected s) (hclAdded s)
  && implb (popTested s) (gasCollected s)
  && implb (heated s) (cuoAdded s)
  && implb (hydrogenPassed s) (heated s && gasCollected s)
  && implb (waterTested s) (hydrogenPassed s).

End Chem.

(** ** Ripple tank: the sampled wave field *)

Module Wave.

(** A cell of the [field] array: a number, or [None] for what is not
    one ([undefined] in a hole or past the end, [NaN]). *)
Definition cell := option R.

Record WaveField := mkWaveField {
  width : Z;
  height : Z;
  field : list cell
}.

(** [new WaveField(width, height)] *)
Definition new (w h : Z) : WaveField :=
  {| width := w; height := h;
     field := replicate (Z.to_nat (w * h)) (Some 0) |}.

(** [a[k]] for an integer [k]: [undefined] outside the array. *)
Definition array_get (a : list cell) (k : Z) : cell :=
  if decide (k < 0)%Z then None else mjoin (a !! Z.to_nat k).

(** [a[k] = v] for an integer [k]: an index past the end grows the
    array, leaving holes; a negative one names a property, not an
    element. *)
Definition array_set (a : list cell) (k : Z) (v : cell) : list cell :=
  if decide (k < 0)%Z then a
  else
    let i := Z.to_nat k in
    if decide (i < length a)%nat then <[i := v]> a
    else a ++ replicate (i - length a) None ++ [v].

(** The guard shared by the three accessors. *)
Definition off_grid (wf : WaveField) (x y : R) : Prop :=
  x < 0 \/ x >= IZR (width wf) \/ y < 0 \/ y >= IZR (height wf).

#[global] Instance off_grid_dec wf x y : Decision (off_grid wf x y).
Proof. unfold off_grid. apply _. Defined.

Definition index (wf : WaveField) (x y : R) : Z :=
  (Int_part y * width wf + Int_part x)%Z.

Definition getValue (wf : WaveField) (x y : R) : cell :=
  if decide (off_grid wf x y) then Some 0
  else array_get (field wf) (index wf x y).

Definition setValue (wf : WaveField) (x y : R) (value : R) : WaveField :=
  if decide (off_grid wf x y) then wf
  else
    {| width := width wf; height := height wf;
       field := array_set (field wf) (index wf x y) (Some value) |}.

Definition addWave (wf : WaveField) (x y : R) (amplitude phase : R)
  : WaveField :=
  if decide (off_grid wf x y) then wf
  else
    let k := index wf x y in
    let old := array_get (field wf) k in
    {| width := width wf; height := height wf;
       field :=
         array_set (field wf) k
           ((fun v => v + amplitude * sin phase) <$> old) |}.

Definition clear (wf : WaveField) : WaveField :=
  {| width := width wf; height := height wf;
     field := replicate (length (field wf)) (Some 0) |}.

(** The grid [[0, width) x [0, height)]. *)
Definition on_grid (wf : WaveField) (x y : R) : Prop :=
  0 <= x < IZR (width wf) /\ 0 <= y < IZR (height wf).

(** What the constructor establishes: non-negative sizes and one cell
    per grid point. *)
Definition well_formed (wf : WaveField) : Prop :=
  (0 <= width wf)%Z /\ (0 <= height wf)%Z /\
  length (field wf) = Z.to_nat (width wf * height wf).

End Wave.


(** ** Ripple tank: barriers and the geometry tests *)

Module WaveGeometry.

Record Barrier := mkBarrier { x1 : R; y1 : R; x2 : R; y2 : R }.


Definition lineIntersectsLine (x1 y1 x2 y2 x3 y3 x4 y4 : R) : bool :=
  let denom := (x1 - x2) * (y3 - y4) - (y1 - y2) * (x3 - x4) in
  if decide (Rabs denom < 1 / 1000) then false
  else
    let t := ((x1 - x3) * (y3 - y4) - (y1 - y3) * (x3 - x4)) / denom in
    let u := - ((x1 - x2) * (y1 - y3) - (y1 - y2) * (x1 - x3)) / denom in
    bool_decide (t >= 0 /\ t <= 1 /\ u >= 0 /\ u <= 1).

Definition isPointBlockedByBarrier (x y sourceX sourceY : R)
    (barrier : Barrier) : bool :=
  lineIntersectsLine sourceX sourceY x y
    (x1 barrier) (y1 barrier) (x2 barrier) (y2 barrier).

Definition distanceToLine (px py x1 y1 x2 y2 : R) : R :=
  let A := px - x1 in
  let B := py - y1 in
  let C := x2 - x1 in
  let D := y2 - y1 in
  let dot := A * C + B * D in
  let lenSq := C * C + D * D in
  let param := if decide (lenSq <> 0) then dot / lenSq else -1 in
  let xx := x1 + param * C in
  let yy := y1 + param * D in
  let dx := px - xx in
  let dy := py - yy in
  sqrt (dx * dx + dy * dy).




End WaveGeometry.


(** ** Ripple tank: the state object and its writers *)

Module WavePage.
Import WaveGeometry.

Inductive Mode := plane | point | twoPoints.

Record Demonstrations := mkDemonstrations {
  reflection : bool;
  refraction : bool;
  diffraction : bool;
  interference : bool
}.

Record Region := mkRegion {
  region_x : R; region_y : R; region_width : R; region_height : R
}.

Record Source := mkSource { source_x : R; source_y : R; source_time : R }.

Record State := mkState {
  frequency : R;
  amplitude : R;
  waveSpeed : R;
  isPaused : bool;
  waveMode : Mode;
  demonstrations : Demonstrations;
  barriers : list Barrier;
  shallowRegions : list Region;
  gaps : list Barrier;
  pointSources : list Source;
  time : R
}.

(** The canvas size next to the state; the wave field and the drawing
    read the state and never write it, and are not part of the page
    here. *)
Record Page := mkPage {
  canvas_width : R;
  canvas_height : R;
  state : State
}.

Definition centre_source (w h t : R) : Source :=
  {| source_x := w * (5 / 10); source_y := h * (5 / 10); source_time := t |}.

Definition two_sources (w h t : R) : list Source :=
  [ {| source_x := w * (4 / 10); source_y := h * (5 / 10); source_time := t |};
    {| source_x := w * (6 / 10); source_y := h * (5 / 10); source_time := t |} ].

Definition no_demonstration : Demonstrations :=
  mkDemonstrations false false false false.

Definition initial_state (w h : R) : State :=
  {| frequency := 3; amplitude := 15; waveSpeed := 100;
     isPaused := false; waveMode := plane;
     demonstrations := no_demonstration;
     barriers := []; shallowRegions := []; gaps := [];
     pointSources := [centre_source w h 0];
     time := 0 |}.

Definition with_demo (d : Demonstrations) (bs : list Barrier)
    (rs : list Region) (srcs : list Source) (m : Mode) (s : State) : State :=
  {| frequency := frequency s; amplitude := amplitude s;
     waveSpeed := waveSpeed s; isPaused := isPaused s; waveMode := m;
     demonstrations := d; barriers := bs; shallowRegions := rs;
     gaps := []; pointSources := srcs; time := time s |}.

Definition clearAll (p : Page) : Page :=
  let s := state p in
  {| canvas_width := canvas_width p; canvas_height := canvas_height p;
     state :=
       with_demo no_demonstration [] []
         [centre_source (canvas_width p) (canvas_height p) (time s)]
         (waveMode s) s |}.

Definition setupReflection (p0 : Page) : Page :=
  let p := clearAll p0 in
  let s := state p in
  let centerX := canvas_width p * (6 / 10) in
  let centerY := canvas_height p * (5 / 10) in
  let length := 300 in
  let angle := PI / 4 in
  let barrier :=
    {| x1 := centerX - length * cos angle;
       y1 := centerY - length * sin angle;
       x2 := centerX + length * cos angle;
       y2 := centerY + length * sin angle |} in
  {| canvas_width := canvas_width p; canvas_height := canvas_height p;
     state :=
       with_demo (mkDemonstrations true (refraction (demonstrations s))
                    (diffraction (demonstrations s))
                    (interference (demonstrations s)))
         (barriers s ++ [barrier]) (shallowRegions s) (pointSources s)
         plane s |}.

Definition setupRefraction (p0 : Page) : Page :=
  let p := clearAll p0 in
  let s := state p in
  let region :=
    {| region_x := canvas_width p * (5 / 10);
       region_y := canvas_height p * (3 / 10);
       region_width := 200; region_height := 200 |} in
  {| canvas_width := canvas_width p; canvas_height := canvas_height p;
     state :=
       with_demo (mkDemonstrations (reflection (demonstrations s)) true
                    (diffraction (demonstrations s))
                    (interference (demonstrations s)))
         (barriers s) (shallowRegions s ++ [region]) (pointSources s)
         plane s |}.

Definition setupDiffraction (p0 : Page) : Page :=
  let p := clearAll p0 in
  let s := state p in
  let gapY := canvas_height p * (5 / 10) in
  let gapWidth := 80 in
  let upper :=
    {| x1 := canvas_width p * (6 / 10); y1 := 0;
       x2 := canvas_width p * (6 / 10); y2 := gapY - gapWidth / 2 |} in
  let lower :=
    {| x1 := canvas_width p * (6 / 10); y1 := gapY + gapWidth / 2;
       x2 := canvas_width p * (6 / 10); y2 := canvas_height p |} in
  {| canvas_width := canvas_width p; canvas_height := canvas_height p;
     state :=
       with_demo (mkDemonstrations (reflection (demonstrations s))
                    (refraction (demonstrations s)) true
                    (interference (demonstrations s)))
         ((barriers s ++ [upper]) ++ [lower]) (shallowRegions s)
         (pointSources s) plane s |}.

Definition setupInterference (p0 : Page) : Page :=
  let p := clearAll p0 in
  let s := state p in
  {| canvas_width := canvas_width p; canvas_height := canvas_height p;
     state :=
       with_demo (mkDemonstrations (reflection (demonstrations s))
                    (refraction (demonstrations s))
                    (diffraction (demonstrations s)) true)
         (barriers s) (shallowRegions s)
         (two_sources (canvas_width p) (canvas_height p) (time s))
         twoPoints s |}.

(** The three mode buttons. *)
Definition select_mode (m : Mode) (p : Page) : Page :=
  let s := state p in
  let w := canvas_width p in
  let h := canvas_height p in
  {| canvas_width := w; canvas_height := h;
     state :=
       {| frequency := frequency s; amplitude := amplitude s;
          waveSpeed := waveSpeed s; isPaused := isPaused s; waveMode := m;
          demonstrations := demonstrations s; barriers := barriers s;
          shallowRegions := shallowRegions s; gaps := gaps s;
          pointSources :=
            match m with
            | twoPoints => two_sources w h (time s)
            | _ => [centre_source w h (time s)]
            end;
          time := time s |} |}.

Definition with_controls (f a v : R) (paused : bool) (t : R) (s : State)
  : State :=
  {| frequency := f; amplitude := a; waveSpeed := v; isPaused := paused;
     waveMode := waveMode s; demonstrations := demonstrations s;
     barriers := barriers s; shallowRegions := shallowRegions s;
     gaps := gaps s; pointSources := pointSources s; time := t |}.

(** The part of [animate] that writes the state. *)
Definition animate (p : Page) : Page :=
  let s := state p in
  {| canvas_width := canvas_width p; canvas_height := canvas_height p;
     state :=
       with_controls (frequency s) (amplitude s) (waveSpeed s) (isPaused s)
         (if negb (isPaused s) then time s + 16 / 1000 else time s) s |}.

(** [resizeCanvas], the new size being the window's. *)
Definition resizeCanvas (w h : R) (p : Page) : Page :=
  let s := state p in
  {| canvas_width := w; canvas_height := h;
     state :=
       match pointSources s with
       | src :: rest =>
           if decide (source_x src = 0 /\ source_y src = 0) then
             {| frequency := frequency s; amplitude := amplitude s;
                waveSpeed := waveSpeed s; isPaused := isPaused s;
                waveMode := waveMode s; demonstrations := demonstrations s;
                barriers := barriers s; shallowRegions := shallowRegions s;
                gaps := gaps s;
                pointSources :=
                  {| source_x := w * (5 / 10); source_y := h * (5 / 10);
                     source_time := source_time src |} :: rest;
                time := time s |}
           else s
       | [] => s
       end |}.

Inductive Event :=
| PlaneWaveBtn | PointSourceBtn | TwoSourcesBtn
| ReflectionBtn | RefractionBtn | DiffractionBtn | InterferenceBtn
| ClearBtn | PauseBtn
| FrequencyInput (v : R) | AmplitudeInput (v : R) | SpeedInput (v : R)
| Frame
| Resize (w h : R).

Definition step (p : Page) (e : Event) : Page :=
  let s := state p in
  let set_state s' :=
    {| canvas_width := canvas_width p; canvas_height := canvas_height p;
       state := s' |} in
  match e with
  | PlaneWaveBtn => select_mode plane p
  | PointSourceBtn => select_mode point p
  | TwoSourcesBtn => select_mode twoPoints p
  | ReflectionBtn => setupReflection p
  | RefractionBtn => setupRefraction p
  | DiffractionBtn => setupDiffraction p
  | InterferenceBtn => setupInterference p
  | ClearBtn => clearAll p
  | PauseBtn =>
      set_state (with_controls (frequency s) (amplitude s) (waveSpeed s)
                   (negb (isPaused s)) (time s) s)
  | FrequencyInput v =>
      set_state (with_controls v (amplitude s) (waveSpeed s) (isPaused s)
                   (time s) s)
  | AmplitudeInput v =>
      set_state (with_controls (frequency s) v (waveSpeed s) (isPaused s)
                   (time s) s)
  | SpeedInput v =>
      set_state (with_controls (frequency s) (amplitude s) v (isPaused s)
                   (time s) s)
  | Frame => animate p
  | Resize w h => resizeCanvas w h p
  end.

Definition run (p : Page) (events : list Event) : Page := foldl step p events.

(** The page with the state object as the script writes it down, on a
    canvas of [w] by [h]. *)
Definition written (w h : R) : Page :=
  {| canvas_width := w; canvas_height := h; state := initial_state w h |}.

(** At most one demonstration is flagged, and the obstacles on the
    canvas are its own: one barrier for reflection, one shallow region
    for refraction, two barriers for diffraction, none otherwise. *)
Definition obstacles_match (s : State) : Prop :=
  let d := demonstrations s in
  match reflection d, refraction d, diffraction d, interference d with
  | false, false, false, false =>
      length (barriers s) = 0%nat /\ length (shallowRegions s) = 0%nat
  | true, false, false, false =>
      length (barriers s) = 1%nat /\ length (shallowRegions s) = 0%nat
  | false, true, false, false =>
      length (barriers s) = 0%nat /\ length (shallowRegions s) = 1%nat
  | false, false, true, false =>
      length (barriers s) = 2%nat /\ length (shallowRegions s) = 0%nat
  | false, false, false, true =>
      length (barriers s) = 0%nat /\ length (shallowRegions s) = 0%nat
  | _, _, _, _ => False
  end
  /\ gaps s = [].

(** The number of demonstrations flagged. *)
Definition flagged (d : Demonstrations) : nat :=
  (Nat.b2n (reflection d) + Nat.b2n (refraction d)
   + Nat.b2n (diffraction d) + Nat.b2n (interference d))%nat.

(** Every source has started, and there are one or two of them. *)
Definition sources_started (s : State) : Prop :=
  (length (pointSources s) = 1 \/ length (pointSources s) = 2)%nat /\
  Forall (fun src => source_time src <= time s) (pointSources s).

End WavePage.


(** ** Rounding *)

(** [Math.round]: the nearest integer, halves going up. *)
Definition js_round (x : R) : Z := Int_part (x + 1 / 2).

(** ** Quotients that may not be numbers *)

(** Where a divisor can be zero and the code goes on computing with the
    quotient, the value is a number, an infinity or [NaN], and
    [Math.abs], [Math.round], [Math.min] and [Math.max] act on it as
    JavaScript has them. *)
Module Num.

Inductive num := NaN | PosInf | NegInf | Fin (r : R).

(** [a / b], a zero divisor being [+0] (a square, the value of a
    slider): [0 / 0] is [NaN], otherwise the infinity with the sign of
    [a]. *)
Definition quotient (a b : R) : num :=
  if decide (b = 0) then
    if decide (a = 0) then NaN
    else if decide (0 < a) then PosInf else NegInf
  else Fin (a / b).

Definition Math_abs (x : num) : num :=
  match x with
  | NaN => NaN
  | PosInf | NegInf => PosInf
  | Fin r => Fin (Rabs r)
  end.

Definition Math_round (x : num) : num :=
  match x with
  | Fin r => Fin (IZR (js_round r))
  | other => other
  end.

(** [x * c] for a number [c]. *)
Definition times (x : num) (c : R) : num :=
  match x with
  | NaN => NaN
  | PosInf =>
      if decide (0 < c) then PosInf else if decide (c < 0) then NegInf
      else NaN
  | NegInf =>
      if decide (0 < c) then NegInf else if decide (c < 0) then PosInf
      else NaN
  | Fin r => Fin (r * c)
  end.

(** [Math.min(a, x)] and [Math.max(a, x)] for a number [a]. *)
Definition Math_min (a : R) (x : num) : num :=
  match x with
  | NaN => NaN
  | PosInf => Fin a
  | NegInf => NegInf
  | Fin r => Fin (Rmin a r)
  end.

Definition Math_max (a : R) (x : num) : num :=
  match x with
  | NaN => NaN
  | PosInf => PosInf
  | NegInf => Fin a
  | Fin r => Fin (Rmax a r)
  end.

End Num.

(** ** Static electricity: charging by rubbing *)

Module Electro.

Inductive Material :=
| glass | silk | fur | perspex | plastic_pen | ebonite | polythene.

#[global] Instance Material_eq_dec : EqDecision Material.
Proof. solve_decision. Defined.

(** The [rank] column of the [materials] table. *)
Definition rank (m : Material) : Z :=
  match m with
  | glass => 5
  | silk => 4
  | fur => 3
  | perspex => 2
  | plastic_pen => 1
  | ebonite => -1
  | polythene => -2
  end.

Record Object := mkObject { key : Material; charge : Z }.

Record State := mkState { A : Object; B : Object }.

Definition initial_state : State :=
  {| A := {| key := plastic_pen; charge := 0 |};
     B := {| key := fur; charge := 0 |} |}.

Inductive Side := sideA | sideB.

Definition get (side : Side) (s : State) : Object :=
  match side with sideA => A s | sideB => B s end.

(** [state[side].charge += delta] *)
Definition add_charge (side : Side) (delta : Z) (s : State) : State :=
  match side with
  | sideA => {| A := {| key := key (A s); charge := charge (A s) + delta |};
                B := B s |}
  | sideB => {| A := A s;
                B := {| key := key (B s); charge := charge (B s) + delta |} |}
  end.

Definition other (side : Side) : Side :=
  match side with sideA => sideB | sideB => sideA end.

Definition clamp (v a b : Z) : Z := Z.max a (Z.min b v).

(** [doRub]; [rnd1], [rnd2] and [rnd3] are the values [Math.random()]
    returns where the code calls it. *)
Definition doRub (primary secondary : Side) (rnd1 rnd2 rnd3 : R)
    (s : State) : State :=
  let keyP := key (get primary s) in
  let keyS := key (get secondary s) in
  if decide (keyP = keyS) then s
  else
    let pRank := rank keyP in
    let sRank := rank keyS in
    let diff := (pRank - sRank)%Z in
    let base := Z.abs diff in
    let transfer := Z.max 1 (js_round (IZR base * (1 + rnd1 * (6 / 10)))) in
    let s' :=
      if decide (diff > 0)%Z then
        add_charge secondary (- transfer) (add_charge primary transfer s)
      else if decide (diff < 0)%Z then
        add_charge secondary transfer (add_charge primary (- transfer) s)
      else
        let small := js_round (1 + rnd2 * 2) in
        let sign := if decide (rnd3 > 5 / 10) then 1%Z else (-1)%Z in
        add_charge secondary (- (sign * small))
          (add_charge primary (sign * small) s) in
    {| A := {| key := key (A s'); charge := clamp (charge (A s')) (-50) 50 |};
       B := {| key := key (B s'); charge := clamp (charge (B s')) (-50) 50 |}
    |}.

Inductive Event :=
| SelectA (m : Material)
| SelectB (m : Material)
| Rub (rnd1 rnd2 rnd3 : R)
| ReverseRub (rnd1 rnd2 rnd3 : R)
| Reset.

Definition step (s : State) (e : Event) : State :=
  match e with
  | SelectA m => {| A := {| key := m; charge := 0 |}; B := B s |}
  | SelectB m => {| A := A s; B := {| key := m; charge := 0 |} |}
  | Rub r1 r2 r3 => doRub sideA sideB r1 r2 r3 s
  | ReverseRub r1 r2 r3 => doRub sideB sideA r1 r2 r3 s
  | Reset =>
      {| A := {| key := key (A s); charge := 0 |};
         B := {| key := key (B s); charge := 0 |} |}
  end.

Definition run (s : State) (events : list Event) : State :=
  foldl step s events.

Definition reachable (s : State) : Prop :=
  exists events, s = run initial_state events.

(** What [computeForce] draws: nothing, or a pair of arrows of one
    length pointing at each other (attraction) or apart. *)
Record Arrows := mkArrows { arrowLength : Num.num; attraction : bool }.

(** [d] is the value of the distance slider. *)
Definition computeForce (s : State) (d : R) : option Arrows :=
  let q1 := IZR (charge (A s)) in
  let q2 := IZR (charge (B s)) in
  if decide (q1 = 0 /\ q2 = 0) then None
  else
    let k := 8 / 100 in
    let F := Num.quotient (k * (q1 * q2)) (d * d) in
    let mag := Num.Math_abs F in
    let arrowLength :=
      Num.Math_min (15 / 10) (Num.Math_max (3 / 10) (Num.times mag (15 / 10)))
    in
    Some {| arrowLength := arrowLength;
            attraction := bool_decide (q1 * q2 < 0) |}.

(** A pen that took 3 units from the fur. *)
Definition charged_pair : State :=
  {| A := {| key := plastic_pen; charge := 3 |};
     B := {| key := fur; charge := -3 |} |}.

(** The arrows of [charged_pair] with the distance slider at 0. *)
Definition charged_pair_arrows : Arrows :=
  {| arrowLength :=
       Num.Math_min (15 / 10)
         (Num.Math_max (3 / 10)
            (Num.times
               (Num.Math_abs (Num.quotient (8 / 100 * (3 * -3)) (0 * 0)))
               (15 / 10)));
     attraction := bool_decide (3 * -3 < 0) |}.

End Electro.


(** ** Beam balance: the balance button, its animation and the status
    line *)

Module BeamPage.
Import Beam.

Definition with_dist2 (d2 : R) (s : State) : State :=
  {| mass1 := mass1 s; dist1 := dist1 s; mass2 := mass2 s; dist2 := d2;
     currentAngle := currentAngle s; targetAngle := targetAngle s |}.

(** The click listener of the balance button: the distance it hands to
    [animateToBalance]. *)
Definition balance_target (s : State) : Num.num :=
  let requiredD2 := Num.quotient (mass1 s * dist1 s) (mass2 s) in
  Num.Math_max 5 (Num.Math_min 45 (Num.Math_round requiredD2)).

(** One frame of the animation inside [animateToBalance], [elapsed]
    milliseconds after its start: the new state, and whether another
    frame is requested. *)
Definition animateToBalance_frame (startD2 targetD2 elapsed : R)
    (s : State) : State * bool :=
  let duration := 800 in
  let progress := Rmin (elapsed / duration) 1 in
  let easeOut := 1 - (1 - progress) ^ 3 in
  (with_dist2 (IZR (js_round (startD2 + (targetD2 - startD2) * easeOut))) s,
   bool_decide (progress < 1)).

(** The balance status line written by [updateUI]. *)
Inductive Status := Balanced | TiltingLeft | TiltingRight.

Definition balanceStatus (s : State) : Status :=
  let ms := calculateMoments s in
  let diff := Rabs (moment1 ms - moment2 ms) in
  let tolerance := 1 / 1000 in
  if decide (diff < tolerance) then Balanced
  else if decide (moment1 ms > moment2 ms) then TiltingLeft
  else TiltingRight.

(** [n] frames of the render loop with the sliders left alone. *)
Fixpoint frames (n : nat) (s : State) : State :=
  match n with
  | O => s
  | S n' => frames n' (updateBeamRotation s)
  end.

(** 100 g at 30 cm against 60 g: balance is at 50 cm, out of the
    range of the slider. *)
Definition light_right : State :=
  {| mass1 := 100; dist1 := 30; mass2 := 60; dist2 := 20;
     currentAngle := 0; targetAngle := 0 |}.

(** 500 g at 17 cm against 400 g: balance is at 21.25 cm, between two
    steps of the slider. *)
Definition heavy_right : State :=
  {| mass1 := 500; dist1 := 17; mass2 := 400; dist2 := 20;
     currentAngle := 0; targetAngle := 0 |}.

(** 50 g at 18 cm against 150 g, the right mass still at 20 cm: balance
    is at 6 cm. *)
Definition right_too_far : State :=
  {| mass1 := 50; dist1 := 18; mass2 := 150; dist2 := 20;
     currentAngle := 0; targetAngle := 0 |}.

End BeamPage.

(** ** Beam balance on doubles *)

(** The two functions of the beam balance once more, this time on the
    numbers the code computes with: IEEE 754 binary64, the kernel's
    [float], with the operations rounding to nearest as JavaScript's
    do.  [Math.min] and [Math.max] give [NaN] when an argument is
    [NaN] and order [-0] below [+0]. *)
Module BeamDouble.
Import Floats.
#[local] Open Scope float_scope.
#[local] Set Warnings "-inexact-float".

Definition GRAVITY : float := 9.81.
Definition Math_PI : float := 3.141592653589793.
Definition MAX_TILT_ANGLE : float := Math_PI / 6.

Definition Math_min (a b : float) : float :=
  if is_nan a || is_nan b then nan
  else if a <? b then a
  else if b <? a then b
  else if get_sign a then a else b.

Definition Math_max (a b : float) : float :=
  if is_nan a || is_nan b then nan
  else if a <? b then b
  else if b <? a then a
  else if get_sign a then b else a.

Record State := mkState {
  mass1 : float;
  dist1 : float;
  mass2 : float;
  dist2 : float;
  currentAngle : float;
  targetAngle : float
}.

Record Moments := mkMoments {
  moment1 : float; moment2 : float; F1 : float; F2 : float
}.

Definition calculateMoments (s : State) : Moments :=
  let m1 := mass1 s / 1000 in
  let m2 := mass2 s / 1000 in
  let d1 := dist1 s / 100 in
  let d2 := dist2 s / 100 in
  let F1 := m1 * GRAVITY in
  let F2 := m2 * GRAVITY in
  let moment1 := F1 * d1 in
  let moment2 := F2 * d2 in
  {| moment1 := moment1; moment2 := moment2; F1 := F1; F2 := F2 |}.

(** The angle of [calculateTiltAngle] before it is clamped. *)
Definition unclamped_angle (s : State) : float :=
  let ms := calculateMoments s in
  let netMoment := moment2 ms - moment1 ms in
  let maxMoment := 0.5 in
  (netMoment / maxMoment) * MAX_TILT_ANGLE.

Definition calculateTiltAngle (s : State) : float :=
  let ms := calculateMoments s in
  let netMoment := moment2 ms - moment1 ms in
  let momentMagnitude := abs netMoment in
  let maxMoment := 0.5 in
  let angle := (netMoment / maxMoment) * MAX_TILT_ANGLE in
  Math_max (- MAX_TILT_ANGLE) (Math_min MAX_TILT_ANGLE angle).

(** The status line of [updateUI]; [moment1 > moment2] is
    [moment2 < moment1]. *)
Inductive Status := Balanced | TiltingLeft | TiltingRight.

Definition balanceStatus (s : State) : Status :=
  let ms := calculateMoments s in
  let diff := abs (moment1 ms - moment2 ms) in
  let tolerance := 0.001 in
  if diff <? tolerance then Balanced
  else if moment2 ms <? moment1 ms then TiltingLeft
  else TiltingRight.

(** A double in its specification form is a zero or a finite number. *)
Definition SFfinite (x : spec_float) : Prop :=
  match x with S754_zero _ | S754_finite _ _ _ => True | _ => False end.

(** The state with the four sliders at the given values and the beam
    level. *)
Definition sliders (m1 d1 m2 d2 : float) : State :=
  {| mass1 := m1; dist1 := d1; mass2 := m2; dist2 := d2;
     currentAngle := 0; targetAngle := 0 |}.

(** The state the page starts in. *)
Definition initial_state : State := sliders 200 30 300 20.

(** 50 g at 18 cm against 150 g at 6 cm: [50 * 18 = 150 * 6]. *)
Definition balanced_products : State := sliders 50 18 150 6.

(** Masses and distances of [1e300] on both sides. *)
Definition huge : State := sliders 1e300 1e300 1e300 1e300.

End BeamDouble.

(** ** Simple pendulum: the page around the physics *)

Module PendulumPage.
Import Pendulum.

(** [init]: the bob is drawn at the angle of the slider. *)
Definition init (s : State) : State :=
  let a := to_radians (initialAngle s) in
  {| length_cm := length_cm s; initialAngle := initialAngle s;
     angle := a; angularVelocity := angularVelocity s;
     angularAcceleration := angularAcceleration s;
     isRunning := isRunning s; startTime := startTime s;
     lastCrossTime := lastCrossTime s; oscillations := oscillations s;
     elapsedTime := elapsedTime s; lastAngle := a;
     dataPoints := dataPoints s |}.

(** The tail of both slider handlers: a pendulum that is not running
    is put back at the initial angle. *)
Definition rest_unless_running (s : State) : State :=
  if negb (isRunning s) then
    {| length_cm := length_cm s; initialAngle := initialAngle s;
       angle := to_radians (initialAngle s); angularVelocity := 0;
       angularAcceleration := angularAcceleration s;
       isRunning := isRunning s; startTime := startTime s;
       lastCrossTime := lastCrossTime s; oscillations := oscillations s;
       elapsedTime := elapsedTime s; lastAngle := lastAngle s;
       dataPoints := dataPoints s |}
  else s.

(** The sliders give whole numbers ([parseInt]). *)
Definition length_input (v : Z) (s : State) : State :=
  rest_unless_running
    {| length_cm := IZR v; initialAngle := initialAngle s;
       angle := angle s; angularVelocity := angularVelocity s;
       angularAcceleration := angularAcceleration s;
       isRunning := isRunning s; startTime := startTime s;
       lastCrossTime := lastCrossTime s; oscillations := oscillations s;
       elapsedTime := elapsedTime s; lastAngle := lastAngle s;
       dataPoints := dataPoints s |}.

Definition angle_input (v : Z) (s : State) : State :=
  rest_unless_running
    {| length_cm := length_cm s; initialAngle := IZR v;
       angle := angle s; angularVelocity := angularVelocity s;
       angularAcceleration := angularAcceleration s;
       isRunning := isRunning s; startTime := startTime s;
       lastCrossTime := lastCrossTime s; oscillations := oscillations s;
       elapsedTime := elapsedTime s; lastAngle := lastAngle s;
       dataPoints := dataPoints s |}.

Definition reset_click (s : State) : State :=
  let a := to_radians (initialAngle s) in
  {| length_cm := length_cm s; initialAngle := initialAngle s;
     angle := a; angularVelocity := 0;
     angularAcceleration := angularAcceleration s;
     isRunning := false; startTime := startTime s;
     lastCrossTime := 0; oscillations := 0;
     elapsedTime := 0; lastAngle := a;
     dataPoints := dataPoints s |}.

Definition with_dataPoints (pts : list DataPoint) (s : State) : State :=
  {| length_cm := length_cm s; initialAngle := initialAngle s;
     angle := angle s; angularVelocity := angularVelocity s;
     angularAcceleration := angularAcceleration s;
     isRunning := isRunning s; startTime := startTime s;
     lastCrossTime := lastCrossTime s; oscillations := oscillations s;
     elapsedTime := elapsedTime s; lastAngle := lastAngle s;
     dataPoints := pts |}.

Definition record_click (s : State) : State :=
  if decide ((1 <= oscillations s)%nat /\ elapsedTime s > 0) then
    let period := elapsedTime s / INR (oscillations s) in
    let periodSquared := period * period in
    with_dataPoints
      (dataPoints s ++ [ {| dp_length := length_cm s; dp_period := period;
                            dp_periodSquared := periodSquared |} ]) s
  else s.

(** The delete button of row [index]: [dataPoints.splice(index, 1)]. *)
Definition delete_click (index : nat) (s : State) : State :=
  with_dataPoints (delete index (dataPoints s)) s.

Definition clear_click (s : State) : State := with_dataPoints [] s.

Inductive Event :=
| LengthInput (v : Z)
| AngleInput (v : Z)
| StartClick (now : R)
| StopClick
| ResetClick
| RecordClick
| DeleteClick (index : nat)
| ClearDataClick
| Frame (currentTime : R).

Definition on_state (f : State -> State) (l : Loop) : Loop :=
  {| st := f (st l); lastTime := lastTime l |}.

Definition step (l : Loop) (e : Event) : Loop :=
  match e with
  | LengthInput v => on_state (length_input v) l
  | AngleInput v => on_state (angle_input v) l
  | StartClick now => on_state (start_click now) l
  | StopClick => on_state stop_click l
  | ResetClick => on_state reset_click l
  | RecordClick => on_state record_click l
  | DeleteClick index => on_state (delete_click index) l
  | ClearDataClick => on_state clear_click l
  | Frame currentTime => animate currentTime l
  end.

Definition run (es : list Event) (l : Loop) : Loop := foldl step l es.

(** A running state with one oscillation counted: the first upward
    crossing stored at 1.06 s and the count made at 2.48 s, the times
    of the run from the default sliders; angle and velocity are sample
    values just after a crossing. *)
Definition after_one_oscillation : Loop :=
  {| st :=
       {| length_cm := 50; initialAngle := 5; angle := 1 / 1000;
          angularVelocity := 3 / 10; angularAcceleration := 0;
          isRunning := true; startTime := 0;
          lastCrossTime := 106 / 100; oscillations := 1;
          elapsedTime := 248 / 100; lastAngle := 1 / 1000;
          dataPoints := [] |};
     lastTime := 248 / 100 |}.

(** A row of the table is a measurement: a positive period next to its
    square. *)
Definition measured (p : DataPoint) : Prop :=
  0 < dp_period p /\ dp_periodSquared p = dp_period p * dp_period p.

(** What the page keeps true of its state. *)
Definition consistent (s : State) : Prop :=
  (isRunning s = true -> lastAngle s = angle s) /\
  ((1 <= oscillations s)%nat -> lastCrossTime s <> 0) /\
  Forall measured (dataPoints s).

(** *** The plot of the recorded points *)

(** The sum of the squared vertical distances of the points
    [(x_i, y_i)] from the line [y = m x + c]. *)
Fixpoint squared_error (m c : R) (x y : list R) : R :=
  match x, y with
  | xi :: x', yi :: y' =>
      (yi - (m * xi + c)) * (yi - (m * xi + c)) + squared_error m c x' y'
  | _, _ => 0
  end.

(** The sum of the products [x_i * y_i]. *)
Fixpoint sum_products (x y : list R) : R :=
  match x, y with
  | xi :: x', yi :: y' => xi * yi + sum_products x' y'
  | _, _ => 0
  end.

(** [v || 1] on a number: 0 is the falsy one. *)
Definition or_one (v : R) : R := if decide (v = 0) then 1 else v.

Definition padding : R := 40.

(** [Math.min(...l)] and [Math.max(...l)] of a list that starts with
    [v]. *)
Definition min_from (v : R) (l : list R) : R := foldl Rmin v l.
Definition max_from (v : R) (l : list R) : R := foldl Rmax v l.

(** Where [updateGraph] puts the dot of [point] on a canvas whose
    element is [offsetWidth] by [offsetHeight]; nothing is plotted with
    fewer than two points. *)
Definition plot_point (offsetWidth offsetHeight : R)
    (pts : list DataPoint) (point : DataPoint) : option (R * R) :=
  let width := offsetWidth * 2 in
  let height := offsetHeight * 2 in
  match pts with
  | p0 :: (_ :: _) as rest =>
      let lengths := map dp_length rest in
      let tSquared := map dp_periodSquared rest in
      let minL := min_from (dp_length p0) lengths in
      let maxL := max_from (dp_length p0) lengths in
      let minT2 := min_from (dp_periodSquared p0) tSquared in
      let maxT2 := max_from (dp_periodSquared p0) tSquared in
      let graphWidth := width / 2 - 2 * padding in
      let graphHeight := height / 2 - 2 * padding in
      let x := padding
               + ((dp_length point - minL) / or_one (maxL - minL))
                 * graphWidth in
      let y := height / 2 - padding
               - ((dp_periodSquared point - minT2) / or_one (maxT2 - minT2))
                 * graphHeight in
      Some (x, y)
  | _ => None
  end.

End PendulumPage.

(** ** Bar magnets: the field lines *)



(** What [createFieldLine] returns: [null] or the tube through the
    points (their constant height left out). *)
Inductive FieldLine := null | Tube (points : list (R * R)).

Module SliderFieldLines.

Definition stepSize : R := 5 / 100.

(** The [for] loop of [createFieldLine] with [remaining] rounds to go:
    the points it pushes. *)
Fixpoint line_points (magnetPos : Position) (sliderStrength : R)
    (remaining : nat) (x z : R) : option (list (R * R)) :=
  match remaining with
  | O => Some []
  | S remaining' =>
      field ← MagnetSlider.calculateFieldAt magnetPos sliderStrength x z;
      if decide (strength field < 1 / 100) then Some [(x, z)] else
      dirX ← bx field /? strength field;
      dirZ ← bz field /? strength field;
      let x' := x + dirX * stepSize in
      let z' := z + dirZ * stepSize in
      if decide (Rabs x' > 3 \/ Rabs z' > 3) then Some [(x, z)] else
      rest ← line_points magnetPos sliderStrength remaining' x' z';
      Some ((x, z) :: rest)
  end.

Definition createFieldLine (magnetPos : Position) (sliderStrength : R)
    (startX startZ : R) (steps : nat) : option FieldLine :=
  points ← line_points magnetPos sliderStrength steps startX startZ;
  Some (if decide (length points < 2)%nat then null else Tube points).

End SliderFieldLines.

Module RotatingFieldLines.

Definition stepSize : R := 2 / 100.

(** The [for] loop of [createFieldLine], in round [i] with [remaining]
    rounds to go. *)
Fixpoint line_points (magnetPos : Position) (magnetRot : R)
    (remaining i : nat) (x z : R) : option (list (R * R)) :=
  match remaining with
  | O => Some []
  | S remaining' =>
      field ← MagnetRotating.calculateFieldAt magnetPos magnetRot x z;
      if decide (strength field < 3 / 1000) then Some [(x, z)] else
      dirX ← bx field /? strength field;
      dirZ ← bz field /? strength field;
      let x' := x + dirX * stepSize in
      let z' := z + dirZ * stepSize in
      if decide (Rabs x' > 5 \/ Rabs z' > 5) then Some [(x, z)] else
      let distToMagnet := distance_from magnetPos x' z' in
      if decide (distToMagnet < 2 / 10 /\ (20 < i)%nat) then Some [(x, z)]
      else
      rest ← line_points magnetPos magnetRot remaining' (S i) x' z';
      Some ((x, z) :: rest)
  end.

Definition createFieldLine (magnetPos : Position) (magnetRot : R)
    (startX startZ : R) (steps : nat) : option FieldLine :=
  points ← line_points magnetPos magnetRot steps 0 startX startZ;
  Some (if decide (length points < 3)%nat then null else Tube points).

End RotatingFieldLines.

(** The sample point turned by [t] about the magnet. *)
Definition turn_about (magnetPos : Position) (t x z : R) : R * R :=
  let dx := x - pos_x magnetPos in
  let dz := z - pos_z magnetPos in
  (pos_x magnetPos + (dx * cos t - dz * sin t),
   pos_z magnetPos + (dx * sin t + dz * cos t)).

(** ** Chemistry lab: what the buttons guard *)

Module ChemGuards.
Import Chem.

Definition enabled (b : Button) (p : Page) : bool :=
  negb (is_disabled b (disabled p)).

(** An enabled button has the step before it done, and copper oxide is
    in only after the pop test. *)
Definition guarded (p : Page) : Prop :=
  let s := state p in
  (enabled AddHCl p = true -> zincAdded s = true) /\
  (enabled CollectGas p = true -> hclAdded s = true) /\
  (enabled PopTest p = true -> gasCollected s = true) /\
  (enabled AddCuO p = true -> popTested s = true) /\
  (enabled Heat p = true -> cuoAdded s = true) /\
  (enabled WaterTest p = true -> hydrogenPassed s = true) /\
  (cuoAdded s = true -> popTested s = true).

(** The same as a test. *)
Definition guardedb (p : Page) : bool :=
  let s := state p in
  implb (enabled AddHCl p) (zincAdded s)
  && implb (enabled CollectGas p) (hclAdded s)
  && implb (enabled PopTest p) (gasCollected s)
  && implb (enabled AddCuO p) (popTested s)
  && implb (enabled Heat p) (cuoAdded s)
  && implb (enabled WaterTest p) (hydrogenPassed s)
  && implb (cuoAdded s) (popTested s).

(** All eight steps of the experiment are done. *)
Definition complete (s : State) : Prop :=
  s = mkState true true true true true true true true.

End ChemGuards.

(** * Properties *)

(** ** Checked division *)

Lemma checked_div_defined (a b : R) : b <> 0 -> a /? b = Some (a / b).
Proof.
  intros Hb. unfold checked_div. destruct (decide (b = 0)); [contradiction|].
  reflexivity.
Qed.

Lemma checked_div_zero (a : R) : a /? 0 = None.
Proof.
  unfold checked_div. destruct (decide (0 = 0)); [reflexivity|]. contradiction.
Qed.

(** ** Pendulum: the per-frame update *)

Section PendulumFrame.
Import Pendulum.

(** C7: with [isRunning] false, [updatePendulumPhysics] returns the state
    record as it was, whatever the frame delta: no field changes. *)
Theorem updatePendulumPhysics_not_running (deltaTime : R) (s : State) :
  isRunning s = false -> updatePendulumPhysics deltaTime s = s.
Proof.
  intros Hstop. unfold updatePendulumPhysics. now rewrite Hstop.
Qed.

Lemma updatePendulumPhysics_not_running_witness :
  updatePendulumPhysics (2 / 100) initial_state = initial_state.
Proof.
  apply (updatePendulumPhysics_not_running (2 / 100) initial_state).
  reflexivity.
Defined.

Lemma frame_delta_capped (currentTime last : R) :
  frame_delta currentTime last <= 2 / 100.
Proof. unfold frame_delta. apply Rmin_r. Qed.

(** C5: in a frame with [isRunning] true the update is one Euler step
    with linear damping, velocity first and the angle from the new
    velocity, over a frame delta that [animate] caps at 0.02 s. *)
Theorem animate_euler_step (currentTime : R) (l : Loop) :
  isRunning (st l) = true ->
  let s := st l in
  let dt := Rmin (currentTime - lastTime l) (2 / 100) in
  let s' := st (animate currentTime l) in
  dt <= 2 / 100 /\
  angularVelocity s' =
    angularVelocity s
    + (- (G / (length_cm s / 100)) * sin (angle s)
       - damping * angularVelocity s) * dt /\
  angle s' = angle s + angularVelocity s' * dt /\
  elapsedTime s' = elapsedTime s + dt /\
  lastTime (animate currentTime l) = currentTime.
Proof.
  intros Hrun. cbv zeta.
  split; [apply frame_delta_capped|].
  unfold animate, updatePendulumPhysics, frame_delta. cbn [st lastTime].
  rewrite Hrun. cbn [negb].
  destruct (count_crossing _ _ (st l)) as [cross osc].
  cbn [angularVelocity angle elapsedTime]. auto.
Qed.

Lemma animate_euler_step_witness :
  let s := st running_loop in
  let dt := Rmin (1 - lastTime running_loop) (2 / 100) in
  let s' := st (animate 1 running_loop) in
  dt <= 2 / 100 /\
  angularVelocity s' =
    angularVelocity s
    + (- (G / (length_cm s / 100)) * sin (angle s)
       - damping * angularVelocity s) * dt /\
  angle s' = angle s + angularVelocity s' * dt /\
  elapsedTime s' = elapsedTime s + dt /\
  lastTime (animate 1 running_loop) = 1.
Proof.
  apply (animate_euler_step 1 running_loop). reflexivity.
Defined.

End PendulumFrame.

(** ** Beam balance *)

Section BeamFacts.
Import Beam.

Lemma MAX_TILT_ANGLE_pos : 0 < MAX_TILT_ANGLE.
Proof. unfold MAX_TILT_ANGLE. pose proof PI_RGT_0. lra. Qed.

Lemma moments_equal_iff (s : State) :
  moment1 (calculateMoments s) = moment2 (calculateMoments s) <->
  mass1 s * dist1 s = mass2 s * dist2 s.
Proof.
  unfold calculateMoments, GRAVITY. cbn [moment1 moment2]. split; lra.
Qed.

(** In exact arithmetic equal moments (equivalently
    [mass1 * dist1 = mass2 * dist2]) give a tilt angle of exactly 0.
    What the doubles of the code give is in [BeamDouble], below. *)
Lemma balanced_tilt_zero (s : State) :
  moment1 (calculateMoments s) = moment2 (calculateMoments s) ->
  calculateTiltAngle s = 0.
Proof.
  intros Heq. unfold calculateTiltAngle. cbv zeta. rewrite Heq.
  pose proof MAX_TILT_ANGLE_pos as Hpos.
  replace ((moment2 (calculateMoments s) - moment2 (calculateMoments s))
           / (5 / 10) * MAX_TILT_ANGLE) with 0 by lra.
  rewrite Rmin_right by lra. rewrite Rmax_right by lra. reflexivity.
Qed.

(** In exact arithmetic the tilt angle lies in
    [[-MAX_TILT_ANGLE, MAX_TILT_ANGLE]], that is between -30 and +30
    degrees, for all masses and distances.  What the doubles of the
    code give is in [BeamDouble], below. *)
Lemma tilt_angle_clamped (s : State) :
  - MAX_TILT_ANGLE <= calculateTiltAngle s <= MAX_TILT_ANGLE /\
  - 30 <= to_degrees (calculateTiltAngle s) <= 30.
Proof.
  pose proof MAX_TILT_ANGLE_pos as Hpos.
  assert (Hclamp : - MAX_TILT_ANGLE <= calculateTiltAngle s <= MAX_TILT_ANGLE).
  { unfold calculateTiltAngle. cbv zeta. split.
    - apply Rmax_l.
    - apply Rmax_lub; [lra | apply Rmin_l]. }
  split; [exact Hclamp|].
  unfold to_degrees. unfold MAX_TILT_ANGLE in Hclamp.
  pose proof PI_RGT_0 as Hpi.
  destruct Hclamp as [Hlo Hhi]. split.
  - apply Rmult_le_reg_r with PI; [exact Hpi|].
    replace (calculateTiltAngle s * 180 / PI * PI)
      with (calculateTiltAngle s * 180) by (field; lra).
    lra.
  - apply Rmult_le_reg_r with PI; [exact Hpi|].
    replace (calculateTiltAngle s * 180 / PI * PI)
      with (calculateTiltAngle s * 180) by (field; lra).
    lra.
Qed.

End BeamFacts.

(** ** Magnets *)

Section MagnetFacts.

Lemma sqrt_scaled_sum (lam a b : R) :
  0 < lam ->
  sqrt (lam * a * (lam * a) + lam * b * (lam * b))
  = lam * sqrt (a * a + b * b).
Proof.
  intros Hlam.
  replace (lam * a * (lam * a) + lam * b * (lam * b))
    with (lam * lam * (a * a + b * b)) by ring.
  rewrite sqrt_mult_alt by nra.
  rewrite sqrt_square by lra. reflexivity.
Qed.

Lemma sqrt_divided_sum (lam a b : R) :
  0 < lam ->
  sqrt (a / lam * (a / lam) + b / lam * (b / lam))
  = sqrt (a * a + b * b) / lam.
Proof.
  intros Hlam.
  replace (a / lam) with (/ lam * a) by (field; lra).
  replace (b / lam) with (/ lam * b) by (field; lra).
  rewrite sqrt_scaled_sum by (apply Rinv_0_lt_compat; lra).
  field; lra.
Qed.

(** Past the guard both demos evaluate their formula, and every
    quotient in it is a number. *)
Lemma slider_field_far (magnetPos : Position) (k x z : R) :
  distance_from magnetPos x z >= 1 / 10 ->
  let dx := x - pos_x magnetPos in
  let dz := z - pos_z magnetPos in
  let r3 := distance_from magnetPos x z ^ 3 in
  let fx := 3 * dx * dz / r3 * (k * (5 / 10)) in
  let fz := (2 * dz * dz - dx * dx) / r3 * (k * (5 / 10)) in
  MagnetSlider.calculateFieldAt magnetPos k x z
  = Some {| bx := fx; bz := fz; strength := sqrt (fx * fx + fz * fz) |}.
Proof.
  intros Hfar. cbv zeta. unfold MagnetSlider.calculateFieldAt.
  unfold distance_from in *. cbv zeta in *.
  set (d := sqrt _) in *.
  destruct (decide (d < 1 / 10)) as [Hnear|_]; [lra|].
  assert (Hr3 : d * d * d <> 0) by nra.
  replace (d ^ 3) with (d * d * d) by ring.
  rewrite !checked_div_defined by exact Hr3. reflexivity.
Qed.

Lemma rotating_field_far (magnetPos : Position) (rot x z : R) :
  distance_from magnetPos x z >= 1 / 10 ->
  let dx := x - pos_x magnetPos in
  let dz := z - pos_z magnetPos in
  let dxRot := dx * cos (- rot) - dz * sin (- rot) in
  let dzRot := dx * sin (- rot) + dz * cos (- rot) in
  let r3 := distance_from magnetPos x z ^ 3 in
  let fxRot := 3 * dxRot * dzRot / r3 * (5 / 10) in
  let fzRot := (2 * dzRot * dzRot - dxRot * dxRot) / r3 * (5 / 10) in
  let fx := fxRot * cos (- rot) - fzRot * sin (- rot) in
  let fz := fxRot * sin (- rot) + fzRot * cos (- rot) in
  MagnetRotating.calculateFieldAt magnetPos rot x z
  = Some {| bx := fx; bz := fz; strength := sqrt (fx * fx + fz * fz) |}.
Proof.
  intros Hfar. cbv zeta. unfold MagnetRotating.calculateFieldAt.
  unfold distance_from in *. cbv zeta in *.
  set (d := sqrt _) in *.
  destruct (decide (d < 1 / 10)) as [Hnear|_]; [lra|].
  assert (Hr3 : d * d * d <> 0) by nra.
  replace (d ^ 3) with (d * d * d) by ring.
  rewrite !checked_div_defined by exact Hr3. reflexivity.
Qed.


(** C3: at zero distance from the magnet both demos take the guarded
    branch and return [bx = 0], [bz = 0], [strength = 0]: a field of
    numbers ([Some]), not [NaN]. *)
Theorem field_at_zero_distance (magnetPos : Position) (x z : R) :
  distance_from magnetPos x z = 0 ->
  (forall k, MagnetSlider.calculateFieldAt magnetPos k x z
             = Some {| bx := 0; bz := 0; strength := 0 |}) /\
  (forall rot, MagnetRotating.calculateFieldAt magnetPos rot x z
               = Some {| bx := 0; bz := 0; strength := 0 |}).
Proof.
  intros Hzero.
  unfold MagnetSlider.calculateFieldAt, MagnetRotating.calculateFieldAt.
  unfold distance_from in Hzero. cbv zeta in *. rewrite Hzero.
  destruct (decide (0 < 1 / 10)) as [_|Hno]; [|lra].
  split; reflexivity.
Qed.

Lemma distance_from_self (magnetPos : Position) :
  distance_from magnetPos (pos_x magnetPos) (pos_z magnetPos) = 0.
Proof.
  unfold distance_from. cbv zeta.
  replace (_ + _) with 0 by ring. apply sqrt_0.
Qed.

Lemma field_at_zero_distance_witness :
  (forall k, MagnetSlider.calculateFieldAt origin k 0 0
             = Some {| bx := 0; bz := 0; strength := 0 |}) /\
  (forall rot, MagnetRotating.calculateFieldAt origin rot 0 0
               = Some {| bx := 0; bz := 0; strength := 0 |}).
Proof.
  apply (field_at_zero_distance origin 0 0).
  exact (distance_from_self origin).
Defined.

(** *** How the strength falls off with distance *)

Lemma distance_from_nonneg (magnetPos : Position) (x z : R) :
  0 <= distance_from magnetPos x z.
Proof. unfold distance_from. apply sqrt_pos. Qed.

Lemma distance_scaled (magnetPos : Position) (lam x z : R) :
  0 < lam ->
  distance_from magnetPos
    (pos_x magnetPos + lam * (x - pos_x magnetPos))
    (pos_z magnetPos + lam * (z - pos_z magnetPos))
  = lam * distance_from magnetPos x z.
Proof.
  intros Hlam. unfold distance_from. cbv zeta.
  rewrite <- sqrt_scaled_sum by exact Hlam. f_equal. ring.
Qed.

Lemma slider_strength_scaled (magnetPos : Position) (k lam x z : R) :
  distance_from magnetPos x z >= 1 / 10 -> lam >= 1 ->
  strength_divided_by (MagnetSlider.calculateFieldAt magnetPos k)
    magnetPos lam x z lam.
Proof.
  intros Hfar Hlam. unfold strength_divided_by, scale_from.
  assert (Hd' := distance_scaled magnetPos lam x z ltac:(lra)).
  rewrite (slider_field_far magnetPos k x z Hfar).
  rewrite slider_field_far by (rewrite Hd'; nra).
  cbv zeta. cbn [fmap option_fmap option_map strength]. f_equal.
  rewrite Hd'. set (d := distance_from magnetPos x z) in *.
  rewrite <- sqrt_divided_sum by lra.
  assert (Hd : d <> 0) by lra.
  f_equal. f_equal; f_equal; field; lra.
Qed.

Lemma rotating_strength_scaled (magnetPos : Position) (rot lam x z : R) :
  distance_from magnetPos x z >= 1 / 10 -> lam >= 1 ->
  strength_divided_by (MagnetRotating.calculateFieldAt magnetPos rot)
    magnetPos lam x z lam.
Proof.
  intros Hfar Hlam. unfold strength_divided_by, scale_from.
  assert (Hd' := distance_scaled magnetPos lam x z ltac:(lra)).
  rewrite (rotating_field_far magnetPos rot x z Hfar).
  rewrite rotating_field_far by (rewrite Hd'; nra).
  cbv zeta. cbn [fmap option_fmap option_map strength]. f_equal.
  rewrite Hd'. set (d := distance_from magnetPos x z) in *.
  rewrite <- sqrt_divided_sum by lra.
  assert (Hd : d <> 0) by lra.
  f_equal. f_equal; f_equal; field; lra.
Qed.

Lemma distance_origin_0_1 : distance_from origin 0 1 = 1.
Proof.
  unfold distance_from, origin. cbn [pos_x pos_z].
  replace (_ + _) with 1 by ring. apply sqrt_1.
Qed.

Lemma slider_strength_at_0_1 :
  strength <$> MagnetSlider.calculateFieldAt origin 1 0 1 = Some 1.
Proof.
  rewrite slider_field_far by (rewrite distance_origin_0_1; lra).
  cbv zeta. cbn [fmap option_fmap option_map strength]. f_equal.
  rewrite distance_origin_0_1. cbn [origin pos_x pos_z].
  replace (_ + _) with 1 by field. apply sqrt_1.
Qed.

Lemma rotating_strength_at_0_1 :
  strength <$> MagnetRotating.calculateFieldAt origin 0 0 1 = Some 1.
Proof.
  rewrite rotating_field_far by (rewrite distance_origin_0_1; lra).
  cbv zeta. cbn [fmap option_fmap option_map strength]. f_equal.
  rewrite distance_origin_0_1. cbn [origin pos_x pos_z].
  rewrite Ropp_0, cos_0, sin_0.
  replace (_ + _) with 1 by field. apply sqrt_1.
Qed.

Lemma scale_origin_0_1 : scale_from origin 2 0 1 = (0, 2).
Proof. unfold scale_from, origin. cbn [pos_x pos_z]. f_equal; ring. Qed.

(** The law the code does follow: for a sample point at distance at
    least 0.1 from the magnet and a factor [lam > 1], scaling the
    displacement from the magnet by [lam] divides the strength returned
    by [calculateFieldAt] by [lam], in both demos. *)
Lemma field_strength_inverse_distance
    (magnetPos : Position) (lam x z : R) :
  distance_from magnetPos x z >= 1 / 10 -> lam > 1 ->
  (forall k,
     strength_divided_by (MagnetSlider.calculateFieldAt magnetPos k)
       magnetPos lam x z lam) /\
  (forall rot,
     strength_divided_by (MagnetRotating.calculateFieldAt magnetPos rot)
       magnetPos lam x z lam).
Proof.
  intros Hfar Hlam. split; intros.
  - apply slider_strength_scaled; [exact Hfar | lra].
  - apply rotating_strength_scaled; [exact Hfar | lra].
Qed.

(** C6: the code misses the inverse-cube law by the exponent.  With the
    magnet at the origin (slider strength 1 in the first demo, no
    rotation in the second), doubling the distance of the sample point
    (0, 1) takes the strength from 1 to 1/2 in both demos: it is
    divided by 2, not by [2 ^ 3]. *)
Theorem field_strength_misses_inverse_cube :
  distance_from origin 0 1 >= 1 / 10 /\ 2 > 1 /\
  scale_from origin 2 0 1 = (0, 2) /\
  (strength <$> MagnetSlider.calculateFieldAt origin 1 0 1 = Some 1 /\
   strength <$> MagnetSlider.calculateFieldAt origin 1 0 2 = Some (1 / 2) /\
   (strength_divided_by (MagnetSlider.calculateFieldAt origin 1)
      origin 2 0 1 (2 ^ 3) -> False)) /\
  (strength <$> MagnetRotating.calculateFieldAt origin 0 0 1 = Some 1 /\
   strength <$> MagnetRotating.calculateFieldAt origin 0 0 2 = Some (1 / 2) /\
   (strength_divided_by (MagnetRotating.calculateFieldAt origin 0)
      origin 2 0 1 (2 ^ 3) -> False)).
Proof.
  assert (Hfar : distance_from origin 0 1 >= 1 / 10)
    by (rewrite distance_origin_0_1; lra).
  pose proof (slider_strength_scaled origin 1 2 0 1 Hfar ltac:(lra))
    as Hslider.
  pose proof (rotating_strength_scaled origin 0 2 0 1 Hfar ltac:(lra))
    as Hrotating.
  unfold strength_divided_by in *. rewrite scale_origin_0_1 in *.
  rewrite slider_strength_at_0_1 in *.
  rewrite rotating_strength_at_0_1 in *.
  cbn [fmap option_fmap option_map] in *.
  split; [exact Hfar|]. split; [lra|]. split; [reflexivity|].
  split; (split; [reflexivity|]); split; try assumption.
  - intros Hcube. rewrite Hcube in Hslider.
    injection Hslider as Hslider. lra.
  - intros Hcube. rewrite Hcube in Hrotating.
    injection Hrotating as Hrotating. lra.
Qed.

End MagnetFacts.

(** ** Ripple tank *)

Section WaveFacts.
Import Wave.

Lemma off_grid_iff (wf : WaveField) (x y : R) :
  off_grid wf x y <-> ~ on_grid wf x y.
Proof. unfold off_grid, on_grid. split; [lra|]. intros Hno. lra. Qed.

(** C10: outside [[0, width) x [0, height)] [getValue] returns 0, and
    [setValue] and [addWave] leave the field (the whole object, its array
    included) as it was. *)
Theorem accessors_off_grid (wf : WaveField) (x y : R) :
  ~ on_grid wf x y ->
  getValue wf x y = Some 0 /\
  (forall value, setValue wf x y value = wf) /\
  (forall amplitude phase, addWave wf x y amplitude phase = wf).
Proof.
  intros Hoff. apply off_grid_iff in Hoff.
  unfold getValue, setValue, addWave.
  destruct (decide (off_grid wf x y)) as [_|Hno]; [|contradiction].
  repeat split.
Qed.

Lemma accessors_off_grid_witness :
  getValue (new 2 2) 2 0 = Some 0 /\
  (forall value, setValue (new 2 2) 2 0 value = new 2 2) /\
  (forall amplitude phase, addWave (new 2 2) 2 0 amplitude phase = new 2 2).
Proof.
  apply (accessors_off_grid (new 2 2) 2 0).
  unfold on_grid. simpl. lra.
Defined.

Lemma new_well_formed (w h : Z) :
  (0 <= w)%Z -> (0 <= h)%Z -> well_formed (new w h).
Proof.
  intros Hw Hh. unfold well_formed, new. cbn [width height field].
  rewrite length_replicate. auto.
Qed.

(** On the grid of a well-formed field the computed index is a cell of
    the array: a read is never [undefined] for lack of a cell and a
    write never grows the array. *)
Lemma index_in_range (wf : WaveField) (x y : R) :
  well_formed wf -> on_grid wf x y ->
  (0 <= index wf x y < Z.of_nat (length (field wf)))%Z.
Proof.
  intros (Hw & Hh & Hlen) [[Hx0 Hx1] [Hy0 Hy1]]. unfold index.
  destruct (base_Int_part x) as [Hfx Hgx], (base_Int_part y) as [Hfy Hgy].
  assert (Hix0 : (-1 < Int_part x)%Z) by (apply lt_IZR; lra).
  assert (Hiy0 : (-1 < Int_part y)%Z) by (apply lt_IZR; lra).
  assert (Hix1 : (Int_part x < width wf)%Z) by (apply lt_IZR; lra).
  assert (Hiy1 : (Int_part y < height wf)%Z) by (apply lt_IZR; lra).
  rewrite Hlen, Z2Nat.id by nia. nia.
Qed.

End WaveFacts.

(** ** Chemistry lab *)

Section ChemFacts.
Import Chem.

Lemma ordered_initial : ordered initial_state.
Proof. unfold ordered, initial_state. cbn. intuition discriminate. Qed.

Lemma ordered_iff (s : State) : ordered s <-> orderedb s = true.
Proof.
  unfold ordered, orderedb.
  rewrite !andb_true_iff, !Bool.implb_true_iff, andb_true_iff. tauto.
Qed.

Lemma handler_orderedb (b : Button) (p : Page) :
  orderedb (state p) = true -> orderedb (state (handler b p)) = true.
Proof.
  destruct p as [[zn hc gs pp cu ht hp wt] d n].
  destruct b, zn, hc, gs, pp, cu, ht, hp, wt; cbn; auto.
Qed.

Lemma handler_ordered (b : Button) (p : Page) :
  ordered (state p) -> ordered (state (handler b p)).
Proof. rewrite !ordered_iff. apply handler_orderedb. Qed.

Lemma step_ordered (p : Page) (e : Event) :
  ordered (state p) -> ordered (state (step p e)).
Proof.
  intros Hord. destruct e as [b|]; cbn [step].
  - destruct (is_disabled b (disabled p)); [exact Hord|].
    now apply handler_ordered.
  - destruct (heatTimers p); exact Hord.
Qed.

Lemma run_ordered (events : list Event) (p : Page) :
  ordered (state p) -> ordered (state (run p events)).
Proof.
  revert p. induction events as [|e events IH]; intros p Hord.
  - exact Hord.
  - cbn [run foldl]. apply IH. now apply step_ordered.
Qed.

(** C9: every page reachable from the loaded one by clicks (and by the
    heat timer firing) keeps the order of the steps: each flag implies
    the flags of the steps it depends on. *)
Theorem reachable_ordered (p : Page) :
  reachable p -> ordered (state p).
Proof.
  intros (d & events & ->). apply run_ordered. exact ordered_initial.
Qed.

Lemma reachable_ordered_witness :
  ordered (state (run (loaded all_disabled)
                    [Click AddZinc; Click AddHCl; Click Reset;
                     Click AddZinc])).
Proof.
  apply (reachable_ordered
           (run (loaded all_disabled)
              [Click AddZinc; Click AddHCl; Click Reset; Click AddZinc])).
  exists all_disabled,
    [Click AddZinc; Click AddHCl; Click Reset; Click AddZinc].
  reflexivity.
Defined.

End ChemFacts.

(** ** Pendulum: the least-squares fit *)

Section RegressionFacts.
Import Pendulum.

#[local] Abbreviation total l := (foldl (fun a b => a + b) 0 l).
#[local] Abbreviation total_sq l := (foldl (fun sum xi => sum + xi * xi) 0 l).

Lemma foldl_plus_shift (l : list R) (a : R) :
  foldl (fun a b => a + b) a l = a + total l.
Proof.
  revert a. induction l as [|v l IH]; intros a; cbn [foldl].
  - ring.
  - rewrite (IH (a + v)), (IH (0 + v)). ring.
Qed.

Lemma foldl_sq_shift (l : list R) (a : R) :
  foldl (fun sum xi => sum + xi * xi) a l = a + total_sq l.
Proof.
  revert a. induction l as [|v l IH]; intros a; cbn [foldl].
  - ring.
  - rewrite (IH (a + v * v)), (IH (0 + v * v)). ring.
Qed.

Lemma total_cons (v : R) (l : list R) : total (v :: l) = v + total l.
Proof. cbn [foldl]. rewrite foldl_plus_shift. ring. Qed.

Lemma total_sq_cons (v : R) (l : list R) :
  total_sq (v :: l) = v * v + total_sq l.
Proof. cbn [foldl]. rewrite foldl_sq_shift. ring. Qed.

Lemma total_line (m c : R) (l : list R) :
  total (map (fun xi => m * xi + c) l)
  = m * total l + INR (length l) * c.
Proof.
  induction l as [|v l IH].
  - cbn. ring.
  - cbn [map]. rewrite !total_cons, IH. cbn [length]. rewrite S_INR. ring.
Qed.

Lemma reduce_i_line (y : list R) (m c : R) (l : list R) :
  forall (i : nat) (a : R),
  (forall k xk, l !! k = Some xk -> y !! (i + k)%nat = Some (m * xk + c)) ->
  reduce_i (add_product y) (Some a) i l
  = Some (a + (m * total_sq l + c * total l)).
Proof.
  induction l as [|v l IH]; intros i a Hy.
  - cbn. f_equal. ring.
  - cbn [reduce_i]. unfold add_product at 2.
    pose proof (Hy 0%nat v eq_refl) as Hv. rewrite Nat.add_0_r in Hv.
    cbn [mbind option_bind]. rewrite Hv. cbn [mbind option_bind].
    rewrite IH.
    + f_equal. rewrite total_cons, total_sq_cons. ring.
    + intros k xk Hk. replace (S i + k)%nat with (i + S k)%nat by lia.
      apply Hy. exact Hk.
Qed.

(** Sum of the squared distances of the elements from [a], written with
    the three sums the fit computes. *)
Lemma spread_about_nonneg (a : R) (l : list R) :
  0 <= INR (length l) * (a * a) - 2 * a * total l + total_sq l /\
  (INR (length l) * (a * a) - 2 * a * total l + total_sq l = 0 ->
   Forall (fun v => v = a) l).
Proof.
  induction l as [|v l [IHpos IHzero]].
  - cbn. split; [lra | constructor].
  - rewrite total_cons, total_sq_cons. cbn [length]. rewrite S_INR.
    assert (Hsq : 0 <= (a - v) * (a - v)) by apply Rle_0_sqr.
    split; [lra|]. intros Hzero.
    assert (Hv : (a - v) * (a - v) = 0) by lra.
    constructor; [|apply IHzero; lra].
    apply Rmult_integral in Hv. lra.
Qed.

(** The denominator of the slope is non-negative, and zero only when
    all abscissas are equal. *)
Lemma denominator_nonneg (l : list R) :
  0 <= INR (length l) * total_sq l - total l * total l /\
  (INR (length l) * total_sq l - total l * total l = 0 ->
   forall u v, u ∈ l -> v ∈ l -> u = v).
Proof.
  induction l as [|a l [IHpos IHzero]].
  - cbn. split; [lra|]. intros _ u v Hu. inversion Hu.
  - rewrite total_cons, total_sq_cons. cbn [length]. rewrite S_INR.
    destruct (spread_about_nonneg a l) as [Hpos Hzero].
    split; [nra|]. intros Hden.
    assert (Hall : Forall (fun v => v = a) l) by (apply Hzero; nra).
    rewrite Forall_forall in Hall.
    intros u v Hu Hv.
    apply elem_of_cons in Hu. apply elem_of_cons in Hv.
    destruct Hu as [->|Hu], Hv as [->|Hv]; auto.
    + symmetry. auto.
    + rewrite (Hall u Hu), (Hall v Hv). reflexivity.
Qed.

Lemma denominator_pos (l : list R) (i j : nat) (xi xj : R) :
  l !! i = Some xi -> l !! j = Some xj -> xi <> xj ->
  0 < INR (length l) * total_sq l - total l * total l.
Proof.
  intros Hi Hj Hne.
  destruct (denominator_nonneg l) as [Hpos Hzero].
  destruct (Req_dec (INR (length l) * total_sq l - total l * total l) 0)
    as [Heq|Hneq]; [|lra].
  exfalso. apply Hne. apply (Hzero Heq).
  - eapply list_elem_of_lookup_2. exact Hi.
  - eapply list_elem_of_lookup_2. exact Hj.
Qed.

(** C1: for [n >= 2] points lying exactly on the line [y = m x + c],
    with abscissas that are not all equal, the fit is defined and
    returns the slope [m] and the intercept [c]. *)
Theorem regression_recovers_line (x y : list R) (m c : R) :
  length x = length y ->
  (2 <= length x)%nat ->
  (exists i j xi xj, x !! i = Some xi /\ x !! j = Some xj /\ xi <> xj) ->
  (forall i xi yi, x !! i = Some xi -> y !! i = Some yi ->
                   yi = m * xi + c) ->
  calculateLinearRegression x y = Some {| slope := m; intercept := c |}.
Proof.
  intros Hlen Hn (i & j & xi & xj & Hi & Hj & Hne) Hline.
  assert (Hy : y = map (fun xi => m * xi + c) x).
  { apply list_eq_same_length with (length x).
    - now rewrite length_map.
    - now symmetry.
    - intros k yk v Hk Hyk Hv.
      rewrite list_lookup_fmap in Hv.
      destruct (x !! k) as [xk|] eqn:Hxk; [|discriminate].
      cbn in Hv. injection Hv as <-. eapply Hline; eauto. }
  pose proof (denominator_pos x i j xi xj Hi Hj Hne) as Hden.
  assert (Hn0 : 0 < INR (length x)) by (apply lt_0_INR; lia).
  unfold calculateLinearRegression. cbv zeta.
  rewrite (reduce_i_line y m c x 0 0).
  2:{ intros k xk Hk. cbn [Nat.add]. rewrite Hy, list_lookup_fmap, Hk.
      reflexivity. }
  cbn [mbind option_bind].
  rewrite Hy, total_line.
  set (n := INR (length x)) in *.
  set (sx := total x) in *. set (sxx := total_sq x) in *.
  rewrite checked_div_defined by lra. cbn [mbind option_bind].
  rewrite checked_div_defined by lra. cbn [mbind option_bind].
  f_equal. f_equal; field; lra.
Qed.

Lemma regression_recovers_line_witness :
  calculateLinearRegression [1; 2; 4] [5; 8; 14]
  = Some {| slope := 3; intercept := 2 |}.
Proof.
  apply (regression_recovers_line [1; 2; 4] [5; 8; 14] 3 2).
  - reflexivity.
  - simpl. lia.
  - exists 0%nat, 1%nat, 1, 2. simpl. repeat split; try reflexivity. lra.
  - intros [|[|[|k]]] xi yi Hx Hy; simpl in Hx, Hy;
      try discriminate; injection Hx as <-; injection Hy as <-; lra.
Defined.

(** Without the spread in the abscissas the slope is not a number. *)
Lemma regression_vertical_undefined (a : R) (y : list R) :
  calculateLinearRegression [a; a] y = None.
Proof.
  unfold calculateLinearRegression. cbv zeta.
  destruct (reduce_i _ _ _ _) as [sxy|]; [|reflexivity].
  cbn [mbind option_bind].
  replace (INR (length [a; a]) * total_sq [a; a]
           - total [a; a] * total [a; a]) with 0 by (cbn; ring).
  rewrite checked_div_zero. reflexivity.
Qed.

End RegressionFacts.

(** ** Pendulum: the period the page displays *)

Section EnclosureFacts.
Import Pendulum Enclosure.

Lemma PI_bounds : 31415926 / 10000000 < PI < 31415927 / 10000000.
Proof.
  destruct (PI_2_3_7_ineq 3) as [Hlo Hhi].
  unfold sum_f_R0, tg_alt, PI_2_3_7_tg, Ratan_seq in Hlo, Hhi.
  simpl in Hlo, Hhi. split; lra.
Qed.

Lemma sin_series_bounds (x : R) :
  0 <= x <= 1 ->
  x - x ^ 3 / 6 + x ^ 5 / 120 - x ^ 7 / 5040 <= sin x
  <= x - x ^ 3 / 6 + x ^ 5 / 120.
Proof.
  intros [H0 H1].
  assert (Hpi : x <= PI) by (pose proof PI2_1; lra).
  destruct (sin_bound x 1 H0 Hpi) as [Hlo _].
  destruct (sin_bound x 0 H0 Hpi) as [_ Hhi].
  unfold sin_approx in Hlo, Hhi.
  cbn [Nat.mul Nat.add sum_f_R0] in Hlo, Hhi.
  unfold sin_term in Hlo, Hhi.
  cbn [Nat.mul Nat.add] in Hlo, Hhi.
  assert (F1 : INR (fact 1) = 1) by (cbn; lra).
  assert (F3 : INR (fact 3) = 6) by (cbn; lra).
  assert (F5 : INR (fact 5) = 120)
    by (rewrite INR_IZR_INZ; apply f_equal; vm_compute; reflexivity).
  assert (F7 : INR (fact 7) = 5040)
    by (rewrite INR_IZR_INZ; apply f_equal; vm_compute; reflexivity).
  rewrite F1, F3, F5, F7 in Hlo. rewrite F1, F3, F5 in Hhi.
  simpl pow in *. split; lra.
Qed.

Lemma Q2R_inject_Z (z : Z) : Q2R (inject_Z z) = IZR z.
Proof. unfold Q2R, inject_Z. cbn. field. Qed.

Lemma Q2R_frac (z : Z) (p : positive) : Q2R (z # p) = IZR z / IZR (Zpos p).
Proof. reflexivity. Qed.

Lemma round_down_le (q : Q) : Q2R (round_down q) <= Q2R q.
Proof.
  unfold round_down. rewrite Q2R_frac.
  pose proof (Qfloor_le (q * (Zpos grain # 1))) as Hfl.
  apply Qle_Rle in Hfl. rewrite Q2R_inject_Z, Q2R_mult, Q2R_frac in Hfl.
  assert (Hg : 0 < IZR (Zpos grain)) by (apply IZR_lt; lia).
  apply Rmult_le_reg_r with (IZR (Zpos grain)); [exact Hg|].
  replace (IZR (Qfloor (q * (Z.pos grain # 1))) / IZR (Z.pos grain)
           * IZR (Z.pos grain))
    with (IZR (Qfloor (q * (Z.pos grain # 1)))) by (field; lra).
  lra.
Qed.

Lemma round_up_ge (q : Q) : Q2R q <= Q2R (round_up q).
Proof.
  unfold round_up. rewrite Q2R_frac.
  pose proof (Qle_ceiling (q * (Zpos grain # 1))) as Hfl.
  apply Qle_Rle in Hfl. rewrite Q2R_inject_Z, Q2R_mult, Q2R_frac in Hfl.
  assert (Hg : 0 < IZR (Zpos grain)) by (apply IZR_lt; lia).
  apply Rmult_le_reg_r with (IZR (Zpos grain)); [exact Hg|].
  replace (IZR (Qceiling (q * (Z.pos grain # 1))) / IZR (Z.pos grain)
           * IZR (Z.pos grain))
    with (IZR (Qceiling (q * (Z.pos grain # 1)))) by (field; lra).
  lra.
Qed.

Lemma Q2R_minus_one : Q2R (-1) = -1.
Proof. unfold Q2R. cbn. lra. Qed.

Lemma Q2R_one : Q2R 1 = 1.
Proof. unfold Q2R. cbn. lra. Qed.

Ltac push_Q2R :=
  repeat first
    [ rewrite Q2R_minus | rewrite Q2R_plus | rewrite Q2R_mult
    | rewrite Q2R_opp ].

Lemma Q2R_sin_poly5 (x : Q) :
  Q2R (sin_poly5 x) = Q2R x - Q2R x ^ 3 / 6 + Q2R x ^ 5 / 120.
Proof.
  unfold sin_poly5. cbv zeta. push_Q2R. rewrite !Q2R_frac. field.
Qed.

Lemma Q2R_sin_poly7 (x : Q) :
  Q2R (sin_poly7 x)
  = Q2R x - Q2R x ^ 3 / 6 + Q2R x ^ 5 / 120 - Q2R x ^ 7 / 5040.
Proof.
  unfold sin_poly7. cbv zeta. push_Q2R. rewrite !Q2R_frac. field.
Qed.

Lemma Qle_bool_0_Q2R (x : Q) :
  if Qle_bool 0 x then 0 <= Q2R x else Q2R x < 0.
Proof.
  destruct (Qle_bool 0 x) eqn:Hx.
  - apply Qle_bool_iff in Hx. apply Qle_Rle in Hx.
    now rewrite RMicromega.Q2R_0 in Hx.
  - destruct (Qlt_le_dec x 0) as [Hlt|Hle].
    + apply Qlt_Rlt in Hlt. now rewrite RMicromega.Q2R_0 in Hlt.
    + apply Qle_bool_iff in Hle. congruence.
Qed.

Lemma sin_poly_below (r : R) :
  -1 <= r <= 1 ->
  (if decide (0 <= r)
   then r - r ^ 3 / 6 + r ^ 5 / 120 - r ^ 7 / 5040
   else r - r ^ 3 / 6 + r ^ 5 / 120)
  <= sin r.
Proof.
  intros [Hlo Hhi]. destruct (decide (0 <= r)) as [Hpos|Hneg].
  - apply sin_series_bounds. lra.
  - destruct (sin_series_bounds (- r)) as [_ Hup]; [lra|].
    rewrite sin_neg in Hup.
    replace ((- r) ^ 3) with (- r ^ 3) in Hup by ring.
    replace ((- r) ^ 5) with (- r ^ 5) in Hup by ring.
    lra.
Qed.

Lemma sin_poly_above (r : R) :
  -1 <= r <= 1 ->
  sin r <=
  (if decide (0 <= r)
   then r - r ^ 3 / 6 + r ^ 5 / 120
   else r - r ^ 3 / 6 + r ^ 5 / 120 - r ^ 7 / 5040).
Proof.
  intros [Hlo Hhi]. destruct (decide (0 <= r)) as [Hpos|Hneg].
  - apply sin_series_bounds. lra.
  - destruct (sin_series_bounds (- r)) as [Hdown _]; [lra|].
    rewrite sin_neg in Hdown.
    replace ((- r) ^ 3) with (- r ^ 3) in Hdown by ring.
    replace ((- r) ^ 5) with (- r ^ 5) in Hdown by ring.
    replace ((- r) ^ 7) with (- r ^ 7) in Hdown by ring.
    lra.
Qed.

Lemma sin_monotone (a b : R) :
  -1 <= a -> a <= b -> b <= 1 -> sin a <= sin b.
Proof.
  intros Ha Hab Hb. pose proof PI2_1.
  apply sin_incr_1; lra.
Qed.

Lemma sin_below_sound (x : Q) (theta : R) :
  -1 <= Q2R x -> Q2R x <= theta -> theta <= 1 ->
  Q2R (sin_below x) <= sin theta.
Proof.
  intros Hlo Hx Hhi.
  apply Rle_trans with (sin (Q2R x)); [|now apply sin_monotone].
  pose proof (sin_poly_below (Q2R x) ltac:(lra)) as Hp.
  unfold sin_below. pose proof (Qle_bool_0_Q2R x) as Hs.
  destruct (Qle_bool 0 x), (decide (0 <= Q2R x)); try lra.
  - now rewrite Q2R_sin_poly7.
  - now rewrite Q2R_sin_poly5.
Qed.

Lemma sin_above_sound (x : Q) (theta : R) :
  -1 <= theta -> theta <= Q2R x -> Q2R x <= 1 ->
  sin theta <= Q2R (sin_above x).
Proof.
  intros Hlo Hx Hhi.
  apply Rle_trans with (sin (Q2R x)); [now apply sin_monotone|].
  pose proof (sin_poly_above (Q2R x) ltac:(lra)) as Hp.
  unfold sin_above. pose proof (Qle_bool_0_Q2R x) as Hs.
  destruct (Qle_bool 0 x), (decide (0 <= Q2R x)); try lra.
  - now rewrite Q2R_sin_poly5.
  - now rewrite Q2R_sin_poly7.
Qed.

Lemma sign_sound (lo hi : Q) (r : R) (b : bool) :
  Q2R lo <= r <= Q2R hi -> sign lo hi = Some b ->
  if b then r >= 0 else r < 0.
Proof.
  intros [Hlo Hhi]. unfold sign.
  pose proof (Qle_bool_0_Q2R lo) as Hl. pose proof (Qle_bool_0_Q2R hi) as Hh.
  destruct (Qle_bool 0 lo); [intros [= <-]; lra|].
  destruct (Qle_bool 0 hi); [discriminate|]. intros [= <-]. lra.
Qed.

Lemma Q2R_keep : Q2R keep = 1 - 1 / 1000 * (2 / 100).
Proof. unfold keep, dt. push_Q2R. rewrite !Q2R_frac. lra. Qed.

Lemma Q2R_dt : Q2R dt = 2 / 100.
Proof. reflexivity. Qed.

Lemma Q2R_pull : Q2R pull = 981 / 100 / (50 / 100) * (2 / 100).
Proof.
  unfold pull, dt. rewrite Q2R_mult, Q2R_div by discriminate.
  rewrite !Q2R_frac. reflexivity.
Qed.

Lemma Q2R_eq_0 (q : Q) : Qeq_bool q 0 = true <-> Q2R q = 0.
Proof.
  rewrite Qeq_bool_iff. split.
  - intros H. apply Qeq_eqR in H. now rewrite RMicromega.Q2R_0 in H.
  - intros H. apply eqR_Qeq. now rewrite RMicromega.Q2R_0.
Qed.

Lemma Q2R_Qred (q : Q) : Q2R (Qred q) = Q2R q.
Proof. apply Qeq_eqR, Qred_correct. Qed.

(** The velocity and the angle after one frame stay inside the stepped
    bounds. *)
Lemma step_bounds (e : Enclosure.t) (theta omega : R) :
  -1 <= Q2R (a_lo e) -> Q2R (a_hi e) <= 1 ->
  Q2R (a_lo e) <= theta <= Q2R (a_hi e) ->
  Q2R (w_lo e) <= omega <= Q2R (w_hi e) ->
  let omega' :=
    omega + (- (G / (50 / 100)) * sin theta - damping * omega) * (2 / 100) in
  let theta' := theta + omega' * (2 / 100) in
  let w_lo' := round_down (keep * w_lo e - pull * sin_above (a_hi e))%Q in
  let w_hi' := round_up (keep * w_hi e - pull * sin_below (a_lo e))%Q in
  (Q2R w_lo' <= omega' <= Q2R w_hi') /\
  (Q2R (round_down (a_lo e + dt * w_lo')%Q) <= theta'
   <= Q2R (round_up (a_hi e + dt * w_hi')%Q)).
Proof.
  intros Hr1 Hr2 [Ha1 Ha2] [Hw1 Hw2] omega' theta' w_lo' w_hi'.
  pose proof (sin_below_sound (a_lo e) theta Hr1 Ha1 ltac:(lra)) as Hs1.
  pose proof (sin_above_sound (a_hi e) theta ltac:(lra) Ha2 Hr2) as Hs2.
  assert (Hw' : Q2R w_lo' <= omega' <= Q2R w_hi').
  { subst w_lo' w_hi' omega'. unfold G, damping. split.
    - eapply Rle_trans; [apply round_down_le|].
      push_Q2R. rewrite Q2R_keep, Q2R_pull. lra.
    - eapply Rle_trans; [|apply round_up_ge].
      push_Q2R. rewrite Q2R_keep, Q2R_pull. lra. }
  split; [exact Hw'|]. destruct Hw' as [Hw1' Hw2']. subst theta'. split.
  - eapply Rle_trans; [apply round_down_le|].
    push_Q2R. rewrite Q2R_dt. lra.
  - eapply Rle_trans; [|apply round_up_ge].
    push_Q2R. rewrite Q2R_dt. lra.
Qed.

Lemma step_sound (e e' : Enclosure.t) (s : State) :
  encloses e s -> step e = Some e' ->
  encloses e' (updatePendulumPhysics (2 / 100) s).
Proof.
  intros (Ha & Hw & Hlast & Hcross & Hcount & Hel & Hrun & Hlen) Hstep.
  unfold step in Hstep.
  destruct (Qle_bool (-1) (a_lo e) && Qle_bool (a_hi e) 1) eqn:Hrange;
    cbn [negb] in Hstep; [|discriminate].
  apply andb_true_iff in Hrange as [Hr1 Hr2].
  apply Qle_bool_iff, Qle_Rle in Hr1. apply Qle_bool_iff, Qle_Rle in Hr2.
  rewrite Q2R_minus_one in Hr1. rewrite Q2R_one in Hr2.
  destruct (step_bounds e (angle s) (angularVelocity s) Hr1 Hr2 Ha Hw)
    as [Hw' Ha'].
  cbv zeta in Hstep.
  set (w_lo' := round_down (keep * w_lo e - pull * sin_above (a_hi e))%Q)
    in *.
  set (w_hi' := round_up (keep * w_hi e - pull * sin_below (a_lo e))%Q) in *.
  set (a_lo' := round_down (a_lo e + dt * w_lo')%Q) in *.
  set (a_hi' := round_up (a_hi e + dt * w_hi')%Q) in *.
  destruct (sign a_lo' a_hi') as [now_nonneg|] eqn:Hnow; [|discriminate].
  destruct (sign (a_lo e) (a_hi e)) as [last_nonneg|] eqn:Hthen;
    [|discriminate].
  injection Hstep as <-.
  pose proof (sign_sound _ _ _ _ Ha' Hnow) as Hsn.
  pose proof (sign_sound _ _ _ _ Ha Hthen) as Hsl.
  pose proof (Q2R_eq_0 (cross e)) as Hfirst.
  unfold updatePendulumPhysics. rewrite Hrun. cbn [negb]. rewrite Hlen.
  unfold count_crossing. rewrite Hlast, Hcross.
  set (omega' := angularVelocity s + _) in *.
  set (theta' := angle s + _) in *.
  unfold encloses.
  cbn [a_lo a_hi w_lo w_hi cross count elapsed].
  assert (Hel' : elapsedTime s + 2 / 100 = Q2R (Qred (elapsed e + dt))).
  { rewrite Q2R_Qred, Q2R_plus, Q2R_dt, Hel. reflexivity. }
  destruct (decide (theta' >= 0 /\ angle s < 0)) as [[Hc1 Hc2]|Hnc].
  - destruct now_nonneg; [|lra]. destruct last_nonneg; [lra|].
    cbn [andb negb].
    destruct (decide (Q2R (cross e) = 0)) as [Hz|Hnz].
    + apply Hfirst in Hz. rewrite Hz. cbn [andb negb].
      cbn [angle angularVelocity lastAngle lastCrossTime oscillations
           elapsedTime isRunning length_cm].
      repeat split; try tauto; try lra; auto.
    + destruct (Qeq_bool (cross e) 0) eqn:Hq;
        [exfalso; apply Hnz, Hfirst; reflexivity|].
      cbn [andb negb].
      cbn [angle angularVelocity lastAngle lastCrossTime oscillations
           elapsedTime isRunning length_cm].
      repeat split; try tauto; try lra; auto.
  - assert (Hno : now_nonneg && negb last_nonneg = false).
    { destruct now_nonneg, last_nonneg; try reflexivity.
      exfalso. apply Hnc. split; lra. }
    rewrite Hno. cbn [andb].
    cbn [angle angularVelocity lastAngle lastCrossTime oscillations
         elapsedTime isRunning length_cm].
    repeat split; try tauto; try lra; auto.
Qed.

Lemma steps_sound (times : list R) :
  forall (n : nat) (l : Loop) (e e' : Enclosure.t),
  length times = n ->
  steady (lastTime l) times ->
  encloses e (st l) ->
  steps n e = Some e' ->
  encloses e' (st (run_frames times l)).
Proof.
  induction times as [|t times IH]; intros n l e e' <- Hsteady Henc Hsteps.
  - cbn in Hsteps. injection Hsteps as <-. exact Henc.
  - destruct Hsteady as [Hdelta Hsteady].
    cbn [length steps] in Hsteps.
    destruct (step e) as [e1|] eqn:Hstep; [|discriminate].
    change (run_frames (t :: times) l)
      with (run_frames times (animate t l)).
    apply (IH (length times) (animate t l) e1 e');
      [reflexivity|exact Hsteady| |exact Hsteps].
    unfold animate. cbn [st]. rewrite Hdelta.
    now apply (step_sound e e1).
Qed.

(** What a successful [reaches] says about the run of the page. *)
Lemma reaches_sound (n osc : nat) (lastCross elapsedTime' : Q) :
  reaches n osc lastCross elapsedTime' = true ->
  forall (times : list R) (l : Loop),
  length times = n ->
  steady (lastTime l) times ->
  encloses start (st l) ->
  let s := st (run_frames times l) in
  oscillations s = osc /\
  lastCrossTime s = Q2R lastCross /\
  elapsedTime s = Q2R elapsedTime' /\
  length_cm s = 50.
Proof.
  unfold reaches. intros Hreach times l Hlen Hsteady Hstart.
  destruct (steps n start) as [e|] eqn:Hsteps; [|discriminate].
  apply andb_true_iff in Hreach as [Hreach Hel].
  apply andb_true_iff in Hreach as [Hcount Hcross].
  apply Nat.eqb_eq in Hcount.
  apply Qeq_bool_iff, Qeq_eqR in Hcross. apply Qeq_bool_iff, Qeq_eqR in Hel.
  destruct (steps_sound times n l start e Hlen Hsteady Hstart Hsteps)
    as (_ & _ & _ & Hc & Ho & He & _ & Hlength).
  cbv zeta. rewrite Ho, Hc, He, Hcross, Hel. auto.
Qed.

Lemma ticks_steady (n : nat) :
  forall k, steady (INR k / 50) (ticks_50Hz (S k) n).
Proof.
  induction n as [|n IH]; intros k; [exact I|].
  unfold ticks_50Hz. cbn [seq map steady]. split; [|apply IH].
  unfold frame_delta. rewrite S_INR.
  replace ((INR k + 1) / 50 - INR k / 50) with (2 / 100) by field.
  apply Rmin_left. lra.
Qed.

Lemma start_encloses : encloses start (st running_loop).
Proof.
  pose proof PI_bounds as [Hpi1 Hpi2].
  unfold encloses, start, running_loop, start_click, initial_state.
  cbn [st isRunning negb initialAngle angle angularVelocity lastAngle
       lastCrossTime oscillations elapsedTime length_cm
       a_lo a_hi w_lo w_hi cross count elapsed].
  unfold to_radians. rewrite RMicromega.Q2R_0.
  repeat split; try lra; try reflexivity.
  - eapply Rle_trans; [apply round_down_le|].
    rewrite Q2R_div, Q2R_mult, !Q2R_frac by discriminate.
    change (Q2R 5) with (5 / 1). change (Q2R 180) with (180 / 1). lra.
  - eapply Rle_trans; [|apply round_up_ge].
    rewrite Q2R_div, Q2R_mult, !Q2R_frac by discriminate.
    change (Q2R 5) with (5 / 1). change (Q2R 180) with (180 / 1). lra.
Qed.

Lemma default_period_bounds :
  141849 / 100000 < 2 * PI * sqrt (50 / 100 / G) < 141856 / 100000.
Proof.
  pose proof PI_bounds as [Hpi1 Hpi2].
  assert (Hlo : 22576 / 100000 < sqrt (50 / 100 / G)).
  { rewrite <- (sqrt_square (22576 / 100000)) by lra.
    apply sqrt_lt_1; unfold G; lra. }
  assert (Hhi : sqrt (50 / 100 / G) < 22577 / 100000).
  { rewrite <- (sqrt_square (22577 / 100000)) by lra.
    apply sqrt_lt_1; unfold G; lra. }
  split; nra.
Qed.

Lemma default_run_reaches :
  reaches 124 1 (106 # 100) (248 # 100) = true.
Proof. vm_compute. reflexivity. Qed.

(** C4, at the page's default settings: 124 frames of 20 ms after the
    click on start the counter is at one oscillation and the page shows
    the period 2.48 s.  That is more than 1.74 times
    [2 pi sqrt (L / g)]: the time up to the first upward crossing
    (1.06 s, kept in [lastCrossTime] and never read) is part of
    [elapsedTime], but no oscillation was counted for it.  From that
    crossing on the period is 1.42 s, within 0.002 s of the formula. *)
Theorem first_displayed_period_overshoots :
  let s := st (run_frames (ticks_50Hz 1 124) running_loop) in
  oscillations s = 1%nat /\
  elapsedTime s = 248 / 100 /\
  lastCrossTime s = 106 / 100 /\
  displayed_period s = Some (248 / 100) /\
  248 / 100 > 174 / 100 * small_angle_period s /\
  Rabs ((elapsedTime s - lastCrossTime s) / INR (oscillations s)
        - small_angle_period s) < 2 / 1000.
Proof.
  pose proof (ticks_steady 124 0) as Hsteady. cbn [INR] in Hsteady.
  replace (0 / 50) with 0 in Hsteady by lra.
  destruct (reaches_sound 124 1 (106 # 100) (248 # 100) default_run_reaches
              (ticks_50Hz 1 124) running_loop eq_refl Hsteady
              start_encloses) as (Ho & Hc & He & Hlen).
  rewrite Q2R_frac in Hc, He.
  pose proof default_period_bounds as [Hp1 Hp2].
  cbv zeta. unfold small_angle_period, displayed_period.
  rewrite Ho, Hc, He, Hlen. cbn [INR].
  destruct (decide (1 <= 1)%nat) as [_|Hno]; [|lia].
  repeat split; try lra.
  - f_equal. lra.
  - apply Rabs_def1; lra.
Qed.

End EnclosureFacts.


(** ** Ripple tank: reading and writing cells *)

Section WaveCells.
Import Wave.

Lemma array_get_in_range (a : list cell) (k : Z) :
  (0 <= k)%Z -> array_get a k = mjoin (a !! Z.to_nat k).
Proof.
  intros Hk. unfold array_get. destruct (decide (k < 0)%Z); [lia|reflexivity].
Qed.

Lemma array_set_in_range (a : list cell) (k : Z) (v : cell) :
  (0 <= k < Z.of_nat (length a))%Z ->
  array_set a k v = <[Z.to_nat k := v]> a.
Proof.
  intros Hk. unfold array_set. destruct (decide (k < 0)%Z); [lia|].
  destruct (decide (Z.to_nat k < length a)%nat); [reflexivity|lia].
Qed.

Lemma on_grid_not_off (wf : WaveField) (x y : R) :
  on_grid wf x y -> ~ off_grid wf x y.
Proof. unfold on_grid, off_grid. lra. Qed.

Lemma getValue_on_grid (wf : WaveField) (x y : R) :
  well_formed wf -> on_grid wf x y ->
  getValue wf x y = mjoin (field wf !! Z.to_nat (index wf x y)).
Proof.
  intros Hwf Hon. unfold getValue.
  destruct (decide (off_grid wf x y)) as [Hoff|_];
    [now apply on_grid_not_off in Hon|].
  apply array_get_in_range. now apply index_in_range.
Qed.

Lemma setValue_on_grid (wf : WaveField) (x y value : R) :
  well_formed wf -> on_grid wf x y ->
  setValue wf x y value
  = {| width := width wf; height := height wf;
       field := <[Z.to_nat (index wf x y) := Some value]> (field wf) |}.
Proof.
  intros Hwf Hon. unfold setValue.
  destruct (decide (off_grid wf x y)) as [Hoff|_];
    [now apply on_grid_not_off in Hon|].
  rewrite array_set_in_range by now apply index_in_range. reflexivity.
Qed.

Lemma addWave_on_grid (wf : WaveField) (x y amplitude phase : R) :
  well_formed wf -> on_grid wf x y ->
  addWave wf x y amplitude phase
  = {| width := width wf; height := height wf;
       field :=
         <[Z.to_nat (index wf x y) :=
             (fun v => v + amplitude * sin phase)
               <$> mjoin (field wf !! Z.to_nat (index wf x y))]> (field wf) |}.
Proof.
  intros Hwf Hon. unfold addWave.
  destruct (decide (off_grid wf x y)) as [Hoff|_];
    [now apply on_grid_not_off in Hon|].
  cbv zeta.
  rewrite array_set_in_range by now apply index_in_range.
  rewrite array_get_in_range by now apply index_in_range. reflexivity.
Qed.

Lemma index_nat_in_range (wf : WaveField) (x y : R) :
  well_formed wf -> on_grid wf x y ->
  (Z.to_nat (index wf x y) < length (field wf))%nat.
Proof.
  intros Hwf Hon. destruct (index_in_range wf x y Hwf Hon) as [H0 H1].
  apply Nat2Z.inj_lt. rewrite Z2Nat.id by exact H0. exact H1.
Qed.

(** The grid cell of a point decides its index, and the other way
    round. *)
Lemma index_same_cell (wf : WaveField) (x y x' y' : R) :
  on_grid wf x y -> on_grid wf x' y' ->
  index wf x y = index wf x' y' <->
  Int_part x = Int_part x' /\ Int_part y = Int_part y'.
Proof.
  intros [[Hx0 Hx1] [Hy0 Hy1]] [[Hx0' Hx1'] [Hy0' Hy1']]. unfold index.
  destruct (base_Int_part x) as [Hfx Hgx], (base_Int_part y) as [Hfy Hgy].
  destruct (base_Int_part x') as [Hfx' Hgx'], (base_Int_part y') as [Hfy' Hgy'].
  assert (-1 < Int_part x)%Z by (apply lt_IZR; lra).
  assert (-1 < Int_part x')%Z by (apply lt_IZR; lra).
  assert (Int_part x < width wf)%Z by (apply lt_IZR; lra).
  assert (Int_part x' < width wf)%Z by (apply lt_IZR; lra).
  split; [|intros [-> ->]; reflexivity].
  intros Heq.
  assert (Int_part y = Int_part y')%Z by nia.
  split; [nia|assumption].
Qed.

(** X1: on the grid of a well-formed field a written value is read
    back, from any point of the same cell, and every other cell reads
    as before. *)
Theorem setValue_then_getValue (wf : WaveField) (x y value x' y' : R) :
  well_formed wf -> on_grid wf x y -> on_grid wf x' y' ->
  getValue (setValue wf x y value) x' y'
  = if decide (Int_part x' = Int_part x /\ Int_part y' = Int_part y)
    then Some value
    else getValue wf x' y'.
Proof.
  intros Hwf Hon Hon'.
  pose proof (index_in_range wf x y Hwf Hon) as Hk.
  rewrite (setValue_on_grid wf x y value Hwf Hon).
  assert (Hwf' : well_formed
            {| width := width wf; height := height wf;
               field := <[Z.to_nat (index wf x y) := Some value]> (field wf) |}).
  { destruct Hwf as (Hw & Hh & Hlen). unfold well_formed.
    cbn [width height field]. rewrite length_insert. auto. }
  rewrite getValue_on_grid by assumption.
  rewrite (getValue_on_grid wf x' y') by assumption.
  cbn [field].
  change (index _ x' y') with (index wf x' y').
  pose proof (index_in_range wf x' y' Hwf Hon') as Hk'.
  destruct (decide (Int_part x' = Int_part x /\ Int_part y' = Int_part y))
    as [Hsame|Hother].
  - apply (index_same_cell wf x' y' x y Hon' Hon) in Hsame. rewrite Hsame.
    rewrite list_lookup_insert_eq by now apply index_nat_in_range.
    reflexivity.
  - rewrite list_lookup_insert_ne; [reflexivity|].
    intros Heq. apply Hother.
    apply (index_same_cell wf x' y' x y Hon' Hon).
    apply Z2Nat.inj in Heq; [now symmetry|apply Hk|apply Hk'].
Qed.

Lemma setValue_then_getValue_witness :
  getValue (setValue (new 2 2) 1 0 7) (3 / 2) (1 / 2)
  = if decide (Int_part (3 / 2) = Int_part 1 /\ Int_part (1 / 2) = Int_part 0)
    then Some 7
    else getValue (new 2 2) (3 / 2) (1 / 2).
Proof.
  apply (setValue_then_getValue (new 2 2) 1 0 7 (3 / 2) (1 / 2)).
  - apply new_well_formed; lia.
  - unfold on_grid. simpl. lra.
  - unfold on_grid. simpl. lra.
Defined.

Lemma setValue_well_formed (wf : WaveField) (x y value : R) :
  well_formed wf -> well_formed (setValue wf x y value).
Proof.
  intros Hwf. pose proof Hwf as (Hw & Hh & Hlen).
  destruct (decide (on_grid wf x y)) as [Hon|Hoff].
  - rewrite setValue_on_grid by assumption. unfold well_formed.
    cbn [width height field]. rewrite length_insert. auto.
  - unfold setValue. apply off_grid_iff in Hoff.
    destruct (decide (off_grid wf x y)); [exact Hwf|contradiction].
Qed.

Lemma addWave_well_formed (wf : WaveField) (x y amplitude phase : R) :
  well_formed wf -> well_formed (addWave wf x y amplitude phase).
Proof.
  intros Hwf. pose proof Hwf as (Hw & Hh & Hlen).
  destruct (decide (on_grid wf x y)) as [Hon|Hoff].
  - rewrite addWave_on_grid by assumption. unfold well_formed.
    cbn [width height field]. rewrite length_insert. auto.
  - unfold addWave. apply off_grid_iff in Hoff.
    destruct (decide (off_grid wf x y)); [exact Hwf|contradiction].
Qed.

Lemma clear_well_formed (wf : WaveField) :
  well_formed wf -> well_formed (clear wf).
Proof.
  intros (Hw & Hh & Hlen). unfold well_formed, clear.
  cbn [field width height]. rewrite length_replicate. auto.
Qed.

(** X2: the three writers keep a field well formed: the array keeps its
    [width * height] cells, no write grows it. *)
Theorem writers_keep_well_formed (wf : WaveField) :
  well_formed wf ->
  (forall x y value, well_formed (setValue wf x y value)) /\
  (forall x y amplitude phase, well_formed (addWave wf x y amplitude phase)) /\
  well_formed (clear wf).
Proof.
  intros Hwf. split; [|split].
  - intros. now apply setValue_well_formed.
  - intros. now apply addWave_well_formed.
  - now apply clear_well_formed.
Qed.

Lemma writers_keep_well_formed_witness :
  (forall x y value, well_formed (setValue (new 3 2) x y value)) /\
  (forall x y amplitude phase,
     well_formed (addWave (new 3 2) x y amplitude phase)) /\
  well_formed (clear (new 3 2)).
Proof.
  apply (writers_keep_well_formed (new 3 2)).
  apply new_well_formed; lia.
Defined.

(** X3: after [clear] every read gives 0, on the grid and off it. *)
Theorem clear_reads_zero (wf : WaveField) (x y : R) :
  well_formed wf -> getValue (clear wf) x y = Some 0.
Proof.
  intros Hwf.
  assert (Hwf' : well_formed (clear wf)) by now apply clear_well_formed.
  destruct (decide (on_grid (clear wf) x y)) as [Hon|Hoff].
  - rewrite getValue_on_grid by assumption.
    pose proof (index_nat_in_range (clear wf) x y Hwf' Hon) as Hk.
    change (field (clear wf)) with (replicate (length (field wf)) (Some 0))
      in Hk |- *.
    rewrite length_replicate in Hk.
    rewrite lookup_replicate_2 by exact Hk. reflexivity.
  - unfold getValue. apply off_grid_iff in Hoff.
    destruct (decide (off_grid (clear wf) x y)); [reflexivity|contradiction].
Qed.

Lemma clear_reads_zero_witness : getValue (clear (new 2 2)) 1 1 = Some 0.
Proof.
  apply (clear_reads_zero (new 2 2) 1 1). apply new_well_formed; lia.
Defined.

Lemma addWave_dims (wf : WaveField) (x y amplitude phase : R) :
  width (addWave wf x y amplitude phase) = width wf /\
  height (addWave wf x y amplitude phase) = height wf.
Proof.
  unfold addWave. destruct (decide (off_grid wf x y)); split; reflexivity.
Qed.

Lemma addWave_off_grid (wf : WaveField) (x y amplitude phase : R) :
  off_grid wf x y -> addWave wf x y amplitude phase = wf.
Proof.
  intros Hoff. unfold addWave.
  destruct (decide (off_grid wf x y)); [reflexivity|contradiction].
Qed.

Lemma on_grid_addWave (wf : WaveField) (x y amplitude phase x' y' : R) :
  on_grid (addWave wf x y amplitude phase) x' y' <-> on_grid wf x' y'.
Proof.
  unfold on_grid. destruct (addWave_dims wf x y amplitude phase) as [-> ->].
  reflexivity.
Qed.

Lemma index_addWave (wf : WaveField) (x y amplitude phase x' y' : R) :
  index (addWave wf x y amplitude phase) x' y' = index wf x' y'.
Proof.
  unfold index. destruct (addWave_dims wf x y amplitude phase) as [-> _].
  reflexivity.
Qed.

(** X4: waves superpose cell by cell: on the grid of a well-formed
    field [addWave] adds [amplitude * sin phase] to the cell of the
    point, read from any point of that cell, and every other cell reads
    as before. *)
Theorem addWave_superposes (wf : WaveField) (x y amplitude phase x' y' : R) :
  well_formed wf -> on_grid wf x y -> on_grid wf x' y' ->
  getValue (addWave wf x y amplitude phase) x' y'
  = if decide (Int_part x' = Int_part x /\ Int_part y' = Int_part y)
    then (fun v => v + amplitude * sin phase) <$> getValue wf x' y'
    else getValue wf x' y'.
Proof.
  intros Hwf Hon Hon'.
  pose proof (addWave_well_formed wf x y amplitude phase Hwf) as Hwf'.
  pose proof (index_in_range wf x y Hwf Hon) as Hk.
  pose proof (index_in_range wf x' y' Hwf Hon') as Hk'.
  rewrite getValue_on_grid by (try assumption; now apply on_grid_addWave).
  rewrite (getValue_on_grid wf x' y') by assumption.
  rewrite index_addWave, addWave_on_grid by assumption. cbn [field].
  destruct (decide (Int_part x' = Int_part x /\ Int_part y' = Int_part y))
    as [Hsame|Hother].
  - apply (index_same_cell wf x' y' x y Hon' Hon) in Hsame. rewrite Hsame.
    rewrite list_lookup_insert_eq by now apply index_nat_in_range.
    cbn. destruct (mjoin (field wf !! Z.to_nat (index wf x y)));
      reflexivity.
  - rewrite list_lookup_insert_ne; [reflexivity|].
    intros Heq. apply Hother.
    apply (index_same_cell wf x' y' x y Hon' Hon).
    apply Z2Nat.inj in Heq; [now symmetry|apply Hk|apply Hk'].
Qed.

Lemma addWave_superposes_witness :
  getValue (addWave (setValue (new 2 2) 1 0 2) 1 0 3 (PI / 2)) (3 / 2) (1 / 2)
  = if decide (Int_part (3 / 2) = Int_part 1 /\ Int_part (1 / 2) = Int_part 0)
    then (fun v => v + 3 * sin (PI / 2))
           <$> getValue (setValue (new 2 2) 1 0 2) (3 / 2) (1 / 2)
    else getValue (setValue (new 2 2) 1 0 2) (3 / 2) (1 / 2).
Proof.
  apply (addWave_superposes (setValue (new 2 2) 1 0 2) 1 0 3 (PI / 2)
           (3 / 2) (1 / 2)).
  - apply setValue_well_formed. apply new_well_formed; lia.
  - unfold on_grid. rewrite setValue_on_grid;
      [|apply new_well_formed; lia | unfold on_grid; simpl; lra].
    simpl. lra.
  - unfold on_grid. rewrite setValue_on_grid;
      [|apply new_well_formed; lia | unfold on_grid; simpl; lra].
    simpl. lra.
Defined.

End WaveCells.


(** ** Ripple tank: the geometry tests *)

Section WaveGeometryFacts.
Import WaveGeometry.


Lemma sqrt_sq_over (c l : R) : 0 < l -> sqrt (c * c / l) = Rabs c / sqrt l.
Proof.
  intros Hl. unfold Rdiv at 1.
  rewrite sqrt_mult_alt by nra.
  replace (c * c) with (Rsqr c) by reflexivity. rewrite sqrt_Rsqr_abs.
  rewrite sqrt_inv. reflexivity.
Qed.

Lemma distanceToLine_line (px py x1 y1 x2 y2 : R) :
  x2 - x1 <> 0 \/ y2 - y1 <> 0 ->
  distanceToLine px py x1 y1 x2 y2
  = Rabs ((x2 - x1) * (py - y1) - (y2 - y1) * (px - x1))
    / sqrt ((x2 - x1) * (x2 - x1) + (y2 - y1) * (y2 - y1)).
Proof.
  unfold distanceToLine. cbv zeta. intros Hne.
  set (C := x2 - x1) in *. set (D := y2 - y1) in *.
  assert (Hl : 0 < C * C + D * D).
  { destruct Hne as [H|H].
    - pose proof (Rle_0_sqr D) as HD. unfold Rsqr in HD.
      assert (0 < C * C) by (apply Rsqr_pos_lt in H; exact H). lra.
    - pose proof (Rle_0_sqr C) as HC. unfold Rsqr in HC.
      assert (0 < D * D) by (apply Rsqr_pos_lt in H; exact H). lra. }
  destruct (decide (C * C + D * D <> 0)) as [_|Hz]; [|lra].
  rewrite <- sqrt_sq_over by exact Hl. f_equal. field. lra.
Qed.

Lemma distanceToLine_point (px py x1 y1 : R) :
  distanceToLine px py x1 y1 x1 y1
  = sqrt ((px - x1) * (px - x1) + (py - y1) * (py - y1)).
Proof.
  unfold distanceToLine. cbv zeta.
  replace ((x1 - x1) * (x1 - x1) + (y1 - y1) * (y1 - y1)) with 0 by ring.
  destruct (decide (0 <> 0)) as [Hz|_]; [contradiction|].
  f_equal. ring.
Qed.

(** X6: for a barrier of non-zero length [distanceToLine] is the
    perpendicular distance to the whole line through the two end
    points (it is not cut off at the ends of the segment); for a
    barrier reduced to a point it is the distance to that point. *)
Theorem distanceToLine_spec (px py x1 y1 x2 y2 : R) :
  x2 - x1 <> 0 \/ y2 - y1 <> 0 ->
  distanceToLine px py x1 y1 x2 y2
  = Rabs ((x2 - x1) * (py - y1) - (y2 - y1) * (px - x1))
    / sqrt ((x2 - x1) * (x2 - x1) + (y2 - y1) * (y2 - y1)) /\
  distanceToLine px py x1 y1 x1 y1
  = sqrt ((px - x1) * (px - x1) + (py - y1) * (py - y1)).
Proof.
  intros Hne. split.
  - now apply distanceToLine_line.
  - apply distanceToLine_point.
Qed.

Lemma distanceToLine_spec_witness :
  distanceToLine 0 1 0 0 1 0
  = Rabs ((1 - 0) * (1 - 0) - (0 - 0) * (0 - 0))
    / sqrt ((1 - 0) * (1 - 0) + (0 - 0) * (0 - 0)) /\
  distanceToLine 0 1 0 0 0 0
  = sqrt ((0 - 0) * (0 - 0) + (1 - 0) * (1 - 0)).
Proof.
  apply (distanceToLine_spec 0 1 0 0 1 0). left. lra.
Defined.




End WaveGeometryFacts.


(** ** Ripple tank: what the listeners keep true of the state *)

Section WavePageFacts.
Import WavePage.

Lemma obstacles_match_flagged (s : State) :
  obstacles_match s -> (flagged (demonstrations s) <= 1)%nat.
Proof.
  intros [H _]. cbv zeta in H. unfold flagged.
  destruct (reflection _), (refraction _), (diffraction _), (interference _);
    try contradiction; cbn; lia.
Qed.

Lemma step_obstacles_match (p : Page) (e : Event) :
  obstacles_match (state p) -> obstacles_match (state (step p e)).
Proof.
  intros Hobs. destruct e; cbn [step];
    try exact Hobs;
    try (split; [split|]; reflexivity).
  unfold resizeCanvas. cbn [state].
  destruct (pointSources (state p)) as [|src rest]; [exact Hobs|].
  destruct (decide _); exact Hobs.
Qed.

Lemma setup_obstacles_match (p : Page) :
  obstacles_match (state (clearAll p)) /\
  obstacles_match (state (setupReflection p)) /\
  obstacles_match (state (setupRefraction p)) /\
  obstacles_match (state (setupDiffraction p)) /\
  obstacles_match (state (setupInterference p)).
Proof. repeat split. Qed.

Lemma step_sources_started (p : Page) (e : Event) :
  sources_started (state p) -> sources_started (state (step p e)).
Proof.
  intros [Hlen Hall].
  assert (Hfresh : forall w h,
            sources_started
              (with_demo no_demonstration [] []
                 [centre_source w h (time (state p))]
                 (waveMode (state p)) (state p))).
  { intros. split; [left; reflexivity|]. apply Forall_singleton. cbn. lra. }
  destruct e; cbn [step].
  - split; [left; reflexivity|]. apply Forall_singleton. cbn. lra.
  - split; [left; reflexivity|]. apply Forall_singleton. cbn. lra.
  - split; [right; reflexivity|].
    apply Forall_cons; split; [cbn; lra|]. apply Forall_singleton. cbn. lra.
  - split; [left; reflexivity|]. apply Forall_singleton. cbn. lra.
  - split; [left; reflexivity|]. apply Forall_singleton. cbn. lra.
  - split; [left; reflexivity|]. apply Forall_singleton. cbn. lra.
  - split; [right; reflexivity|].
    apply Forall_cons; split; [cbn; lra|]. apply Forall_singleton. cbn. lra.
  - apply Hfresh.
  - split; assumption.
  - split; assumption.
  - split; assumption.
  - split; assumption.
  - unfold animate. cbn [state with_controls pointSources time].
    split; [exact Hlen|].
    destruct (isPaused (state p)); cbn [negb]; [exact Hall|].
    eapply Forall_impl; [exact Hall|]. cbn. intros. lra.
  - unfold resizeCanvas. cbn [state].
    destruct (pointSources (state p)) as [|src rest] eqn:Hsrc.
    { split; rewrite Hsrc; assumption. }
    destruct (decide _).
    + cbn [pointSources time]. split; [exact Hlen|].
      apply Forall_cons in Hall as [Hsrc0 Hrest].
      apply Forall_cons. split; assumption.
    + unfold sources_started. rewrite ?Hsrc. split; assumption.
Qed.

Lemma run_invariant (P : State -> Prop) :
  (forall p e, P (state p) -> P (state (step p e))) ->
  forall events p, P (state p) -> P (state (run p events)).
Proof.
  intros Hstep events. induction events as [|e events IH]; intros p HP.
  - exact HP.
  - cbn [run foldl]. apply IH. now apply Hstep.
Qed.

(** X8: the listeners and the animation frame keep the obstacles in
    step with the demonstration flags: from a state in which at most
    one demonstration is flagged and the obstacles are its own (one
    barrier for reflection, two for diffraction, one shallow region for
    refraction, none otherwise, [gaps] empty), as the state object
    written in the script is, every sequence of their calls ends in
    such a state; [clearAll] and the four setup functions reach such a
    state from any state whatever. *)
Theorem listeners_keep_obstacles_match (p : Page) (events : list Event) :
  obstacles_match (state p) ->
  obstacles_match (state (run p events)) /\
  (flagged (demonstrations (state (run p events))) <= 1)%nat /\
  (forall q,
     obstacles_match (state (clearAll q)) /\
     obstacles_match (state (setupReflection q)) /\
     obstacles_match (state (setupRefraction q)) /\
     obstacles_match (state (setupDiffraction q)) /\
     obstacles_match (state (setupInterference q))).
Proof.
  intros Hobs.
  pose proof (run_invariant obstacles_match step_obstacles_match events p
                Hobs) as Hrun.
  split; [exact Hrun|]. split; [now apply obstacles_match_flagged|].
  apply setup_obstacles_match.
Qed.

Lemma listeners_keep_obstacles_match_witness :
  obstacles_match
    (state (run (written 800 600) [DiffractionBtn; Frame; RefractionBtn])) /\
  (flagged
     (demonstrations
        (state (run (written 800 600)
                  [DiffractionBtn; Frame; RefractionBtn]))) <= 1)%nat /\
  (forall q,
     obstacles_match (state (clearAll q)) /\
     obstacles_match (state (setupReflection q)) /\
     obstacles_match (state (setupRefraction q)) /\
     obstacles_match (state (setupDiffraction q)) /\
     obstacles_match (state (setupInterference q))).
Proof.
  apply (listeners_keep_obstacles_match (written 800 600)
           [DiffractionBtn; Frame; RefractionBtn]).
  repeat split.
Defined.

(** X9: the listeners and the animation frame keep the point sources
    started: from a state with one or two point sources, none with a
    start time after the current time (as the state object written in
    the script is), every sequence of their calls ends in such a
    state, so the elapsed time of a source is never negative. *)
Theorem listeners_keep_sources_started (p : Page) (events : list Event) :
  sources_started (state p) -> sources_started (state (run p events)).
Proof.
  apply (run_invariant sources_started step_sources_started).
Qed.

Lemma listeners_keep_sources_started_witness :
  sources_started
    (state (run (written 800 600) [Frame; TwoSourcesBtn; Frame; ClearBtn])).
Proof.
  apply (listeners_keep_sources_started (written 800 600)
           [Frame; TwoSourcesBtn; Frame; ClearBtn]).
  split; [left; reflexivity|]. apply Forall_singleton. cbn. lra.
Defined.

End WavePageFacts.


(** ** Rounding *)

Lemma js_round_near (x : R) :
  IZR (js_round x) - 1 / 2 <= x < IZR (js_round x) + 1 / 2.
Proof.
  unfold js_round. destruct (base_Int_part (x + 1 / 2)) as [H1 H2]. lra.
Qed.

Lemma js_round_IZR (z : Z) : js_round (IZR z) = z.
Proof.
  unfold js_round. symmetry. apply Int_part_spec. lra.
Qed.

Lemma js_round_monotone (x y : R) : x <= y -> (js_round x <= js_round y)%Z.
Proof.
  intros Hxy. pose proof (js_round_near x). pose proof (js_round_near y).
  apply Z.lt_succ_r. apply lt_IZR. rewrite succ_IZR. lra.
Qed.

Lemma js_round_upper (x : R) (z : Z) : x <= IZR z -> (js_round x <= z)%Z.
Proof.
  intros H. rewrite <- (js_round_IZR z). now apply js_round_monotone.
Qed.

Lemma js_round_lower (x : R) (z : Z) : IZR z <= x -> (z <= js_round x)%Z.
Proof.
  intros H. rewrite <- (js_round_IZR z) at 1. now apply js_round_monotone.
Qed.

(** ** Static electricity *)

Section ElectroFacts.
Import Electro.

Lemma clamp_bounds (v : Z) : (-50 <= clamp v (-50) 50 <= 50)%Z.
Proof. unfold clamp. lia. Qed.

Lemma doRub_bounded (primary secondary : Side) (r1 r2 r3 : R) (s : State) :
  (-50 <= charge (A s) <= 50)%Z /\ (-50 <= charge (B s) <= 50)%Z ->
  let s' := doRub primary secondary r1 r2 r3 s in
  (-50 <= charge (A s') <= 50)%Z /\ (-50 <= charge (B s') <= 50)%Z.
Proof.
  intros Hb. cbv zeta. unfold doRub.
  destruct (decide _); [exact Hb|].
  cbv zeta. cbn [A B charge]. split; apply clamp_bounds.
Qed.

(** X10: whatever is selected, rubbed or reset, and whatever the random
    draws, both charges stay between -50 and 50. *)
Theorem reachable_charges_bounded (s : State) :
  reachable s ->
  (-50 <= charge (A s) <= 50)%Z /\ (-50 <= charge (B s) <= 50)%Z.
Proof.
  intros (events & ->). unfold run.
  assert (Hinit : (-50 <= charge (A initial_state) <= 50)%Z /\
                  (-50 <= charge (B initial_state) <= 50)%Z)
    by (cbn; lia).
  revert Hinit. generalize initial_state.
  induction events as [|e events IH]; intros s Hs; [exact Hs|].
  cbn [foldl]. apply IH.
  destruct e; cbn [step A B charge]; try (now apply doRub_bounded);
    destruct Hs; split; (assumption || lia).
Qed.

Lemma reachable_charges_bounded_witness :
  (-50 <= charge (A (run initial_state [Rub 0 0 0; SelectB glass; Reset]))
   <= 50)%Z /\
  (-50 <= charge (B (run initial_state [Rub 0 0 0; SelectB glass; Reset]))
   <= 50)%Z.
Proof.
  apply (reachable_charges_bounded
           (run initial_state [Rub 0 0 0; SelectB glass; Reset])).
  exists [Rub 0 0 0; SelectB glass; Reset]. reflexivity.
Defined.

Lemma clamp_opp (v : Z) : clamp (- v) (-50) 50 = (- clamp v (-50) 50)%Z.
Proof. unfold clamp. lia. Qed.

(** X11: rubbing only moves charge between the two objects: if the
    charges summed to zero before [doRub] they do after it, the clamp
    to [-50, 50] included. *)
Theorem doRub_conserves_charge (primary secondary : Side) (r1 r2 r3 : R)
    (s : State) :
  primary <> secondary ->
  (charge (A s) + charge (B s) = 0)%Z ->
  let s' := doRub primary secondary r1 r2 r3 s in
  (charge (A s') + charge (B s') = 0)%Z.
Proof.
  intros Hsides Hzero. cbv zeta. unfold doRub.
  destruct (decide _); [exact Hzero|]. cbv zeta.
  set (diff := (rank _ - rank _)%Z).
  set (t := Z.max 1 _). set (small := js_round (1 + r2 * 2)).
  set (sign := if decide (r3 > 5 / 10) then 1%Z else (-1)%Z).
  assert (Hb : charge (B s) = (- charge (A s))%Z) by lia.
  destruct primary, secondary; try contradiction;
    destruct (decide (diff > 0)%Z); [| destruct (decide (diff < 0)%Z)
                                     | | destruct (decide (diff < 0)%Z)];
    cbn [add_charge A B charge key]; rewrite Hb;
    match goal with
    | |- (clamp ?a _ _ + clamp ?b _ _ = 0)%Z =>
        replace b with (- a)%Z by lia; rewrite clamp_opp; lia
    end.
Qed.

Lemma doRub_conserves_charge_witness :
  (charge (A (doRub sideA sideB 0 0 0 initial_state))
   + charge (B (doRub sideA sideB 0 0 0 initial_state)) = 0)%Z.
Proof.
  apply (doRub_conserves_charge sideA sideB 0 0 0 initial_state).
  - discriminate.
  - reflexivity.
Defined.

Lemma rank_injective (m1 m2 : Material) : rank m1 = rank m2 -> m1 = m2.
Proof. destruct m1, m2; cbn; intros H; (reflexivity || discriminate). Qed.

Lemma transfer_bounds (base : Z) (r : R) :
  (1 <= base)%Z -> 0 <= r < 1 ->
  (base <= js_round (IZR base * (1 + r * (6 / 10))) <= 2 * base)%Z.
Proof.
  intros Hbase [Hr0 Hr1].
  assert (Hb : 1 <= IZR base) by (apply IZR_le in Hbase; exact Hbase).
  set (x := IZR base * (1 + r * (6 / 10))).
  assert (Hx : IZR base <= x < IZR base * (16 / 10)) by (subst x; nra).
  pose proof (js_round_near x) as Hnear. split.
  - rewrite <- (js_round_IZR base). apply js_round_monotone. lra.
  - apply Z.lt_succ_r. apply lt_IZR. rewrite succ_IZR, mult_IZR. lra.
Qed.

(** X12: rubbing two different materials always moves charge towards
    the one higher in the table: with [d] the rank of the primary minus
    that of the secondary, [d] is not zero (so the equal-rank branch of
    [doRub] is never taken), and some amount [t] between [|d|] and
    [2 |d|] is added to the primary with the sign of [d] and taken from
    the secondary, before the clamp. *)
Theorem doRub_moves_charge (primary : Side) (r1 r2 r3 : R) (s : State) :
  key (get primary s) <> key (get (other primary) s) ->
  0 <= r1 < 1 ->
  let d := (rank (key (get primary s))
            - rank (key (get (other primary) s)))%Z in
  let s' := doRub primary (other primary) r1 r2 r3 s in
  d <> 0%Z /\
  exists t, (Z.abs d <= t <= 2 * Z.abs d)%Z /\
    charge (get primary s')
    = clamp (charge (get primary s) + Z.sgn d * t) (-50) 50 /\
    charge (get (other primary) s')
    = clamp (charge (get (other primary) s) - Z.sgn d * t) (-50) 50.
Proof.
  intros Hkeys Hr. cbv zeta.
  set (d := (rank _ - rank _)%Z).
  assert (Hd : d <> 0%Z).
  { subst d. intros Hz. apply Hkeys, rank_injective. lia. }
  split; [exact Hd|].
  pose proof (transfer_bounds (Z.abs d) r1 ltac:(lia) Hr) as Ht.
  exists (js_round (IZR (Z.abs d) * (1 + r1 * (6 / 10)))).
  split; [exact Ht|].
  unfold doRub. destruct (decide _) as [Heq|_]; [contradiction|].
  cbv zeta. fold d.
  rewrite (Z.max_r 1) by lia.
  set (t := js_round _) in *.
  destruct (decide (d > 0)%Z) as [Hpos|Hnpos];
    [|destruct (decide (d < 0)%Z) as [Hneg|Hnneg]; [|lia]].
  - rewrite (Z.sgn_pos d) by lia.
    destruct primary; cbn [other get add_charge A B charge key];
      split; f_equal; lia.
  - rewrite (Z.sgn_neg d) by lia.
    destruct primary; cbn [other get add_charge A B charge key];
      split; f_equal; lia.
Qed.

Lemma doRub_moves_charge_witness :
  let d := (rank (key (get sideA initial_state))
            - rank (key (get (other sideA) initial_state)))%Z in
  let s' := doRub sideA (other sideA) (1 / 2) 0 0 initial_state in
  d <> 0%Z /\
  exists t, (Z.abs d <= t <= 2 * Z.abs d)%Z /\
    charge (get sideA s')
    = clamp (charge (get sideA initial_state) + Z.sgn d * t) (-50) 50 /\
    charge (get (other sideA) s')
    = clamp (charge (get (other sideA) initial_state) - Z.sgn d * t)
        (-50) 50.
Proof.
  apply (doRub_moves_charge sideA (1 / 2) 0 0 initial_state).
  - discriminate.
  - lra.
Defined.

Lemma arrow_of_number (f : R) :
  exists l,
    Num.Math_min (15 / 10)
      (Num.Math_max (3 / 10) (Num.times (Num.Math_abs (Num.Fin f)) (15 / 10)))
    = Num.Fin l /\
    3 / 10 <= l <= 15 / 10 /\
    (f = 0 -> l = 3 / 10).
Proof.
  eexists. split; [reflexivity|]. split; [split|].
  - apply Rmin_glb; [lra | apply Rmax_l].
  - apply Rmin_l.
  - intros ->. rewrite Rabs_R0, Rmult_0_l, Rmax_left by lra.
    apply Rmin_right. lra.
Qed.

(** X13: in exact arithmetic (the force taken over the real numbers,
    a quotient by zero being [NaN] or an infinity as in the code), when
    [computeForce] draws arrows, at least one object is charged and the
    arrows point at each other exactly when the charges have opposite
    signs.  With the distance slider at 0 and one object neutral the
    arrow length is [NaN] ([0 / 0]).  In every other case it is a
    number between 0.3 and 1.5: 1.5 at distance 0 (an infinite force,
    cut off), and 0.3, pointing apart, with one object neutral at a
    distance other than 0, where the force is zero. *)
Theorem computeForce_arrows (s : State) (d : R) (a : Arrows) :
  computeForce s d = Some a ->
  let neutral := charge (A s) = 0%Z \/ charge (B s) = 0%Z in
  ~ (charge (A s) = 0%Z /\ charge (B s) = 0%Z) /\
  (attraction a = true <-> (charge (A s) * charge (B s) < 0)%Z) /\
  (d = 0 /\ neutral -> arrowLength a = Num.NaN) /\
  (~ (d = 0 /\ neutral) ->
   exists l, arrowLength a = Num.Fin l /\
     3 / 10 <= l <= 15 / 10 /\
     (d = 0 -> l = 15 / 10) /\
     (neutral -> l = 3 / 10 /\ attraction a = false)).
Proof.
  unfold computeForce. cbv zeta.
  destruct (decide _) as [Hboth|Hcharged]; [discriminate|].
  intros [= <-]. cbn [arrowLength attraction].
  set (q := IZR (charge (A s)) * IZR (charge (B s))).
  assert (Hq : q = 0 <-> charge (A s) = 0%Z \/ charge (B s) = 0%Z).
  { subst q. split.
    - intros H. apply Rmult_integral in H.
      destruct H as [H|H]; [left|right]; now apply eq_IZR.
    - intros [-> | ->]; ring. }
  split; [|split; [|split]].
  - intros [HA HB]. apply Hcharged. rewrite HA, HB. split; reflexivity.
  - subst q. rewrite bool_decide_eq_true, <- mult_IZR. split.
    + intros H. apply lt_IZR. exact H.
    + intros H. apply IZR_lt in H. exact H.
  - intros [-> Hneutral]. apply Hq in Hneutral. rewrite Hneutral.
    unfold Num.quotient.
    destruct (decide (0 * 0 = 0)) as [_|Hno]; [|exfalso; apply Hno; ring].
    destruct (decide (8 / 100 * 0 = 0)) as [_|Hno];
      [reflexivity | exfalso; apply Hno; ring].
  - intros Hnot. unfold Num.quotient.
    destruct (decide (d * d = 0)) as [Hd|Hd].
    + assert (Hd0 : d = 0) by (apply Rmult_integral in Hd; tauto).
      assert (Hq0 : q <> 0) by (intros H; apply Hnot; split; tauto).
      destruct (decide (8 / 100 * q = 0)) as [H|_]; [exfalso; lra|].
      exists (15 / 10).
      split; [destruct (decide (0 < 8 / 100 * q)); cbn;
              destruct (decide (0 < 15 / 10)); try lra; reflexivity|].
      split; [lra|]. split; [reflexivity|].
      intros Hneutral. exfalso. apply Hnot. split; assumption.
    + assert (Hd0 : d <> 0) by (intros ->; apply Hd; ring).
      destruct (arrow_of_number (8 / 100 * q / (d * d)))
        as (l & Hl & Hrange & Hzero).
      exists l. split; [exact Hl|]. split; [exact Hrange|].
      split; [intros; contradiction|].
      intros Hneutral. apply Hq in Hneutral. split.
      * apply Hzero. rewrite Hneutral. field. exact Hd0.
      * apply bool_decide_eq_false_2. subst q. lra.
Qed.

Lemma computeForce_arrows_witness :
  let neutral :=
    charge (A charged_pair) = 0%Z \/ charge (B charged_pair) = 0%Z in
  ~ (charge (A charged_pair) = 0%Z /\ charge (B charged_pair) = 0%Z) /\
  (attraction charged_pair_arrows = true <->
   (charge (A charged_pair) * charge (B charged_pair) < 0)%Z) /\
  (0 = 0 /\ neutral -> arrowLength charged_pair_arrows = Num.NaN) /\
  (~ (0 = 0 /\ neutral) ->
   exists l, arrowLength charged_pair_arrows = Num.Fin l /\
     3 / 10 <= l <= 15 / 10 /\
     (0 = 0 -> l = 15 / 10) /\
     (neutral -> l = 3 / 10 /\ attraction charged_pair_arrows = false)).
Proof.
  apply (computeForce_arrows charged_pair 0 charged_pair_arrows).
  unfold computeForce, charged_pair, charged_pair_arrows.
  cbn [A B charge]. destruct (decide _) as [[H _]|_]; [lra|reflexivity].
Defined.

End ElectroFacts.


(** ** Beam balance: balancing and smoothing *)

Section BeamPageFacts.
Import Beam BeamPage.

Lemma clamp_IZR (z : Z) :
  Rmax 5 (Rmin 45 (IZR z)) = IZR (Z.max 5 (Z.min 45 z)).
Proof.
  destruct (Z_le_gt_dec z 45) as [H45|H45].
  - rewrite Z.min_r by lia. rewrite Rmin_right by (apply IZR_le in H45; lra).
    destruct (Z_le_gt_dec 5 z) as [H5|H5].
    + rewrite Z.max_r by lia. apply Rmax_right. apply IZR_le in H5. lra.
    + rewrite Z.max_l by lia. apply Rmax_left.
      assert (z <= 5)%Z as H by lia. apply IZR_le in H. lra.
  - rewrite Z.min_l by lia.
    assert (45 <= z)%Z as H by lia. apply IZR_le in H.
    rewrite Rmin_left by lra. rewrite Z.max_r by lia. apply Rmax_right. lra.
Qed.

Lemma balance_target_number (s : State) :
  mass2 s <> 0 ->
  balance_target s
  = Num.Fin (IZR (Z.max 5 (Z.min 45
                     (js_round (mass1 s * dist1 s / mass2 s))))).
Proof.
  intros Hm2. unfold balance_target, Num.quotient. cbv zeta.
  destruct (decide (mass2 s = 0)) as [H|_]; [contradiction|].
  cbn [Num.Math_round Num.Math_min Num.Math_max]. now rewrite clamp_IZR.
Qed.

Lemma balance_target_zero_mass (s : State) :
  mass2 s = 0 ->
  balance_target s
  = if decide (mass1 s * dist1 s = 0) then Num.NaN
    else if decide (0 < mass1 s * dist1 s) then Num.Fin (IZR 45)
    else Num.Fin (IZR 5).
Proof.
  intros Hm2. unfold balance_target, Num.quotient. cbv zeta.
  destruct (decide (mass2 s = 0)) as [_|H]; [|contradiction].
  destruct (decide (mass1 s * dist1 s = 0)); [reflexivity|].
  destruct (decide (0 < mass1 s * dist1 s));
    cbn [Num.Math_round Num.Math_min Num.Math_max]; f_equal.
  apply Rmax_right. lra.
Qed.

(** X14: in exact arithmetic (product and quotient taken over the real
    numbers, a quotient by zero being [NaN] or an infinity as in the
    code), the distance the balance button aims at is a whole number of
    centimetres between 5 and 45, or [NaN] when [mass2] and
    [mass1 * dist1] are both 0 ([0 / 0]); when [mass2] is not 0 and the
    exact balance distance [mass1 * dist1 / mass2] lies between 5 and
    45, the target is within half a centimetre of it. *)
Theorem balance_target_spec (s : State) :
  (balance_target s = Num.NaN <-> mass2 s = 0 /\ mass1 s * dist1 s = 0) /\
  (balance_target s = Num.NaN \/
   exists z, balance_target s = Num.Fin (IZR z) /\ (5 <= z <= 45)%Z) /\
  (mass2 s <> 0 -> 5 <= mass1 s * dist1 s / mass2 s <= 45 ->
   exists t, balance_target s = Num.Fin t /\
     Rabs (t - mass1 s * dist1 s / mass2 s) <= 1 / 2).
Proof.
  destruct (decide (mass2 s = 0)) as [Hm2|Hm2].
  - rewrite (balance_target_zero_mass s Hm2).
    destruct (decide (mass1 s * dist1 s = 0)) as [Ha|Ha].
    + split; [tauto|]. split; [now left|]. intros; contradiction.
    + split; [|split].
      * split; [|tauto]. destruct (decide _); discriminate.
      * right. destruct (decide _); eexists; (split; [reflexivity|lia]).
      * intros; contradiction.
  - rewrite (balance_target_number s Hm2).
    split; [|split].
    + split; [discriminate|tauto].
    + right. eexists. split; [reflexivity|lia].
    + intros _ [Hlo Hhi]. eexists. split; [reflexivity|].
      set (r := mass1 s * dist1 s / mass2 s) in *.
      pose proof (js_round_near r) as Hnear.
      assert (H5 : (5 <= js_round r)%Z) by now apply js_round_lower.
      assert (H45 : (js_round r <= 45)%Z) by now apply js_round_upper.
      rewrite Z.min_r, Z.max_r by lia.
      apply Rabs_le. lra.
Qed.

Lemma balance_target_spec_witness :
  exists t, balance_target heavy_right = Num.Fin t /\
    Rabs (t - mass1 heavy_right * dist1 heavy_right / mass2 heavy_right)
    <= 1 / 2.
Proof.
  apply (balance_target_spec heavy_right); simpl; lra.
Defined.

Lemma balance_target_out_of_range (s : State) :
  mass2 s <> 0 -> 45 <= mass1 s * dist1 s / mass2 s ->
  balance_target s = Num.Fin 45.
Proof.
  intros Hm2 Hhi. rewrite (balance_target_number s Hm2).
  assert (H45 : (45 <= js_round (mass1 s * dist1 s / mass2 s))%Z)
    by now apply js_round_lower.
  rewrite Z.min_l, Z.max_r by lia. reflexivity.
Qed.




Lemma last_frame_lands (start target elapsed : R) (z : Z) (s : State) :
  target = IZR z -> 800 <= elapsed ->
  animateToBalance_frame start target elapsed s = (with_dist2 target s, false).
Proof.
  intros -> Hend. unfold animateToBalance_frame. cbv zeta.
  rewrite Rmin_right by lra.
  replace (start + (IZR z - start) * (1 - (1 - 1) ^ 3)) with (IZR z) by ring.
  rewrite js_round_IZR. f_equal. apply bool_decide_eq_false_2. lra.
Qed.

Lemma tilt_of_net (s : State) :
  let net := moment2 (calculateMoments s) - moment1 (calculateMoments s) in
  (net = 0 -> calculateTiltAngle s = 0) /\
  (net < 0 -> calculateTiltAngle s < 0) /\
  (net > 0 -> calculateTiltAngle s > 0) /\
  Rabs (calculateTiltAngle s) <= Rabs net / (5 / 10) * MAX_TILT_ANGLE /\
  Rabs (calculateTiltAngle s) <= MAX_TILT_ANGLE.
Proof.
  cbv zeta. unfold calculateTiltAngle. cbv zeta.
  set (net := moment2 _ - moment1 _).
  pose proof MAX_TILT_ANGLE_pos as Hmax.
  set (M := MAX_TILT_ANGLE) in *.
  replace (net / (5 / 10) * M) with (2 * net * M) by field.
  replace (Rabs net / (5 / 10) * M) with (2 * Rabs net * M) by field.
  unfold Rmax, Rmin, Rabs.
  repeat (destruct (Rle_dec _ _)); repeat (destruct (Rcase_abs _));
    repeat split; intros; try nra.
Qed.

Lemma js_round_quarter : js_round (85 / 4) = 21%Z.
Proof.
  unfold js_round. symmetry. apply Int_part_spec. split; lra.
Qed.

(** X16: in exact arithmetic (products, quotient and moments taken over
    the real numbers), when [mass2] is not 0 and the balance distance
    [mass1 * dist1 / mass2] is a whole number of centimetres between 5
    and 45, the balance button aims at it and its animation, once 800
    ms have passed, ends with [dist2] at that distance: then
    [mass1 * dist1 = mass2 * dist2] and the status line reads
    balanced. *)
Theorem balance_button_balances (s : State) (z : Z) (elapsed : R) :
  mass2 s <> 0 ->
  mass1 s * dist1 s / mass2 s = IZR z ->
  (5 <= z <= 45)%Z ->
  800 <= elapsed ->
  balance_target s = Num.Fin (IZR z) /\
  let '(s', again) := animateToBalance_frame (dist2 s) (IZR z) elapsed s in
  again = false /\
  dist2 s' = IZR z /\
  mass1 s' * dist1 s' = mass2 s' * dist2 s' /\
  balanceStatus s' = Balanced.
Proof.
  intros Hm2 Hexact Hz Hend. split.
  { rewrite (balance_target_number s Hm2), Hexact, js_round_IZR.
    do 2 f_equal. lia. }
  rewrite (last_frame_lands (dist2 s) (IZR z) elapsed z s eq_refl Hend).
  assert (Hproducts : mass1 s * dist1 s = mass2 s * IZR z).
  { rewrite <- Hexact. field. exact Hm2. }
  split; [reflexivity|]. split; [reflexivity|].
  split; [exact Hproducts|].
  assert (Hmoments : moment1 (calculateMoments (with_dist2 (IZR z) s))
                     = moment2 (calculateMoments (with_dist2 (IZR z) s))).
  { apply moments_equal_iff. exact Hproducts. }
  unfold balanceStatus. cbv zeta. rewrite Hmoments.
  replace (moment2 _ - moment2 _) with 0 by ring. rewrite Rabs_R0.
  destruct (decide (0 < 1 / 1000)); [reflexivity|lra].
Qed.

Lemma balance_button_balances_witness :
  balance_target right_too_far = Num.Fin (IZR 6) /\
  let '(s', again) :=
    animateToBalance_frame (dist2 right_too_far) (IZR 6) 800 right_too_far in
  again = false /\
  dist2 s' = IZR 6 /\
  mass1 s' * dist1 s' = mass2 s' * dist2 s' /\
  balanceStatus s' = Balanced.
Proof.
  apply (balance_button_balances right_too_far 6 800).
  - simpl. lra.
  - simpl. lra.
  - lia.
  - lra.
Defined.

(** X17: when the exact balance distance is beyond 45 cm (and
    [mass2 > 0]) the balance button stops at 45 cm: the left moment
    stays the larger one, the beam heads for a tilt to the left and
    the status line does not read tilting right. *)
Theorem balance_button_out_of_reach (s : State) (elapsed : R) :
  0 < mass2 s ->
  45 < mass1 s * dist1 s / mass2 s ->
  800 <= elapsed ->
  balance_target s = Num.Fin 45 /\
  let '(s', again) := animateToBalance_frame (dist2 s) 45 elapsed s in
  again = false /\
  dist2 s' = 45 /\
  moment1 (calculateMoments s') > moment2 (calculateMoments s') /\
  calculateTiltAngle s' < 0 /\
  balanceStatus s' <> TiltingRight.
Proof.
  intros Hm2 Hfar Hend.
  split; [apply balance_target_out_of_range; lra|].
  rewrite (last_frame_lands (dist2 s) 45 elapsed 45 s eq_refl Hend).
  assert (Hmoments : moment1 (calculateMoments (with_dist2 45 s))
                     > moment2 (calculateMoments (with_dist2 45 s))).
  { unfold calculateMoments, GRAVITY.
    cbn [moment1 moment2 with_dist2 mass1 dist1 mass2 dist2].
    assert (45 * mass2 s < mass1 s * dist1 s).
    { apply Rmult_lt_reg_r with (/ mass2 s);
        [now apply Rinv_0_lt_compat|].
      replace (45 * mass2 s * / mass2 s) with 45 by (field; lra).
      exact Hfar. }
    lra. }
  split; [reflexivity|]. split; [reflexivity|]. split; [exact Hmoments|].
  split.
  - apply (tilt_of_net (with_dist2 45 s)). lra.
  - unfold balanceStatus. cbv zeta.
    destruct (decide _); [discriminate|].
    destruct (decide _); [discriminate|]. contradiction.
Qed.

Lemma balance_button_out_of_reach_witness :
  balance_target light_right = Num.Fin 45 /\
  let '(s', again) :=
    animateToBalance_frame (dist2 light_right) 45 800 light_right in
  again = false /\
  dist2 s' = 45 /\
  moment1 (calculateMoments s') > moment2 (calculateMoments s') /\
  calculateTiltAngle s' < 0 /\
  balanceStatus s' <> TiltingRight.
Proof.
  apply (balance_button_out_of_reach light_right 800); simpl; lra.
Defined.


Lemma frames_fixed (n : nat) :
  forall s, let s' := frames n s in
  mass1 s' = mass1 s /\ dist1 s' = dist1 s /\ mass2 s' = mass2 s /\
  dist2 s' = dist2 s /\ calculateTiltAngle s' = calculateTiltAngle s.
Proof.
  induction n as [|n IH]; intros s; cbn [frames]; [auto 6|].
  destruct (IH (updateBeamRotation s)) as (H1 & H2 & H3 & H4 & H5).
  cbv zeta. rewrite H1, H2, H3, H4, H5. repeat split.
Qed.



Lemma status_after_balance (s : State) (t elapsed : R) (z : Z) :
  0 < mass2 s -> t = IZR z -> 800 <= elapsed ->
  let '(s', again) := animateToBalance_frame (dist2 s) t elapsed s in
  (balanceStatus s' = Balanced <->
   981 * mass2 s * Rabs (mass1 s * dist1 s / mass2 s - t) < 10000) /\
  (balanceStatus s' = TiltingLeft <->
   10000 <= 981 * mass2 s * (mass1 s * dist1 s / mass2 s - t)).
Proof.
  intros Hm2 Ht Hend.
  rewrite (last_frame_lands (dist2 s) t elapsed z s Ht Hend).
  assert (Hdiff : moment1 (calculateMoments (with_dist2 t s))
                  - moment2 (calculateMoments (with_dist2 t s))
                  = 981 / 10000000 * mass2 s
                    * (mass1 s * dist1 s / mass2 s - t)).
  { unfold calculateMoments, GRAVITY.
    cbn [moment1 moment2 with_dist2 mass1 dist1 mass2 dist2]. field. lra. }
  assert (Habs : Rabs (moment1 (calculateMoments (with_dist2 t s))
                       - moment2 (calculateMoments (with_dist2 t s)))
                 = 981 / 10000000 * mass2 s
                   * Rabs (mass1 s * dist1 s / mass2 s - t)).
  { rewrite Hdiff, Rabs_mult. f_equal. apply Rabs_pos_eq. nra. }
  unfold balanceStatus. cbv zeta. rewrite Habs.
  set (m1 := moment1 _) in *. set (m2 := moment2 _) in *.
  set (gap := mass1 s * dist1 s / mass2 s - t) in *.
  assert (Hsize : 981 / 10000000 * mass2 s * gap
                  <= 981 / 10000000 * mass2 s * Rabs gap).
  { apply Rmult_le_compat_l; [nra | apply Rle_abs]. }
  destruct (decide (981 / 10000000 * mass2 s * Rabs gap < 1 / 1000))
    as [Hbal|Hnot].
  - split; [split; [intros _; lra | reflexivity]|].
    split; [discriminate | intros; lra].
  - destruct (decide (m1 > m2)) as [Hleft|Hright].
    + split; [split; [discriminate | intros; lra]|].
      split; [intros _|reflexivity].
      assert (Hpos : 0 < gap) by nra.
      rewrite (Rabs_pos_eq gap) in Hnot by lra. lra.
    + split; [split; [discriminate | intros; lra]|].
      split; [discriminate|]. intros Hlarge. exfalso. apply Hright. lra.
Qed.

(** X30: the balance button does not always end in a balanced status.
    In exact arithmetic (moments and quotient taken over the real
    numbers), once its animation is over (and [mass2 > 0]) the status
    line reads balanced exactly when
    [981 * mass2 * |mass1 * dist1 / mass2 - target| < 10000], the
    target being the rounded and clamped distance.  With 500 g at 17 cm
    against 400 g the target is 21 cm for a balance at 21.25 cm, and
    the run ends with [dist2] at 21 and the status tilting left. *)
Theorem balance_button_status :
  (forall s t elapsed,
     0 < mass2 s -> 800 <= elapsed -> balance_target s = Num.Fin t ->
     let '(s', again) := animateToBalance_frame (dist2 s) t elapsed s in
     balanceStatus s' = Balanced <->
     981 * mass2 s * Rabs (mass1 s * dist1 s / mass2 s - t) < 10000) /\
  (balance_target heavy_right = Num.Fin 21 /\
   let '(s', again) :=
     animateToBalance_frame (dist2 heavy_right) 21 800 heavy_right in
   again = false /\ dist2 s' = 21 /\ balanceStatus s' = TiltingLeft).
Proof.
  split.
  - intros s t elapsed Hm2 Hend Htarget.
    rewrite balance_target_number in Htarget by lra.
    injection Htarget as Ht. symmetry in Ht.
    pose proof (status_after_balance s t elapsed _ Hm2 Ht Hend) as H.
    destruct (animateToBalance_frame (dist2 s) t elapsed s) as [s' again].
    apply H.
  - assert (Htarget : balance_target heavy_right = Num.Fin 21).
    { rewrite balance_target_number by (simpl; lra).
      cbn [heavy_right mass1 dist1 mass2].
      replace (500 * 17 / 400) with (85 / 4) by lra.
      rewrite js_round_quarter. reflexivity. }
    split; [exact Htarget|].
    pose proof (status_after_balance heavy_right 21 800 21
                  ltac:(simpl; lra) eq_refl ltac:(lra)) as H.
    rewrite (last_frame_lands (dist2 heavy_right) 21 800 21 heavy_right
               eq_refl ltac:(lra)) in H |- *.
    split; [reflexivity|]. split; [reflexivity|].
    apply H. simpl. lra.
Qed.

End BeamPageFacts.

(** ** Beam balance on doubles *)

Section BeamDoubleFacts.
Import Floats BeamDouble.
#[local] Open Scope float_scope.
#[local] Set Warnings "-inexact-float".

(** *** The order of doubles *)

Lemma SFcompare_swap (a b : spec_float) :
  SFcompare b a = option_map CompOpp (SFcompare a b).
Proof.
  destruct a as [sa|sa| |sa ma ea], b as [sb|sb| |sb mb eb]; cbn;
    try reflexivity;
    try (destruct sa, sb; reflexivity);
    try (destruct sa; reflexivity); try (destruct sb; reflexivity).
  destruct sa, sb; cbn; try reflexivity.
  - rewrite (Z.compare_antisym ea eb).
    destruct (ea ?= eb)%Z; cbn; try reflexivity.
    change (Pos.compare_cont Eq mb ma) with (mb ?= ma)%positive.
    change (Pos.compare_cont Eq ma mb) with (ma ?= mb)%positive.
    rewrite (Pos.compare_antisym ma mb).
    destruct (ma ?= mb)%positive; reflexivity.
  - rewrite (Z.compare_antisym ea eb).
    destruct (ea ?= eb)%Z; cbn; try reflexivity.
    change (Pos.compare_cont Eq mb ma) with (mb ?= ma)%positive.
    change (Pos.compare_cont Eq ma mb) with (ma ?= mb)%positive.
    rewrite (Pos.compare_antisym ma mb).
    destruct (ma ?= mb)%positive; reflexivity.
Qed.

Lemma not_nan_spec (x : float) : is_nan x = false -> Prim2SF x <> S754_nan.
Proof.
  unfold is_nan. rewrite eqb_spec. intros H Hx. rewrite Hx in H.
  discriminate.
Qed.

Lemma compare_defined (a b : spec_float) :
  a <> S754_nan -> b <> S754_nan -> exists c, SFcompare a b = Some c.
Proof.
  intros Ha Hb.
  destruct a as [sa|sa| |sa ma ea], b as [sb|sb| |sb mb eb]; cbn;
    try contradiction; eexists; reflexivity.
Qed.

Lemma not_lt_le (x y : float) :
  is_nan x = false -> is_nan y = false ->
  (x <? y) = false -> (y <=? x) = true.
Proof.
  intros Hx Hy. rewrite ltb_spec, leb_spec. unfold SFltb, SFleb.
  rewrite (SFcompare_swap (Prim2SF x) (Prim2SF y)).
  destruct (compare_defined (Prim2SF x) (Prim2SF y)) as [c ->];
    [now apply not_nan_spec | now apply not_nan_spec |].
  destruct c; cbn; congruence.
Qed.

Lemma lt_le (x y : float) : (x <? y) = true -> (x <=? y) = true.
Proof.
  rewrite ltb_spec, leb_spec. unfold SFltb, SFleb.
  destruct (SFcompare _ _) as [[| |]|]; congruence.
Qed.

Lemma le_not_nan (x y : float) : (x <=? y) = true -> is_nan x = false.
Proof.
  rewrite leb_spec. unfold is_nan. rewrite eqb_spec. unfold SFleb, SFeqb.
  destruct (Prim2SF x) as [s|s| |s m e]; cbn; try discriminate;
    intros _; try reflexivity.
  - destruct s; reflexivity.
  - destruct s; rewrite Z.compare_refl;
      change (Pos.compare_cont Eq m m) with (m ?= m)%positive;
      rewrite Pos.compare_refl; reflexivity.
Qed.

(** The clamp of [calculateTiltAngle]: its result is within the range
    exactly when the clamped number is not [NaN]. *)
Lemma clamp_in_range (x : float) :
  let r := Math_max (- MAX_TILT_ANGLE) (Math_min MAX_TILT_ANGLE x) in
  ((- MAX_TILT_ANGLE <=? r) && (r <=? MAX_TILT_ANGLE))%bool
  = negb (is_nan x).
Proof.
  cbv zeta. destruct (is_nan x) eqn:Hx.
  - unfold Math_min. rewrite Hx, orb_true_r. reflexivity.
  - assert (Hmax : is_nan MAX_TILT_ANGLE = false) by reflexivity.
    assert (Hmin : is_nan (- MAX_TILT_ANGLE) = false) by reflexivity.
    unfold Math_min. rewrite Hx, Hmax. cbn [orb negb].
    assert (Hy : exists y,
               (if MAX_TILT_ANGLE <? x then MAX_TILT_ANGLE
                else if x <? MAX_TILT_ANGLE then x
                else if get_sign MAX_TILT_ANGLE then MAX_TILT_ANGLE else x)
               = y
               /\ is_nan y = false /\ (y <=? MAX_TILT_ANGLE) = true).
    { eexists. split; [reflexivity|].
      destruct (MAX_TILT_ANGLE <? x) eqn:H1; [split; reflexivity|].
      pose proof (not_lt_le _ _ Hmax Hx H1) as Hle.
      destruct (x <? MAX_TILT_ANGLE); [split; assumption|].
      change (get_sign MAX_TILT_ANGLE) with false. cbn iota.
      split; assumption. }
    destruct Hy as (y & -> & Hy & Hle).
    unfold Math_max. rewrite Hy, Hmin. cbn [orb].
    destruct (- MAX_TILT_ANGLE <? y) eqn:H2.
    { rewrite (lt_le _ _ H2), Hle. reflexivity. }
    destruct (y <? - MAX_TILT_ANGLE) eqn:H3; [reflexivity|].
    change (get_sign (- MAX_TILT_ANGLE)) with true. cbn iota.
    rewrite (not_lt_le _ _ Hy Hmin H3), Hle. reflexivity.
Qed.

(** *** Equal moments *)

Lemma zero_cases (x : float) :
  Prim2SF x = S754_zero false \/ Prim2SF x = S754_zero true ->
  x = 0 \/ x = -0.
Proof.
  intros [H|H]; rewrite <- (SF2Prim_Prim2SF x), H; [left|right]; reflexivity.
Qed.

Lemma finite_spec (x : float) :
  is_finite x = true -> SFfinite (Prim2SF x).
Proof.
  unfold is_finite, is_nan, is_infinity.
  rewrite !eqb_spec, abs_spec.
  change (Prim2SF infinity) with (S754_infinity false).
  destruct (Prim2SF x) as [s|s| |s m e]; cbn; auto.
  - destruct s; discriminate.
  - discriminate.
Qed.

(** The difference of two equal finite doubles is a zero. *)
Lemma sub_equal_finite (x y : float) :
  (x =? y) = true -> is_finite x = true -> y - x = 0 \/ y - x = -0.
Proof.
  intros Heq Hfin. apply zero_cases.
  rewrite sub_spec. apply finite_spec in Hfin.
  rewrite eqb_spec in Heq. unfold SFeqb in Heq.
  destruct (Prim2SF x) as [sx|sx| |sx mx ex]; try contradiction;
    destruct (Prim2SF y) as [sy|sy| |sy my ey]; cbn in Heq;
    try discriminate; try (destruct sy; discriminate);
    try (destruct sx; discriminate).
  - destruct sx, sy; cbn; auto.
  - destruct sx, sy; try discriminate.
    + destruct (ex ?= ey)%Z eqn:He; try discriminate.
      apply Z.compare_eq in He. subst ey.
      destruct (Pos.compare_cont Eq mx my) eqn:Hm; try discriminate.
      apply Pos.compare_eq in Hm. subst my.
      left. unfold SF64sub, SFsub. rewrite Z.sub_diag. reflexivity.
    + destruct (ex ?= ey)%Z eqn:He; try discriminate.
      apply Z.compare_eq in He. subst ey.
      destruct (Pos.compare_cont Eq mx my) eqn:Hm; try discriminate.
      apply Pos.compare_eq in Hm. subst my.
      left. unfold SF64sub, SFsub. rewrite Z.sub_diag. reflexivity.
Qed.

(** C2, as stated, fails on the doubles of the code: with 50 g at 18 cm
    against 150 g at 6 cm the products [mass1 * dist1] and
    [mass2 * dist2] are equal (900), yet [calculateMoments] returns
    0.08829000000000001 and 0.08829, and [calculateTiltAngle] returns
    -1.4532785408369298e-17, which is not 0.  (The status line, with
    its tolerance of 0.001, reads balanced all the same.) *)
Lemma balanced_products_tilt_nonzero :
  (mass1 balanced_products * dist1 balanced_products
   =? mass2 balanced_products * dist2 balanced_products) = true /\
  moment1 (calculateMoments balanced_products) = 0.08829000000000001 /\
  moment2 (calculateMoments balanced_products) = 0.08829 /\
  calculateTiltAngle balanced_products = -1.4532785408369298e-17 /\
  (calculateTiltAngle balanced_products =? 0) = false /\
  balanceStatus balanced_products = Balanced.
Proof. repeat split. Qed.

(** C2, amended: for every state whose two moments, as
    [calculateMoments] computes them on doubles, are equal ([===]) and
    finite, [calculateTiltAngle] returns a zero. *)
Theorem equal_moments_tilt_zero (s : State) :
  (moment1 (calculateMoments s) =? moment2 (calculateMoments s)) = true ->
  is_finite (moment1 (calculateMoments s)) = true ->
  (calculateTiltAngle s =? 0) = true.
Proof.
  intros Heq Hfin. unfold calculateTiltAngle. cbv zeta.
  destruct (sub_equal_finite _ _ Heq Hfin) as [-> | ->]; reflexivity.
Qed.

Lemma equal_moments_tilt_zero_witness :
  (calculateTiltAngle initial_state =? 0) = true.
Proof.
  apply (equal_moments_tilt_zero initial_state); reflexivity.
Defined.

(** *** Operations that give a number *)

Lemma shr_1_nonneg (mrs : shr_record) :
  (0 <= shr_m mrs)%Z -> (0 <= shr_m (shr_1 mrs))%Z.
Proof.
  destruct mrs as [[|[p|p|]|p] r s]; cbn; intros H; try lia.
Qed.

Lemma iter_pos_nonneg (p : positive) (mrs : shr_record) :
  (0 <= shr_m mrs)%Z -> (0 <= shr_m (iter_pos shr_1 p mrs))%Z.
Proof.
  revert mrs. induction p as [p IH|p IH|]; intros mrs H; cbn.
  - apply IH, IH, shr_1_nonneg, H.
  - apply IH, IH, H.
  - apply shr_1_nonneg, H.
Qed.

Lemma shr_fexp_nonneg (prec emax m e : Z) (l : location) :
  (0 <= m)%Z -> (0 <= shr_m (fst (shr_fexp prec emax m e l)))%Z.
Proof.
  intros H. unfold shr_fexp, shr.
  assert (H0 : (0 <= shr_m (shr_record_of_loc m l))%Z)
    by (destruct l as [|[| |]]; exact H).
  destruct (_ - e)%Z; cbn [fst]; try exact H0.
  apply iter_pos_nonneg, H0.
Qed.

Lemma round_nearest_even_nonneg (m : Z) (l : location) :
  (0 <= m)%Z -> (0 <= round_nearest_even m l)%Z.
Proof.
  intros H. destruct l as [|[| |]]; cbn; try lia.
  destruct (Z.even m); lia.
Qed.

Lemma binary_round_aux_number (prec emax : Z) (sx : bool) (mx ex : Z)
    (lx : location) :
  (0 <= mx)%Z -> binary_round_aux prec emax sx mx ex lx <> S754_nan.
Proof.
  intros H. unfold binary_round_aux.
  pose proof (shr_fexp_nonneg prec emax mx ex lx H) as H1.
  destruct (shr_fexp prec emax mx ex lx) as [mrs' e']. cbn [fst] in H1.
  pose proof (shr_fexp_nonneg prec emax _ e' loc_Exact
                (round_nearest_even_nonneg _ (loc_of_shr_record mrs') H1))
    as H2.
  destruct (shr_fexp prec emax _ e' loc_Exact) as [mrs'' e''].
  cbn [fst] in H2.
  destruct (shr_m mrs'') as [|m|m]; [discriminate| |lia].
  destruct (_ <=? _)%Z; discriminate.
Qed.

Lemma binary_normalize_number (prec emax m e : Z) (szero : bool) :
  binary_normalize prec emax m e szero <> S754_nan.
Proof.
  destruct m as [|m|m]; cbn; [discriminate| |];
    unfold binary_round; destruct (shl_align _ _ _) as [mz ez];
    apply binary_round_aux_number; lia.
Qed.

Lemma SFsub_number (prec emax : Z) (x y : spec_float) :
  SFfinite x -> SFfinite y -> SFsub prec emax x y <> S754_nan.
Proof.
  destruct x as [sx|sx| |sx mx ex], y as [sy|sy| |sy my ey]; cbn;
    try contradiction; intros _ _; try discriminate.
  - destruct sx, sy; discriminate.
  - apply binary_normalize_number.
Qed.

Lemma SFdiv_number (prec emax : Z) (x : spec_float) (s : bool)
    (m : positive) (e : Z) :
  x <> S754_nan -> SFdiv prec emax x (S754_finite s m e) <> S754_nan.
Proof.
  destruct x as [sx|sx| |sx mx ex]; cbn; intros Hx; try discriminate;
    try contradiction.
  destruct (SFdiv_core_binary _ _ _ _ _ _) as [[mz ez] lz] eqn:Hcore.
  apply binary_round_aux_number.
  unfold SFdiv_core_binary in Hcore. cbv zeta in Hcore.
  match type of Hcore with
  | (let '(q, r) := Z.div_eucl ?a ?b in _) = _ =>
      pose proof (Z.div_eucl_eq a b ltac:(lia)) as Heq;
      pose proof (Z_div_mod a b ltac:(lia)) as Hmod;
      assert (Ha : (0 <= a)%Z);
      [|destruct (Z.div_eucl a b) as [q r]]
  end.
  { destruct (_ - _ - _)%Z; try lia. apply Z.shiftl_nonneg. lia. }
  injection Hcore as <- _ _. nia.
Qed.

Lemma SFmul_number (prec emax : Z) (x : spec_float) (s : bool)
    (m : positive) (e : Z) :
  x <> S754_nan -> SFmul prec emax x (S754_finite s m e) <> S754_nan.
Proof.
  destruct x as [sx|sx| |sx mx ex]; cbn; intros Hx; try discriminate;
    try contradiction.
  apply binary_round_aux_number. lia.
Qed.

Lemma number_spec (x : float) : Prim2SF x <> S754_nan -> is_nan x = false.
Proof.
  unfold is_nan. rewrite eqb_spec. unfold SFeqb.
  destruct (Prim2SF x) as [s|s| |s m e]; cbn; intros H;
    try reflexivity; try contradiction.
  - destruct s; reflexivity.
  - destruct s; rewrite Z.compare_refl;
      change (Pos.compare_cont Eq m m) with (m ?= m)%positive;
      rewrite Pos.compare_refl; reflexivity.
Qed.

(** With finite moments the angle before the clamp is a number. *)
Lemma finite_moments_angle_number (s : State) :
  is_finite (moment1 (calculateMoments s)) = true ->
  is_finite (moment2 (calculateMoments s)) = true ->
  is_nan (unclamped_angle s) = false.
Proof.
  intros H1 H2. apply finite_spec in H1, H2.
  apply number_spec. unfold unclamped_angle. cbv zeta.
  rewrite mul_spec, div_spec, sub_spec.
  assert (Hmax : exists sg m e, Prim2SF MAX_TILT_ANGLE = S754_finite sg m e)
    by (do 3 eexists; reflexivity).
  assert (Hhalf : exists sg m e, Prim2SF 0.5 = S754_finite sg m e)
    by (do 3 eexists; reflexivity).
  destruct Hmax as (sg & m & e & ->). destruct Hhalf as (sg' & m' & e' & ->).
  apply SFmul_number, SFdiv_number, SFsub_number; assumption.
Qed.

(** *** The clamped range *)

(** C8, as stated, fails on the doubles of the code: with masses and
    distances of [1e300] on both sides both moments overflow to
    [Infinity], their difference is [NaN], and [calculateTiltAngle]
    returns [NaN], which is neither at least [-MAX_TILT_ANGLE] nor at
    most [MAX_TILT_ANGLE]. *)
Lemma tilt_nan_on_overflow :
  moment1 (calculateMoments huge) = infinity /\
  moment2 (calculateMoments huge) = infinity /\
  is_nan (calculateTiltAngle huge) = true /\
  (- MAX_TILT_ANGLE <=? calculateTiltAngle huge) = false /\
  (calculateTiltAngle huge <=? MAX_TILT_ANGLE) = false.
Proof. repeat split. Qed.

(** C8, amended: on doubles the angle returned by [calculateTiltAngle]
    lies within [[-MAX_TILT_ANGLE, MAX_TILT_ANGLE]] for every
    combination of masses and distances whose two moments, as
    [calculateMoments] computes them, are finite.  In general it lies
    within that range exactly when the angle before the clamp is a
    number, and is [NaN] exactly when that one is.  [MAX_TILT_ANGLE] is
    [Math.PI / 6], which is 29.999999999999996 degrees. *)
Theorem tilt_in_range_iff_number (s : State) :
  (is_finite (moment1 (calculateMoments s)) = true ->
   is_finite (moment2 (calculateMoments s)) = true ->
   (- MAX_TILT_ANGLE <=? calculateTiltAngle s) = true /\
   (calculateTiltAngle s <=? MAX_TILT_ANGLE) = true) /\
  ((- MAX_TILT_ANGLE <=? calculateTiltAngle s)
   && (calculateTiltAngle s <=? MAX_TILT_ANGLE))%bool
  = negb (is_nan (unclamped_angle s)) /\
  is_nan (calculateTiltAngle s) = is_nan (unclamped_angle s) /\
  MAX_TILT_ANGLE * 180 / Math_PI = 29.999999999999996.
Proof.
  pose proof (clamp_in_range (unclamped_angle s)) as Hclamp.
  cbv zeta in Hclamp.
  change (Math_max (- MAX_TILT_ANGLE)
            (Math_min MAX_TILT_ANGLE (unclamped_angle s)))
    with (calculateTiltAngle s) in Hclamp.
  split; [|split; [exact Hclamp|]]; [|split; [|reflexivity]].
  - intros H1 H2.
    rewrite (finite_moments_angle_number s H1 H2) in Hclamp.
    now apply andb_true_iff in Hclamp.
  - destruct (is_nan (unclamped_angle s)) eqn:Hx.
    + unfold calculateTiltAngle. cbv zeta.
      unfold unclamped_angle in Hx. cbv zeta in Hx.
      unfold Math_min. rewrite Hx, orb_true_r. reflexivity.
    + cbn [negb] in Hclamp. apply andb_true_iff in Hclamp.
      destruct Hclamp as [_ Hle]. now apply le_not_nan in Hle.
Qed.

Lemma tilt_in_range_iff_number_witness :
  (- MAX_TILT_ANGLE <=? calculateTiltAngle (sliders 500 45 50 5)) = true /\
  (calculateTiltAngle (sliders 500 45 50 5) <=? MAX_TILT_ANGLE) = true.
Proof.
  apply (tilt_in_range_iff_number (sliders 500 45 50 5)); reflexivity.
Defined.

End BeamDoubleFacts.

(** ** Simple pendulum: the page around the physics *)

Section PendulumPageFacts.
Import Pendulum PendulumPage.

#[local] Abbreviation total l := (foldl (fun a b => a + b) 0 l).
#[local] Abbreviation total_sq l := (foldl (fun sum xi => sum + xi * xi) 0 l).

Lemma measured_delete (index : nat) (pts : list DataPoint) :
  Forall measured pts -> Forall measured (delete index pts).
Proof. intros H. now apply Forall_delete. Qed.

Lemma physics_consistent (deltaTime : R) (s : State) :
  consistent s -> consistent (updatePendulumPhysics deltaTime s).
Proof.
  intros (Hangle & Hcross & Hpts). unfold updatePendulumPhysics.
  destruct (isRunning s) eqn:Hrun; cbn [negb].
  - cbv zeta. unfold count_crossing.
    destruct (decide _) as [_|_]; [destruct (decide _) as [Hzero|Hset]|];
      (split; [reflexivity|]); (split; [|exact Hpts]);
      cbn [oscillations lastCrossTime]; intros Hosc; auto.
    exfalso. now apply (Hcross Hosc).
  - repeat split; auto. rewrite Hrun. discriminate.
Qed.

Lemma step_consistent (l : Loop) (e : Event) :
  consistent (st l) -> consistent (st (step l e)).
Proof.
  intros Hl. pose proof Hl as (Hangle & Hcross & Hpts).
  destruct e; cbn [step on_state animate st].
  - unfold length_input, rest_unless_running. cbn [isRunning].
    destruct (isRunning (st l)) eqn:Hrun; cbn [negb];
      (split; [|split]); cbn; rewrite ?Hrun; auto; discriminate.
  - unfold angle_input, rest_unless_running. cbn [isRunning].
    destruct (isRunning (st l)) eqn:Hrun; cbn [negb];
      (split; [|split]); cbn; rewrite ?Hrun; auto; discriminate.
  - unfold start_click.
    destruct (isRunning (st l)) eqn:Hrun; cbn [negb]; [exact Hl|].
    (split; [|split]); cbn; auto. lia.
  - (split; [|split]); cbn; auto. discriminate.
  - (split; [|split]); cbn; auto. lia.
  - unfold record_click.
    destruct (decide _) as [[Hosc Htime]|_]; [|exact Hl].
    (split; [|split]); cbn; auto.
    apply Forall_app. split; [exact Hpts|].
    apply Forall_singleton. split; cbn; [|reflexivity].
    apply Rdiv_lt_0_compat; [lra|]. apply lt_0_INR. lia.
  - (split; [|split]); cbn; auto. now apply measured_delete.
  - (split; [|split]); cbn; auto.
  - now apply physics_consistent.
Qed.

Lemma run_consistent (es : list Event) :
  forall l, consistent (st l) -> consistent (st (run es l)).
Proof.
  induction es as [|e es IH]; intros l Hl; [exact Hl|].
  cbn [run foldl]. apply IH. now apply step_consistent.
Qed.

Lemma init_consistent (s : State) : consistent s -> consistent (init s).
Proof.
  intros (Hangle & Hcross & Hpts). (split; [|split]); cbn; auto.
Qed.

(** X20: the listeners, [init] and the animation frame keep the state
    consistent: from a state in which a running pendulum has
    [lastAngle] equal to [angle], a counted oscillation comes with a
    recorded first crossing time other than 0, and every row of the
    table has a positive period next to its square (the state object
    written in the script is one), every sequence of their calls ends
    in such a state. *)
Theorem listeners_keep_consistent (l : Loop) (es : list Event) :
  consistent (st l) ->
  consistent (st (run es l)) /\ consistent (init (st (run es l))).
Proof.
  intros Hl. pose proof (run_consistent es l Hl) as Hrun.
  split; [exact Hrun | now apply init_consistent].
Qed.

Lemma listeners_keep_consistent_witness :
  consistent
    (st (run [RecordClick; Frame (25 / 10); LengthInput 60; RecordClick;
              DeleteClick 0; StopClick]
           after_one_oscillation)) /\
  consistent
    (init
       (st (run [RecordClick; Frame (25 / 10); LengthInput 60; RecordClick;
                 DeleteClick 0; StopClick]
              after_one_oscillation))).
Proof.
  apply (listeners_keep_consistent after_one_oscillation
           [RecordClick; Frame (25 / 10); LengthInput 60; RecordClick;
            DeleteClick 0; StopClick]).
  (split; [|split]); cbn.
  - reflexivity.
  - intros _. lra.
  - constructor.
Defined.

(** *** The fitted line *)

Lemma reduce_i_products (y x : list R) :
  forall (i : nat) (a : R),
  (length x + i <= length y)%nat ->
  reduce_i (add_product y) (Some a) i x
  = Some (a + sum_products x (drop i y)).
Proof.
  induction x as [|v x IH]; intros i a Hlen.
  - cbn. f_equal. ring.
  - cbn [length] in Hlen.
    destruct (lookup_lt_is_Some_2 y i ltac:(lia)) as [yi Hyi].
    cbn [reduce_i]. unfold add_product at 2.
    cbn [mbind option_bind]. rewrite Hyi. cbn [mbind option_bind].
    rewrite IH by lia. f_equal.
    rewrite (drop_S y yi i Hyi). cbn [sum_products]. ring.
Qed.

Lemma squared_error_expand (m c : R) (x : list R) :
  forall y, length x = length y ->
  squared_error m c x y
  = total_sq y - 2 * m * sum_products x y - 2 * c * total y
    + m * m * total_sq x + 2 * m * c * total x
    + INR (length x) * (c * c).
Proof.
  induction x as [|xi x IH]; intros [|yi y] Hlen; try discriminate.
  - cbn. ring.
  - injection Hlen as Hlen. cbn [squared_error sum_products].
    rewrite (IH y Hlen), !total_cons, !total_sq_cons.
    cbn [length]. rewrite S_INR. ring.
Qed.

Lemma regression_fit (x y : list R) (f : Fit) :
  length x = length y ->
  calculateLinearRegression x y = Some f ->
  let n := INR (length x) in
  let D := n * total_sq x - total x * total x in
  0 < n /\ 0 < D /\
  D * slope f = n * sum_products x y - total x * total y /\
  n * intercept f = total y - slope f * total x.
Proof.
  intros Hlen. unfold calculateLinearRegression. cbv zeta.
  rewrite (reduce_i_products y x 0 0) by lia.
  rewrite drop_0, Rplus_0_l. cbn [mbind option_bind].
  set (n := INR (length x)).
  set (D := n * total_sq x - total x * total x).
  unfold checked_div.
  destruct (decide (D = 0)) as [|HD]; [discriminate|].
  cbn [mbind option_bind].
  destruct (decide (n = 0)) as [|Hn]; [discriminate|].
  cbn [mbind option_bind]. intros [= <-]. cbn [slope intercept].
  destruct (denominator_nonneg x) as [Hpos _]. fold n D in Hpos.
  pose proof (pos_INR (length x)) as Hn0. fold n in Hn0.
  split; [lra|]. split; [lra|]. unfold Rdiv.
  split; rewrite <- Rmult_assoc; now apply Rinv_r_simpl_m.
Qed.

Lemma least_squares_gap (n D sx sy sxy sxx syy a b m c : R) :
  0 < n -> D = n * sxx - sx * sx ->
  D * a = n * sxy - sx * sy ->
  n * b = sy - a * sx ->
  n * ((syy - 2 * m * sxy - 2 * c * sy + m * m * sxx + 2 * m * c * sx
        + n * (c * c))
       - (syy - 2 * a * sxy - 2 * b * sy + a * a * sxx + 2 * a * b * sx
          + n * (b * b)))
  = (n * (c - b) + sx * (m - a)) * (n * (c - b) + sx * (m - a))
    + D * ((m - a) * (m - a)).
Proof.
  intros Hn HD Ha Hb.
  assert (Hsy : sy = n * b + a * sx) by lra.
  assert (Hsxy : n * sxy = D * a + sx * sy) by lra.
  subst sy.
  replace (n * ((syy - 2 * m * sxy - 2 * c * (n * b + a * sx) + m * m * sxx
                 + 2 * m * c * sx + n * (c * c))
                - (syy - 2 * a * sxy - 2 * b * (n * b + a * sx) + a * a * sxx
                   + 2 * a * b * sx + n * (b * b))))
    with (- 2 * (m - a) * (n * sxy)
          + n * (- 2 * c * (n * b + a * sx) + m * m * sxx
                 + 2 * m * c * sx + n * (c * c)
                 + 2 * b * (n * b + a * sx) - a * a * sxx
                 - 2 * a * b * sx - n * (b * b))) by ring.
  rewrite Hsxy, HD. ring.
Qed.

(** X21: in exact arithmetic (the sums, products and quotients of the
    function taken over the real numbers, not rounded to doubles), when
    the fit of equally many abscissas and ordinates is defined, its
    line is the least-squares line: no other line has a smaller sum of
    squared vertical distances to the points, and a line with the same
    sum is the fitted one. *)
Theorem regression_least_squares (x y : list R) (f : Fit) (m c : R) :
  length x = length y ->
  calculateLinearRegression x y = Some f ->
  squared_error (slope f) (intercept f) x y <= squared_error m c x y /\
  (squared_error m c x y = squared_error (slope f) (intercept f) x y ->
   m = slope f /\ c = intercept f).
Proof.
  intros Hlen Hfit.
  destruct (regression_fit x y f Hlen Hfit) as (Hn & HD & Ha & Hb).
  cbv zeta in *.
  rewrite !(squared_error_expand _ _ x y Hlen).
  set (n := INR (length x)) in *.
  set (D := n * total_sq x - total x * total x) in *.
  pose proof (least_squares_gap n D (total x) (total y) (sum_products x y)
                (total_sq x) (total_sq y) (slope f) (intercept f) m c
                Hn eq_refl Ha Hb) as Hgap.
  set (lhs := total_sq y - 2 * m * sum_products x y - 2 * c * total y
              + m * m * total_sq x + 2 * m * c * total x + n * (c * c)) in *.
  set (rhs := total_sq y - 2 * slope f * sum_products x y
              - 2 * intercept f * total y
              + slope f * slope f * total_sq x
              + 2 * slope f * intercept f * total x
              + n * (intercept f * intercept f)) in *.
  set (u := n * (c - intercept f) + total x * (m - slope f)) in *.
  set (v := m - slope f) in *.
  assert (Hu : 0 <= u * u) by apply Rle_0_sqr.
  assert (Hv : 0 <= v * v) by apply Rle_0_sqr.
  assert (HDv : 0 <= D * (v * v)) by (apply Rmult_le_pos; lra).
  split.
  - apply Rmult_le_reg_l with n; [exact Hn|]. lra.
  - intros Heq. rewrite Heq in Hgap.
    replace (n * (rhs - rhs)) with 0 in Hgap by ring.
    assert (Hv0 : v * v = 0).
    { assert (D * (v * v) = 0) by lra.
      apply Rmult_integral in H. lra. }
    assert (Hu0 : u * u = 0) by (rewrite Hv0 in Hgap; lra).
    apply Rmult_integral in Hv0. apply Rmult_integral in Hu0.
    assert (Hm : m = slope f) by (subst v; lra).
    split; [exact Hm|].
    assert (Hu1 : u = 0) by lra. subst u v.
    rewrite Hm in Hu1.
    assert (Hc : n * (c - intercept f) = 0) by lra.
    apply Rmult_integral in Hc. lra.
Qed.

Lemma regression_least_squares_witness :
  squared_error (slope {| slope := 3; intercept := 2 |})
    (intercept {| slope := 3; intercept := 2 |}) [1; 2; 4] [5; 8; 14]
  <= squared_error 1 0 [1; 2; 4] [5; 8; 14] /\
  (squared_error 1 0 [1; 2; 4] [5; 8; 14]
   = squared_error (slope {| slope := 3; intercept := 2 |})
       (intercept {| slope := 3; intercept := 2 |}) [1; 2; 4] [5; 8; 14] ->
   1 = slope {| slope := 3; intercept := 2 |} /\
   0 = intercept {| slope := 3; intercept := 2 |}).
Proof.
  apply (regression_least_squares [1; 2; 4] [5; 8; 14]
           {| slope := 3; intercept := 2 |} 1 0).
  - reflexivity.
  - unfold calculateLinearRegression. cbn.
    unfold checked_div.
    destruct (decide _) as [H|_]; [exfalso; lra|].
    cbn [mbind option_bind].
    destruct (decide _) as [H|_]; [exfalso; lra|].
    cbn [mbind option_bind]. f_equal. f_equal; field.
Defined.

Lemma all_equal_denominator (x : list R) :
  (forall u v, u ∈ x -> v ∈ x -> u = v) ->
  INR (length x) * total_sq x - total x * total x = 0.
Proof.
  destruct x as [|a x]; intros Hall; [cbn; ring|].
  assert (Ha : forall v, v ∈ x -> v = a).
  { intros v Hv. apply Hall; [now right | now left]. }
  assert (Hsums : total x = INR (length x) * a
                  /\ total_sq x = INR (length x) * (a * a)).
  { clear Hall. induction x as [|v x IH]; [cbn; split; ring|].
    destruct IH as [IH1 IH2]; [intros w Hw; apply Ha; now right|].
    rewrite total_cons, total_sq_cons, IH1, IH2.
    rewrite (Ha v) by now left.
    cbn [length]. rewrite S_INR. split; ring. }
  destruct Hsums as [H1 H2].
  rewrite total_cons, total_sq_cons, H1, H2. cbn [length]. rewrite S_INR.
  ring.
Qed.

(** X22: in exact arithmetic (the sums, products and quotients of the
    function taken over the real numbers, not rounded to doubles), for
    equally many abscissas and ordinates the fit has no number to show
    exactly when all the abscissas are equal (as with measurements all
    taken at one length, or with no point at all). *)
Theorem regression_undefined_iff (x y : list R) :
  length x = length y ->
  calculateLinearRegression x y = None <->
  (forall u v, u ∈ x -> v ∈ x -> u = v).
Proof.
  intros Hlen. unfold calculateLinearRegression. cbv zeta.
  rewrite (reduce_i_products y x 0 0) by lia.
  rewrite drop_0, Rplus_0_l. cbn [mbind option_bind].
  split.
  - intros Hnone.
    destruct (denominator_nonneg x) as [_ Hzero]. apply Hzero.
    set (n := INR (length x)) in *.
    set (D := n * total_sq x - total x * total x) in *.
    unfold checked_div in Hnone.
    destruct (decide (D = 0)) as [HD|HD]; [exact HD|].
    cbn [mbind option_bind] in Hnone.
    destruct (decide (n = 0)) as [Hn|Hn]; [|discriminate].
    subst D n. destruct x; [cbn; ring|].
    cbn [length] in Hn. rewrite S_INR in Hn.
    pose proof (pos_INR (length x)). lra.
  - intros Hall. rewrite (all_equal_denominator x Hall).
    rewrite checked_div_zero. reflexivity.
Qed.

Lemma regression_undefined_iff_witness :
  calculateLinearRegression [50; 50] [2; 3] = None <->
  (forall u v, u ∈ [50; 50] -> v ∈ [50; 50] -> u = v).
Proof.
  apply (regression_undefined_iff [50; 50] [2; 3]). reflexivity.
Defined.

(** *** The dots of the plot *)

Lemma min_from_le (l : list R) :
  forall v, min_from v l <= v /\ Forall (fun w => min_from v l <= w) l.
Proof.
  unfold min_from. induction l as [|w l IH]; intros v; cbn [foldl].
  - split; [lra | constructor].
  - destruct (IH (Rmin v w)) as [Hhead Htail].
    pose proof (Rmin_l v w). pose proof (Rmin_r v w).
    split; [lra|]. constructor; [lra | exact Htail].
Qed.

Lemma max_from_ge (l : list R) :
  forall v, v <= max_from v l /\ Forall (fun w => w <= max_from v l) l.
Proof.
  unfold max_from. induction l as [|w l IH]; intros v; cbn [foldl].
  - split; [lra | constructor].
  - destruct (IH (Rmax v w)) as [Hhead Htail].
    pose proof (Rmax_l v w). pose proof (Rmax_r v w).
    split; [lra|]. constructor; [lra | exact Htail].
Qed.

Lemma share_in_range (v lo hi : R) :
  lo <= v <= hi -> 0 <= (v - lo) / or_one (hi - lo) <= 1.
Proof.
  intros [Hlo Hhi]. unfold or_one.
  destruct (decide (hi - lo = 0)) as [Hsame|Hdiff].
  - replace (v - lo) with 0 by lra. lra.
  - assert (Hpos : 0 < hi - lo) by lra. split.
    + apply Rmult_le_reg_r with (hi - lo); [exact Hpos|].
      replace ((v - lo) / (hi - lo) * (hi - lo)) with (v - lo)
        by (field; lra). lra.
    + apply Rmult_le_reg_r with (hi - lo); [exact Hpos|].
      replace ((v - lo) / (hi - lo) * (hi - lo)) with (v - lo)
        by (field; lra). lra.
Qed.

(** X23: on a canvas at least as large as the margins, the dot of
    every recorded point is plotted (there being two points or more)
    inside the rectangle of the axes. *)
Theorem plot_point_inside (offsetWidth offsetHeight : R)
    (pts : list DataPoint) (point : DataPoint) :
  2 * padding <= offsetWidth ->
  2 * padding <= offsetHeight ->
  (2 <= length pts)%nat ->
  point ∈ pts ->
  exists x y,
    plot_point offsetWidth offsetHeight pts point = Some (x, y) /\
    padding <= x <= offsetWidth - padding /\
    padding <= y <= offsetHeight - padding.
Proof.
  intros Hw Hh Hlen Hin.
  destruct pts as [|p0 [|p1 rest]]; cbn [length] in Hlen; try lia.
  unfold plot_point. cbv zeta.
  eexists _, _. split; [reflexivity|].
  set (tail := p1 :: rest) in *.
  assert (HL : min_from (dp_length p0) (map dp_length tail)
               <= dp_length point
               <= max_from (dp_length p0) (map dp_length tail)).
  { destruct (min_from_le (map dp_length tail) (dp_length p0)) as [H1 H2].
    destruct (max_from_ge (map dp_length tail) (dp_length p0)) as [H3 H4].
    apply elem_of_cons in Hin. destruct Hin as [->|Hin]; [lra|].
    rewrite Forall_forall in H2, H4.
    assert (dp_length point ∈ map dp_length tail)
      by (apply list_elem_of_fmap; eauto).
    split; auto. }
  assert (HT : min_from (dp_periodSquared p0) (map dp_periodSquared tail)
               <= dp_periodSquared point
               <= max_from (dp_periodSquared p0)
                    (map dp_periodSquared tail)).
  { destruct (min_from_le (map dp_periodSquared tail) (dp_periodSquared p0))
      as [H1 H2].
    destruct (max_from_ge (map dp_periodSquared tail) (dp_periodSquared p0))
      as [H3 H4].
    apply elem_of_cons in Hin. destruct Hin as [->|Hin]; [lra|].
    rewrite Forall_forall in H2, H4.
    assert (dp_periodSquared point ∈ map dp_periodSquared tail)
      by (apply list_elem_of_fmap; eauto).
    split; auto. }
  apply share_in_range in HL. apply share_in_range in HT.
  set (a := (dp_length point - _) / _) in *.
  set (b := (dp_periodSquared point - _) / _) in *.
  unfold padding in *. split; nra.
Qed.

Lemma plot_point_inside_witness :
  exists x y,
    plot_point 300 200
      [ {| dp_length := 50; dp_period := 1; dp_periodSquared := 1 |};
        {| dp_length := 100; dp_period := 2; dp_periodSquared := 4 |} ]
      {| dp_length := 100; dp_period := 2; dp_periodSquared := 4 |}
    = Some (x, y) /\
    padding <= x <= 300 - padding /\
    padding <= y <= 200 - padding.
Proof.
  apply (plot_point_inside 300 200).
  - unfold padding. lra.
  - unfold padding. lra.
  - simpl. lia.
  - apply elem_of_cons. right. apply elem_of_cons. left. reflexivity.
Defined.

End PendulumPageFacts.

(** ** Bar magnets: strength, turning and field lines *)

Section MagnetLineFacts.




Lemma turned_sq (a b t : R) :
  (a * cos t - b * sin t) * (a * cos t - b * sin t)
  + (a * sin t + b * cos t) * (a * sin t + b * cos t)
  = a * a + b * b.
Proof.
  pose proof (sin2_cos2 t) as H. unfold Rsqr in H.
  replace ((a * cos t - b * sin t) * (a * cos t - b * sin t)
           + (a * sin t + b * cos t) * (a * sin t + b * cos t))
    with ((a * a + b * b) * (sin t * sin t + cos t * cos t)) by ring.
  rewrite H. ring.
Qed.





(** X25: with the magnet not turned ([rotation.y = 0]) the second demo
    computes the field of the first one at slider strength 1. *)
Theorem unturned_magnet_agrees (magnetPos : Position) (x z : R) :
  MagnetRotating.calculateFieldAt magnetPos 0 x z
  = MagnetSlider.calculateFieldAt magnetPos 1 x z.
Proof.
  destruct (Rlt_dec (distance_from magnetPos x z) (1 / 10)) as [Hnear|Hfar].
  - unfold MagnetSlider.calculateFieldAt, MagnetRotating.calculateFieldAt.
    unfold distance_from in Hnear. cbv zeta in *.
    destruct (decide _) as [_|Hno]; [reflexivity | contradiction].
  - apply Rnot_lt_ge in Hfar.
    rewrite (slider_field_far magnetPos 1 x z Hfar).
    rewrite (rotating_field_far magnetPos 0 x z Hfar).
    cbv zeta. rewrite Ropp_0, cos_0, sin_0.
    set (r := distance_from magnetPos x z) in *.
    assert (Hr : r <> 0) by lra.
    set (dx := x - pos_x magnetPos). set (dz := z - pos_z magnetPos).
    assert (Hx : 3 * (dx * 1 - dz * 0) * (dx * 0 + dz * 1) / r ^ 3 * (5 / 10)
                 * 1
                 - (2 * (dx * 0 + dz * 1) * (dx * 0 + dz * 1)
                    - (dx * 1 - dz * 0) * (dx * 1 - dz * 0)) / r ^ 3
                   * (5 / 10) * 0
                 = 3 * dx * dz / r ^ 3 * (1 * (5 / 10))) by (field; lra).
    assert (Hz : 3 * (dx * 1 - dz * 0) * (dx * 0 + dz * 1) / r ^ 3 * (5 / 10)
                 * 0
                 + (2 * (dx * 0 + dz * 1) * (dx * 0 + dz * 1)
                    - (dx * 1 - dz * 0) * (dx * 1 - dz * 0)) / r ^ 3
                   * (5 / 10) * 1
                 = (2 * dz * dz - dx * dx) / r ^ 3 * (1 * (5 / 10)))
      by (field; lra).
    rewrite Hx, Hz. reflexivity.
Qed.

Lemma turn_about_distance (magnetPos : Position) (t x z : R) :
  distance_from magnetPos (turn_about magnetPos t x z).1
    (turn_about magnetPos t x z).2
  = distance_from magnetPos x z.
Proof.
  unfold distance_from, turn_about. cbv zeta. cbn [fst snd]. f_equal.
  rewrite <- (turned_sq (x - pos_x magnetPos) (z - pos_z magnetPos) t).
  ring.
Qed.

(** X26: turning the magnet and the sample point together by [t] about
    the magnet keeps the strength, and the field vector comes out turned
    by [- t]: [(bx cos t + bz sin t, - bx sin t + bz cos t)]. *)
Theorem turning_magnet_and_point (magnetPos : Position) (rot t x z : R) :
  exists f f',
    MagnetRotating.calculateFieldAt magnetPos rot x z = Some f /\
    MagnetRotating.calculateFieldAt magnetPos (rot + t)
      (turn_about magnetPos t x z).1 (turn_about magnetPos t x z).2
    = Some f' /\
    bx f' = bx f * cos t + bz f * sin t /\
    bz f' = - bx f * sin t + bz f * cos t /\
    strength f' = strength f.
Proof.
  destruct (Rlt_dec (distance_from magnetPos x z) (1 / 10)) as [Hnear|Hfar].
  - pose proof (turn_about_distance magnetPos t x z) as Hsame.
    unfold MagnetRotating.calculateFieldAt.
    unfold distance_from in Hnear, Hsame. cbv zeta in *.
    rewrite Hsame.
    destruct (decide _) as [_|Hno]; [|contradiction].
    eexists _, _. split; [reflexivity|]. split; [reflexivity|].
    cbn [bx bz strength]. repeat split; ring.
  - apply Rnot_lt_ge in Hfar.
    pose proof (turn_about_distance magnetPos t x z) as Hsame.
    rewrite (rotating_field_far magnetPos rot x z Hfar).
    rewrite rotating_field_far by (rewrite Hsame; exact Hfar).
    cbv zeta. rewrite Hsame.
    eexists _, _. split; [reflexivity|]. split; [reflexivity|].
    cbn [bx bz strength].
    set (r := distance_from magnetPos x z) in *.
    assert (Hr : r <> 0) by lra.
    unfold turn_about. cbv zeta. cbn [fst snd].
    set (dx := x - pos_x magnetPos). set (dz := z - pos_z magnetPos).
    replace (pos_x magnetPos + (dx * cos t - dz * sin t) - pos_x magnetPos)
      with (dx * cos t - dz * sin t) by ring.
    replace (pos_z magnetPos + (dx * sin t + dz * cos t) - pos_z magnetPos)
      with (dx * sin t + dz * cos t) by ring.
    rewrite !Ropp_plus_distr, !cos_plus, !sin_plus, !cos_neg, !sin_neg.
    set (c := cos rot). set (s := sin rot).
    set (ct := cos t). set (st := sin t).
    assert (Hone : st * st + ct * ct = 1).
    { pose proof (sin2_cos2 t) as H. unfold Rsqr in H. exact H. }
    assert (Hdx : (dx * ct - dz * st) * (c * ct - - s * - st)
                  - (dx * st + dz * ct) * (- s * ct + c * - st)
                  = dx * c - dz * - s).
    { replace ((dx * ct - dz * st) * (c * ct - - s * - st)
               - (dx * st + dz * ct) * (- s * ct + c * - st))
        with ((dx * c + dz * s) * (st * st + ct * ct)) by ring.
      rewrite Hone. ring. }
    assert (Hdz : (dx * ct - dz * st) * (- s * ct + c * - st)
                  + (dx * st + dz * ct) * (c * ct - - s * - st)
                  = dx * - s + dz * c).
    { replace ((dx * ct - dz * st) * (- s * ct + c * - st)
               + (dx * st + dz * ct) * (c * ct - - s * - st))
        with ((- dx * s + dz * c) * (st * st + ct * ct)) by ring.
      rewrite Hone. ring. }
    rewrite Hdx, Hdz.
    set (fx := 3 * (dx * c - dz * - s) * (dx * - s + dz * c) / r ^ 3
               * (5 / 10)).
    set (fz := (2 * (dx * - s + dz * c) * (dx * - s + dz * c)
                - (dx * c - dz * - s) * (dx * c - dz * - s)) / r ^ 3
               * (5 / 10)).
    split; [ring|]. split; [ring|].
    f_equal.
    replace ((fx * (c * ct - - s * - st) - fz * (- s * ct + c * - st))
             * (fx * (c * ct - - s * - st) - fz * (- s * ct + c * - st))
             + (fx * (- s * ct + c * - st) + fz * (c * ct - - s * - st))
               * (fx * (- s * ct + c * - st) + fz * (c * ct - - s * - st)))
      with ((fx * fx + fz * fz) * ((c * c + s * s) * (st * st + ct * ct)))
      by ring.
    replace ((fx * c - fz * - s) * (fx * c - fz * - s)
             + (fx * - s + fz * c) * (fx * - s + fz * c))
      with ((fx * fx + fz * fz) * (c * c + s * s)) by ring.
    rewrite Hone. ring.
Qed.

(** *** Field lines *)







End MagnetLineFacts.

(** ** Chemistry lab: what the buttons guard *)

Section ChemGuardFacts.
Import Chem ChemGuards.

Lemma guarded_iff (p : Page) : guarded p <-> guardedb p = true.
Proof.
  unfold guarded, guardedb. cbv zeta.
  rewrite !andb_true_iff, !Bool.implb_true_iff. tauto.
Qed.

#[local] Ltac flags_of_goal :=
  repeat match goal with
         | b : bool |- _ =>
             match goal with |- context [b] => destruct b end
         end.

Lemma handler_guardedb (b : Button) (p : Page) :
  is_disabled b (disabled p) = false ->
  guardedb p && orderedb (state p) = true ->
  guardedb (handler b p) && orderedb (state (handler b p)) = true.
Proof.
  destruct p as [[zn hc gs pp cu ht hp wt] [b1 b2 b3 b4 b5 b6 b7] n].
  intros Hen H.
  unfold guardedb, orderedb, enabled in H. cbv zeta in H. cbn in Hen, H.
  rewrite !andb_true_iff in H. destruct_and!.
  destruct b; cbn in Hen; try subst;
    unfold guardedb, orderedb, enabled; cbv zeta;
    cbn [handler state disabled zincAdded hclAdded gasCollected popTested
         cuoAdded heated hydrogenPassed waterTested];
    repeat match goal with
           | |- context [if ?c then _ else _] =>
               match c with
               | context [?v] => is_var v; destruct v
               end; cbn [negb andb]
           end;
    cbn; rewrite ?andb_true_iff; repeat split;
    try assumption; try reflexivity;
    flags_of_goal; cbn in *; try congruence;
    rewrite andb_false_r in *; congruence.
Qed.

Lemma step_guardedb (p : Page) (e : Event) :
  guardedb p && orderedb (state p) = true ->
  guardedb (step p e) && orderedb (state (step p e)) = true.
Proof.
  intros H. destruct e as [b|]; cbn [step].
  - destruct (is_disabled b (disabled p)) eqn:Hen; [exact H|].
    now apply handler_guardedb.
  - destruct (heatTimers p) as [|k]; [exact H|].
    destruct p as [s [b1 b2 b3 b4 b5 b6 b7] n]. exact H.
Qed.

Lemma run_guardedb (events : list Event) (p : Page) :
  guardedb p && orderedb (state p) = true ->
  guardedb (run p events) && orderedb (state (run p events)) = true.
Proof.
  revert p. induction events as [|e events IH]; intros p H.
  - exact H.
  - cbn [run foldl]. apply IH. now apply step_guardedb.
Qed.

Lemma guarded_complete (p : Page) :
  guardedb p && orderedb (state p) = true ->
  guarded p /\ (waterTested (state p) = true -> complete (state p)).
Proof.
  intros H. apply andb_true_iff in H. destruct H as [Hg Ho].
  apply guarded_iff in Hg. apply ordered_iff in Ho.
  split; [exact Hg|]. intros Hwater.
  destruct Hg as (_ & _ & _ & _ & _ & _ & Hcu).
  destruct Ho as (Hhc & Hgs & Hpp & Hht & Hhp & Hwt).
  cbv zeta in Hcu.
  destruct (Hhp (Hwt Hwater)) as [Hheated Hgas].
  pose proof (Hwt Hwater) as Hpassed.
  pose proof (Hht Hheated) as Hcuo.
  pose proof (Hcu Hcuo) as Hpop.
  pose proof (Hgs Hgas) as Hhcl.
  pose proof (Hhc Hhcl) as Hzinc.
  destruct p as [[zn hc gs pp cu ht hp wt] d n]. unfold complete.
  cbn in *. congruence.
Qed.

(** X28: from the page loaded with its seven buttons disabled, and
    from any page after a click on reset, every page the events lead
    to has the step before each enabled button done (the hydrogen
    button apart) and copper oxide only after the pop test; so a
    finished water test means all eight steps were done. *)
Theorem buttons_guard_the_steps (events : list Event) :
  (let p := run (loaded all_disabled) events in
   guarded p /\ (waterTested (state p) = true -> complete (state p))) /\
  (forall p0,
     let p := run (handler Reset p0) events in
     guarded p /\ (waterTested (state p) = true -> complete (state p))).
Proof.
  split; [|intros p0]; cbv zeta; apply guarded_complete, run_guardedb;
    reflexivity.
Qed.

(** X29: a click on reset does not cancel a pending heat timer: when
    the timer fires afterwards it enables the hydrogen button of the
    reset page, nothing being heated; a click on that button then
    changes nothing. *)
Theorem reset_keeps_heat_timer (p : Page) :
  (1 <= heatTimers p)%nat ->
  let p' := run p [Click Reset; HeatTimeout] in
  state p' = initial_state /\
  enabled PassHydrogen p' = true /\
  heatTimers p' = pred (heatTimers p) /\
  step p' (Click PassHydrogen) = p'.
Proof.
  intros Htimer. destruct p as [s d [|k]]; cbn in Htimer; [lia|].
  cbn. repeat split.
Qed.

Lemma reset_keeps_heat_timer_witness :
  let p' :=
    run (run (loaded all_disabled)
           [Click AddZinc; Click AddHCl; Click CollectGas; Click PopTest;
            Click AddCuO; Click Heat])
      [Click Reset; HeatTimeout] in
  state p' = initial_state /\
  enabled PassHydrogen p' = true /\
  heatTimers p' = pred (heatTimers
                          (run (loaded all_disabled)
                             [Click AddZinc; Click AddHCl; Click CollectGas;
                              Click PopTest; Click AddCuO; Click Heat])) /\
  step p' (Click PassHydrogen) = p'.
Proof.
  apply (reset_keeps_heat_timer
           (run (loaded all_disabled)
              [Click AddZinc; Click AddHCl; Click CollectGas; Click PopTest;
               Click AddCuO; Click Heat])).
  cbn. lia.
Defined.

End ChemGuardFacts.
